(** * Histogrammar primitives: Bag, Deviate, Fraction, Select

    A shallow embedding of [histogrammar/primitives/{bag,deviate,fraction,select}.py]
    and theorems about the aggregator algebra (zero, fill, combine, wire form).

    Numbers.  A Python [float] is modelled by [float] below: an exact rational,
    or one of the three IEEE sentinels.  Arithmetic on finite values is exact
    (no rounding, overflow, underflow or signed zero); on the sentinels it
    follows IEEE-754 as Python does.  Python's [int], [long] and [bool] are
    coerced to this type where the code does arithmetic on them; an [int]
    too large for a float, on which that coercion raises [OverflowError],
    is not among the values of the model.

    Rounding.  What is proved of [fill], [add] and the rest is proved in
    this exact arithmetic, and said so where it would not survive rounding.
    What depends on the rounding of doubles is stated of [fill_r binary64]
    and [add_r binary64]: the same code with every operation rounded to
    the nearest double. *)

From Stdlib Require Import QArith Qcanon Bool String List.
From Stdlib Require PrimFloat FloatOps.
From stdpp Require Import gmap strings list fin_maps sorting.

Local Open Scope Qc_scope.

(** ** Rationals: boolean comparisons *)

Definition Qcltb (x y : Qc) : bool :=
  match x ?= y with Lt => true | _ => false end.

Definition Qceqb (x y : Qc) : bool :=
  match x ?= y with Eq => true | _ => false end.

(** ** Python floats *)

Inductive float : Type :=
| Finite (q : Qc)
| PInf
| NInf
| NaN.

Definition f0 : float := Finite 0.
Definition f1 : float := Finite 1.
Definition f2 : float := Finite (Q2Qc 2).

(** [math.isnan], [math.isinf] *)
Definition isnan (x : float) : bool :=
  match x with NaN => true | _ => false end.

Definition isinf (x : float) : bool :=
  match x with PInf | NInf => true | _ => false end.

Definition isfinite (x : float) : bool :=
  match x with Finite _ => true | _ => false end.

(** [-x] *)
Definition fopp (x : float) : float :=
  match x with
  | Finite a => Finite (- a)
  | PInf => NInf
  | NInf => PInf
  | NaN => NaN
  end.

(** [x + y] *)
Definition fadd (x y : float) : float :=
  match x, y with
  | NaN, _ | _, NaN => NaN
  | PInf, NInf | NInf, PInf => NaN
  | PInf, _ | _, PInf => PInf
  | NInf, _ | _, NInf => NInf
  | Finite a, Finite b => Finite (a + b)
  end.

(** [x - y] *)
Definition fsub (x y : float) : float := fadd x (fopp y).

(** The infinity with the sign of [s * a], NaN when [a] is zero. *)
Definition inf_times (pos : bool) (a : Qc) : float :=
  if Qceqb a 0 then NaN
  else if Bool.eqb pos (Qcltb 0 a) then PInf else NInf.

(** [x * y] *)
Definition fmul (x y : float) : float :=
  match x, y with
  | NaN, _ | _, NaN => NaN
  | Finite a, Finite b => Finite (a * b)
  | PInf, Finite a | Finite a, PInf => inf_times true a
  | NInf, Finite a | Finite a, NInf => inf_times false a
  | PInf, PInf | NInf, NInf => PInf
  | PInf, NInf | NInf, PInf => NInf
  end.

(** [x / y] for a divisor that is not zero.  Python raises
    [ZeroDivisionError] when [y == 0.0]: every call site in the primitives is
    either behind a test that excludes it or checks [feqb y f0] first (see
    [Deviate_fill]); on a zero divisor this function answers [NaN]. *)
Definition fdiv (x y : float) : float :=
  match x, y with
  | NaN, _ | _, NaN => NaN
  | Finite a, Finite b => if Qceqb b 0 then NaN else Finite (a / b)
  | Finite _, (PInf | NInf) => Finite 0
  | PInf, Finite b => if Qceqb b 0 then NaN else inf_times true b
  | NInf, Finite b => if Qceqb b 0 then NaN else inf_times false b
  | (PInf | NInf), (PInf | NInf) => NaN
  end.

(** [x < y], [x > y], [x <= y], [x == y]: every comparison with NaN is false. *)
Definition fltb (x y : float) : bool :=
  match x, y with
  | NaN, _ | _, NaN => false
  | Finite a, Finite b => Qcltb a b
  | NInf, (Finite _ | PInf) => true
  | Finite _, PInf => true
  | _, _ => false
  end.

Definition fgtb (x y : float) : bool := fltb y x.

Definition feqb (x y : float) : bool :=
  match x, y with
  | Finite a, Finite b => Qceqb a b
  | PInf, PInf | NInf, NInf => true
  | _, _ => false
  end.

Definition fleb (x y : float) : bool := fltb x y || feqb x y.

(** [abs(x)] and the two-argument [max(x, y)] (Python keeps the first
    argument unless the second is greater). *)
Definition fabs (x : float) : float :=
  match x with
  | Finite a => if Qcltb a 0 then Finite (- a) else Finite a
  | PInf | NInf => PInf
  | NaN => NaN
  end.

Definition fmax (x y : float) : float := if fgtb y x then y else x.

Global Instance float_eq_dec : EqDecision float.
Proof. solve_decision. Defined.

(** ** Python values: the data, what an extractor returns, the wire
    documents *)

#[warnings="-register-all"]
Inductive value : Type :=
| VNone
| VBool (b : bool)
| VNum (x : float)
| VStr (s : string)
| VList (l : list value)
| VDict (d : list (string * value)).

(** The float of a [bool], [int], [long] or [float]; [None] for anything
    else.  This is the test [isinstance(w, (bool, int, long, float))] of
    Fraction and Select and [isinstance(q, numbers.Real)] of Deviate,
    together with the coercion Python applies in the arithmetic after it.
    An [int] too large for a float, on which that coercion raises
    [OverflowError], is not a value of the model. *)
Definition as_real (v : value) : option float :=
  match v with
  | VBool true => Some f1
  | VBool false => Some f0
  | VNum x => Some x
  | _ => None
  end.

(** ** Exceptions *)

Inductive exn : Type :=
| TypeError            (* quantity-type *)
| ContainerException   (* shape-mismatch *)
| JsonFormatException  (* wire-format *)
| ValueError           (* value-range *)
| KeyError             (* unknown-type: [Factory.registered[...]] *)
| AttributeError
| ZeroDivisionError
| PastTenseError.      (* filling a primitive that has no extractor *)

Global Instance exn_eq_dec : EqDecision exn.
Proof. solve_decision. Defined.

Inductive result (A : Type) : Type :=
| Ok (a : A)
| Raise (e : exn).
Arguments Ok {A} a.
Arguments Raise {A} e.

Global Instance result_ret : MRet result := fun A a => Ok a.
Global Instance result_bind : MBind result := fun A B f m =>
  match m with Ok a => f a | Raise e => Raise e end.
Global Instance result_fmap : FMap result := fun A B f m =>
  match m with Ok a => Ok (f a) | Raise e => Raise e end.

(** ** Quantities *)

(** Modelled from the spec: [histogrammar.util.serializable] and the wrapper
    it returns are not among the sources.  A quantity is a wrapped extractor
    with an attached [name] (absent: anonymous); a past-tense primitive has
    no extractor.  The extractor is a Python callable: it is kept by identity
    ([expr]), its behaviour is given by the table [fcns] of the section
    below.  Equality takes the extractor and the name. *)
Record UserFcn : Type := mkUserFcn {
  expr : option nat;
  name : option string
}.

Definition serializable (quantity : option UserFcn) : UserFcn :=
  match quantity with
  | Some f => f
  | None => mkUserFcn None None
  end.

Global Instance UserFcn_eq_dec : EqDecision UserFcn.
Proof. solve_decision. Defined.

Definition UserFcn_eq (f g : UserFcn) : bool := bool_decide (f = g).

(** [out.quantity.name = ...] *)
Definition set_name (f : UserFcn) (n : option string) : UserFcn :=
  mkUserFcn (expr f) n.

(** ** Keys of a Bag *)

Inductive key : Type :=
| KNum (x : float)
| KStr (s : string)
| KTup (l : list float).

Global Instance key_eq_dec : EqDecision key.
Proof. solve_decision. Defined.

Global Instance float_countable : Countable float.
Proof.
  refine (inj_countable'
    (fun x => match x with
              | Finite q => inl q | PInf => inr 0%nat
              | NInf => inr 1%nat | NaN => inr 2%nat end)
    (fun s => match s with
              | inl q => Finite q | inr 0%nat => PInf
              | inr 1%nat => NInf | inr _ => NaN end) _).
  intros []; reflexivity.
Defined.

Global Instance key_countable : Countable key.
Proof.
  refine (inj_countable'
    (fun k => match k with
              | KNum x => inl x | KStr s => inr (inl s)
              | KTup l => inr (inr l) end)
    (fun s => match s with
              | inl x => KNum x | inr (inl s) => KStr s
              | inr (inr l) => KTup l end) _).
  intros []; reflexivity.
Defined.

(** Modelled from the spec: [histogrammar.util.floatOrNan] is not among the
    sources.  A number is coerced to a float, the strings "nan", "inf" and
    "-inf" to the IEEE value; anything else raises. *)
Definition floatOrNan (v : value) : option float :=
  match v with
  | VStr s =>
      if String.eqb s "nan" then Some NaN
      else if String.eqb s "inf" then Some PInf
      else if String.eqb s "-inf" then Some NInf
      else None
  | _ => as_real v
  end.

(** The key [Bag._update] computes from the quantity, [None] where it
    raises [TypeError]. *)
Definition Bag_key (q : value) : option key :=
  match q with
  | VStr s => Some (KStr s)
  | VList l => KTup <$> mapM floatOrNan l
  | _ => KNum <$> floatOrNan q
  end.

(** [if q in values: values[q] += weight  else: values[q] = weight] *)
Definition values_update (values : gmap key float) (q : key) (weight : float)
  : gmap key float :=
  match values !! q with
  | Some n => <[q := fadd n weight]> values
  | None => <[q := weight]> values
  end.

(** ** The aggregator tree *)

Inductive Container : Type :=
| Bag (quantity : UserFcn) (entries : float) (values : gmap key float)
| Deviate (quantity : UserFcn) (entries mean varianceTimesEntries : float)
| Fraction (quantity : UserFcn) (entries : float)
           (numerator denominator : Container)
| Select (quantity : UserFcn) (entries : float) (cut : Container).

Definition entries (c : Container) : float :=
  match c with
  | Bag _ e _ | Deviate _ e _ _ | Fraction _ e _ _ | Select _ e _ => e
  end.

Definition quantity (c : Container) : UserFcn :=
  match c with
  | Bag q _ _ | Deviate q _ _ _ | Fraction q _ _ _ | Select q _ _ => q
  end.

(** The registered type tag ([self.name]). *)
Definition factory_name (c : Container) : string :=
  match c with
  | Bag _ _ _ => "Bag"
  | Deviate _ _ _ _ => "Deviate"
  | Fraction _ _ _ _ => "Fraction"
  | Select _ _ _ => "Select"
  end.

Definition children (c : Container) : list Container :=
  match c with
  | Bag _ _ _ | Deviate _ _ _ _ => []
  | Fraction _ _ n d => [n; d]
  | Select _ _ cut => [cut]
  end.

(** *** Constructors ([__init__]) *)

Definition Bag_init (quantity : option UserFcn) : Container :=
  Bag (serializable quantity) f0 ∅.

Definition Deviate_init (quantity : option UserFcn) : Container :=
  Deviate (serializable quantity) f0 f0 f0.

Definition Select_init (quantity : option UserFcn) (cut : Container) : Container :=
  Select (serializable quantity) f0 cut.

(** *** [zero] *)

Fixpoint zero (c : Container) : Container :=
  match c with
  | Bag q _ _ => Bag_init (Some q)
  | Deviate q _ _ _ => Deviate_init (Some q)
  | Fraction q _ n d => Fraction (serializable (Some q)) f0 (zero n) (zero d)
  | Select q _ cut => Select_init (Some q) (zero cut)
  end.

(** [Fraction(quantity, value)]: both children are [value.zero()]. *)
Definition Fraction_init (quantity : option UserFcn) (value : Container) : Container :=
  Fraction (serializable quantity) f0 (zero value) (zero value).

(** *** Combine ([__add__]) *)

(** Deviate: [out.mean] and [out.varianceTimesEntries] of [self + other],
    with [c], [m], [s] for entries, mean and varianceTimesEntries. *)
Definition Deviate_add_mean (ca ma cb mb : float) : float :=
  if feqb (fadd ca cb) f0
  then fdiv (fadd ma mb) f2
  else fdiv (fadd (fmul ca ma) (fmul cb mb)) (fadd ca cb).

Definition Deviate_add_vte (ca ma sa cb mb sb : float) : float :=
  let mean := Deviate_add_mean ca ma cb mb in
  fadd
    (fsub
       (fadd (fadd (fadd sa sb) (fmul (fmul ca ma) ma)) (fmul (fmul cb mb) mb))
       (fmul (fmul f2 mean) (fadd (fmul ca ma) (fmul cb mb))))
    (fmul (fmul mean mean) (fadd ca cb)).

(** Bag: [out.values = dict(self.values)], then every item of
    [other.values] is added in. *)
Definition Bag_add_values (mine other : gmap key float) : gmap key float :=
  map_fold (fun value count out => values_update out value count) mine other.

(** [self + other].  [Fraction.__add__] builds [Fraction(self.quantity,
    None)], whose [entries] is [0.0], and assigns the two children only. *)
Fixpoint add (self other : Container) : result Container :=
  match self, other with
  | Bag q e v, Bag _ e' v' =>
      Ok (Bag (serializable (Some q)) (fadd e e') (Bag_add_values v v'))
  | Deviate q ca ma sa, Deviate _ cb mb sb =>
      Ok (Deviate (serializable (Some q)) (fadd ca cb)
            (Deviate_add_mean ca ma cb mb)
            (Deviate_add_vte ca ma sa cb mb sb))
  | Fraction q _ n d, Fraction _ _ n' d' =>
      num ← add n n';
      den ← add d d';
      Ok (Fraction (serializable (Some q)) f0 num den)
  | Select q e c, Select _ e' c' =>
      cut ← add c c';
      Ok (Select (serializable (Some q)) (fadd e e') cut)
  | _, _ => Raise ContainerException
  end.

(** [Deviate.variance] *)
Definition variance (entries varianceTimesEntries : float) : float :=
  if feqb entries f0 then varianceTimesEntries
  else fdiv varianceTimesEntries entries.

(** [Select.fractionPassing] is [cut.entries / entries]. *)
Definition fractionPassing (c : Container) : result float :=
  match c with
  | Select _ e cut =>
      if feqb e f0 then Raise ZeroDivisionError else Ok (fdiv (entries cut) e)
  | _ => Raise AttributeError
  end.

(** *** The order [sorted] uses on the items of a Bag *)

(** Python 2 orders numbers before strings before tuples.  On NaN Python's
    comparison is not an order; here NaN is placed after every number. *)
Definition float_ltb (x y : float) : bool :=
  match x, y with
  | NaN, _ => false
  | _, NaN => true
  | _, _ => fltb x y
  end.

Fixpoint tuple_ltb (l1 l2 : list float) : bool :=
  match l1, l2 with
  | [], [] => false
  | [], _ :: _ => true
  | _ :: _, [] => false
  | x :: l1', y :: l2' =>
      if bool_decide (x = y) then tuple_ltb l1' l2' else float_ltb x y
  end.

Definition key_ltb (k1 k2 : key) : bool :=
  match k1, k2 with
  | KNum x, KNum y => float_ltb x y
  | KNum _, _ => true
  | KStr s, KStr t => String.ltb s t
  | KStr _, KTup _ => true
  | KTup l1, KTup l2 => tuple_ltb l1 l2
  | _, _ => false
  end.

Definition item_le (a b : key * float) : Prop :=
  (if bool_decide (a.1 = b.1) then negb (float_ltb b.2 a.2)
   else key_ltb a.1 b.1) = true.

Global Instance item_le_dec a b : Decision (item_le a b).
Proof. unfold item_le. apply _. Defined.

Definition sorted (l : list (key * float)) : list (key * float) :=
  merge_sort item_le l.

(** [sorted(x for x in values.items() if x[0] != "nan")] *)
Definition sorted_items (values : gmap key float) : list (key * float) :=
  sorted (filter (fun x => x.1 <> KStr "nan") (map_to_list values)).

(** ** Equality ([__eq__]) *)

Section Equality.

(** [util.relativeTolerance] and [util.absoluteTolerance] *)
Variables relativeTolerance absoluteTolerance : float.

(** Modelled from the spec: [histogrammar.util.numeq] is not among the
    sources.  One library-wide tolerance pair; NaN is equal to NaN; values
    that are [==] are equal; otherwise the relative and the absolute
    tolerance are applied to the distance. *)
Definition numeq (x y : float) : bool :=
  (isnan x && isnan y)
  || feqb x y
  || fleb (fabs (fsub x y))
          (fmax (fmul relativeTolerance (fmax (fabs x) (fabs y)))
                absoluteTolerance).

(** The attribute [other.values].  Select forwards the attributes it does
    not have to its [cut] ([Select.__getattr__]). *)
Fixpoint values_of (other : Container) : result (gmap key float) :=
  match other with
  | Bag _ _ v => Ok v
  | Select _ _ cut =>
      match values_of cut with
      | Ok v => Ok v
      | Raise _ => Raise KeyError
      end
  | _ => Raise AttributeError
  end.

(** The two tests [Bag.__eq__] makes on a pair of items. *)
Definition key_numeq (v1 v2 : key) : bool :=
  match v1, v2 with
  | KStr s1, KStr s2 => String.eqb s1 s2
  | KNum x1, KNum x2 => numeq x1 x2
  | KTup l1, KTup l2 =>
      (length l1 =? length l2)%nat
      && forallb (fun p => numeq p.1 p.2) (zip l1 l2)
  | _, _ => false
  end.

Definition weight_numeq (v1 v2 : key) (w1 w2 : option float) : bool :=
  match w1, w2 with
  | None, None => bool_decide (v1 = KStr "nan") && bool_decide (v2 = KStr "nan")
  | Some x1, Some x2 => numeq x1 x2
  | _, _ => false
  end.

(** [sorted(...) + [("nan", values.get("nan"))]] *)
Definition eq_items (values : gmap key float) : list (key * option float) :=
  (prod_map id Some <$> sorted_items values)
  ++ [(KStr "nan", values !! KStr "nan")].

Definition Bag_eq (q : UserFcn) (e : float) (values : gmap key float)
           (other : Container) : result bool :=
  ovalues ← values_of other;
  if negb (size values =? size ovalues)%nat then Ok false
  else if negb (forallb
                  (fun p => key_numeq p.1.1 p.2.1
                            && weight_numeq p.1.1 p.2.1 p.1.2 p.2.2)
                  (zip (eq_items values) (eq_items ovalues)))
  then Ok false
  else Ok (match other with
           | Bag q' e' _ => UserFcn_eq q q' && numeq e e'
           | _ => false
           end).

(** [self == other].  [Select.__eq__] compares [entries] and [cut]. *)
Fixpoint Container_eq (self other : Container) : result bool :=
  match self with
  | Bag q e v => Bag_eq q e v other
  | Deviate q e m s =>
      Ok (match other with
          | Deviate q' e' m' s' =>
              UserFcn_eq q q' && numeq e e' && numeq m m'
              && numeq (variance e s) (variance e' s')
          | _ => false
          end)
  | Fraction q e n d =>
      match other with
      | Fraction q' e' n' d' =>
          if negb (numeq e e') then Ok false
          else if negb (UserFcn_eq q q') then Ok false
          else r ← Container_eq n n'; if negb r then Ok false else Container_eq d d'
      | _ => Ok false
      end
  | Select q e c =>
      match other with
      | Select _ e' c' =>
          if negb (numeq e e') then Ok false else Container_eq c c'
      | _ => Ok false
      end
  end.

End Equality.

(** ** Hashing ([__hash__])

    Each [__hash__] hands a tuple to [hash]; [hash_tuple] is that tuple.
    The items of a Bag are taken in the order of the dict. *)

#[warnings="-register-all"]
Inductive hashed : Type :=
| HFloat (x : float)
| HFcn (q : UserFcn)
| HItems (l : list (key * float))
| HTuple (l : list hashed).

Fixpoint hash_tuple (c : Container) : hashed :=
  match c with
  | Bag q e values => HTuple [HFcn q; HFloat e; HItems (map_to_list values)]
  | Deviate q e m s =>
      HTuple [HFcn q; HFloat e; HFloat m; HFloat (variance e s)]
  | Fraction q e n d => HTuple [HFloat e; HFcn q; hash_tuple n; hash_tuple d]
  | Select q e cut => HTuple [HFloat e; hash_tuple cut]
  end.

(** ** Filling ([fill]) *)

Section Fill.

(** The Python callables behind the extractors, by identity. *)
Variable fcns : nat -> value -> value.

(** [self.quantity(datum)]; a past-tense quantity has nothing to call. *)
Definition call (q : UserFcn) (datum : value) : result value :=
  match expr q with
  | Some f => Ok (fcns f datum)
  | None => Raise PastTenseError
  end.

(** [Bag.fill].  A call returns the aggregator as the call leaves it and
    the exception it raised, if any. *)
Definition Bag_fill (q : UserFcn) (e : float) (values : gmap key float)
           (datum : value) (weight : float) : Container * option exn :=
  if fgtb weight f0 then
    match call q datum with
    | Raise err => (Bag q e values, Some err)
    | Ok v =>
        match Bag_key v with
        | None => (Bag q e values, Some TypeError)
        | Some k =>
            (Bag q (fadd e weight) (values_update values k weight), None)
        end
    end
  else (Bag q e values, None).

(** [Deviate.fill] *)
Definition Deviate_fill (q : UserFcn) (e mean vte : float)
           (datum : value) (weight : float) : Container * option exn :=
  if fgtb weight f0 then
    match call q datum with
    | Raise err => (Deviate q e mean vte, Some err)
    | Ok v =>
        match as_real v with
        | None => (Deviate q e mean vte, Some TypeError)
        | Some x =>
            let e' := fadd e weight in
            if isnan mean || isnan x then
              (Deviate q e' NaN NaN, None)
            else if isinf mean || isinf x then
              let mean1 :=
                if isinf mean && isinf x && fltb (fmul mean x) f0 then NaN
                else if isinf x then x
                else mean in
              let mean2 := if isinf e' || isnan e' then NaN else mean1 in
              (Deviate q e' mean2 NaN, None)
            else if feqb e' f0 then
              (Deviate q e' mean vte, Some ZeroDivisionError)
            else
              let delta := fsub x mean in
              let shift := fdiv (fmul delta weight) e' in
              let mean' := fadd mean shift in
              (Deviate q e' mean'
                 (fadd vte (fmul (fmul weight delta) (fsub x mean'))),
               None)
        end
    end
  else (Deviate q e mean vte, None).

(** [fill], dispatched on the primitive. *)
Fixpoint fill (self : Container) (datum : value) (weight : float)
  : Container * option exn :=
  match self with
  | Bag q e values => Bag_fill q e values datum weight
  | Deviate q e mean vte => Deviate_fill q e mean vte datum weight
  | Fraction q e numerator denominator =>
      match call q datum with
      | Raise err => (self, Some err)
      | Ok v =>
          match as_real v with
          | None => (self, Some TypeError)
          | Some w0 =>
              let w := fmul w0 weight in
              let '(den, r1) :=
                if fgtb weight f0 then fill denominator datum weight
                else (denominator, None) in
              match r1 with
              | Some err => (Fraction q e numerator den, Some err)
              | None =>
                  let '(num, r2) :=
                    if fgtb w f0 then fill numerator datum w
                    else (numerator, None) in
                  match r2 with
                  | Some err => (Fraction q e num den, Some err)
                  | None => (Fraction q (fadd e weight) num den, None)
                  end
              end
          end
      end
  | Select q e cut =>
      match call q datum with
      | Raise err => (self, Some err)
      | Ok v =>
          match as_real v with
          | None => (self, Some TypeError)
          | Some w0 =>
              let w := fmul w0 weight in
              let '(cut', r) :=
                if fgtb w f0 then fill cut datum w else (cut, None) in
              match r with
              | Some err => (Select q e cut', Some err)
              | None => (Select q (fadd e weight) cut', None)
              end
          end
      end
  end.

(** A stream of [fill] calls; it stops at the first exception. *)
Fixpoint fill_all (self : Container) (data : list (value * float))
  : Container * option exn :=
  match data with
  | [] => (self, None)
  | (datum, weight) :: rest =>
      match fill self datum weight with
      | (self', None) => fill_all self' rest
      | r => r
      end
  end.

End Fill.

(** ** Deviate on finite states

    On finite states the combine stays finite: [meanQ] and [vteQ] are
    [Deviate_add_mean] and [Deviate_add_vte] on rationals (see
    [Deviate_add_mean_finite] and [Deviate_add_vte_finite]). *)

Definition meanQ (ca ma cb mb : Qc) : Qc :=
  if Qceqb (ca + cb) 0 then (ma + mb) / Q2Qc 2
  else (ca * ma + cb * mb) / (ca + cb).

Definition vteQ (ca ma sa cb mb sb : Qc) : Qc :=
  let mean := meanQ ca ma cb mb in
  sa + sb + ca * ma * ma + cb * mb * mb
  - Q2Qc 2 * mean * (ca * ma + cb * mb) + mean * mean * (ca + cb).

(** ** Sample extractors

    The callables used in the examples: [0] is [lambda x: x], [1] is
    [lambda x: x > 0], every other one is [lambda x: None]. *)

Definition sample_fcns (f : nat) (datum : value) : value :=
  match f, datum with
  | O, _ => datum
  | S O, VNum x => VBool (fgtb x f0)
  | _, _ => VNone
  end.

Definition identity : UserFcn := mkUserFcn (Some 0%nat) None.
Definition is_positive : UserFcn := mkUserFcn (Some 1%nat) None.
Definition returns_None : UserFcn := mkUserFcn (Some 2%nat) None.

(** Rationals written as decimals in the examples. *)
Definition num (n : Z) : float := Finite (Q2Qc (inject_Z n)).
Definition frac (n : Z) (d : positive) : float := Finite (Q2Qc (n # d)).

(** ** The states of a Select

    [reach fcns P s]: [s] is a Select reached from a zero state by fills
    with finite weights [>= 0] that succeed, and by combines.  [P] is what
    is assumed of the selector's result at each fill. *)

Inductive reach (fcns : nat -> value -> value) (P : float -> Prop)
  : Container -> Prop :=
| reach_zero q e cut :
    reach fcns P (zero (Select q e cut))
| reach_fill s datum weight v w0 s' :
    reach fcns P s ->
    0 <= weight ->
    call fcns (quantity s) datum = Ok v -> as_real v = Some w0 -> P w0 ->
    fill fcns s datum (Finite weight) = (s', None) ->
    reach fcns P s'
| reach_add a b c :
    reach fcns P a -> reach fcns P b -> add a b = Ok c ->
    reach fcns P c.

(** [cut.entries <= entries] *)
Definition Select_consistent (s : Container) : bool :=
  match s with
  | Select _ e cut => fleb (entries cut) e
  | _ => false
  end.

(** The invariant behind it: both entries are finite, and
    [0 <= cut.entries <= entries]. *)
Definition Select_inv (s : Container) : Prop :=
  exists q a cut b,
    s = Select q (Finite a) cut /\ entries cut = Finite b /\ 0 <= b /\ b <= a.

(** ** Shapes

    Two aggregators have the same shape when they are the same primitives
    with the same quantities, whatever they have counted.  The two children
    of a Fraction built by its constructor have the same shape: both come
    from one [value.zero()]; [zero], [fill] and [+] keep it so.  A Fraction
    built by [ed] takes any two children, and is past tense.  [wf] holds of
    the trees in which every Fraction is of one of these two sorts. *)

Fixpoint same_shape (a b : Container) : Prop :=
  match a, b with
  | Bag q _ _, Bag q' _ _ => q = q'
  | Deviate q _ _ _, Deviate q' _ _ _ => q = q'
  | Fraction q _ n d, Fraction q' _ n' d' =>
      q = q' /\ same_shape n n' /\ same_shape d d'
  | Select q _ c, Select q' _ c' => q = q' /\ same_shape c c'
  | _, _ => False
  end.

Fixpoint wf (c : Container) : Prop :=
  match c with
  | Bag _ _ _ | Deviate _ _ _ _ => True
  | Fraction q _ n d => (expr q = None \/ same_shape n d) /\ wf n /\ wf d
  | Select _ _ cut => wf cut
  end.

(** The extractor of [c] returned a value [c] does not take. *)
Definition ill_typed (c : Container) (v : value) : Prop :=
  match c with
  | Bag _ _ _ => Bag_key v = None
  | _ => as_real v = None
  end.

(** The extractor of [c] is called whatever the weight (Fraction, Select)
    or only for a positive weight (Bag, Deviate). *)
Definition calls_extractor (c : Container) (weight : float) : Prop :=
  match c with
  | Bag _ _ _ | Deviate _ _ _ _ => fgtb weight f0 = true
  | _ => True
  end.

(** [fills_child fcns c datum weight child w]: the call [c.fill(datum,
    weight)] reaches the call [child.fill(datum, w)] on a child of [c]:
    the cut of a Select or the numerator of a Fraction when the selector's
    result times [weight] is positive, the denominator of a Fraction when
    [weight] is; the numerator is reached only if the denominator, filled
    first, did not raise. *)
Definition fills_child (fcns : nat -> value -> value) (c : Container)
           (datum : value) (weight : float) (child : Container) (w : float)
  : Prop :=
  exists v w0,
    call fcns (quantity c) datum = Ok v /\ as_real v = Some w0
    /\ fgtb w f0 = true
    /\ match c with
       | Select _ _ cut => child = cut /\ w = fmul w0 weight
       | Fraction _ _ n d =>
           (child = d /\ w = weight)
           \/ (child = n /\ w = fmul w0 weight
               /\ (fgtb weight f0 = false
                   \/ (fill fcns d datum weight).2 = None))
       | _ => False
       end.

(** ** Past-tense constructors ([ed])

    The arguments are numbers here: the [isinstance] tests of [ed] are
    made by the callers that hold a wire document. *)

Definition Deviate_ed (entries mean variance : float) : result Container :=
  if fltb entries f0 then Raise ValueError
  else Ok (Deviate (serializable None) entries mean (fmul variance entries)).

Definition Bag_ed (entries : float) (values : gmap key float) : result Container :=
  if fltb entries f0 then Raise ValueError
  else Ok (Bag (serializable None) entries values).

Definition Fraction_ed (entries : float) (numerator denominator : Container)
  : result Container :=
  if fltb entries f0 then Raise ValueError
  else Ok (Fraction (serializable None) entries numerator denominator).

Definition Select_ed (entries : float) (cut : Container) : result Container :=
  if fltb entries f0 then Raise ValueError
  else Ok (Select (serializable None) entries cut).

(** [Fraction.build]: the sum of the two children is computed, and thrown
    away, to check that they are compatible. *)
Definition Fraction_build (numerator denominator : Container) : result Container :=
  _ ← add numerator denominator;
  Fraction_ed (entries denominator) numerator denominator.

(** ** Where [zero] is an identity

    The states of Deviate for which [P + P.zero()] is [P]: finite entries,
    and either finite moments with [entries != 0] or [mean == 0], or the
    moments [fill] leaves after a non-finite input (a non-finite mean, NaN
    for varianceTimesEntries) with [entries != 0]. *)
Definition Deviate_regular (e m s : float) : bool :=
  isfinite e
  && ((isfinite m && isfinite s && (negb (feqb e f0) || feqb m f0))
      || (negb (isfinite m) && isnan s && negb (feqb e f0))).

(** Trees of Bag, Deviate and Select whose Deviates are regular. *)
Fixpoint regular (c : Container) : bool :=
  match c with
  | Bag _ _ _ => true
  | Deviate _ e m s => Deviate_regular e m s
  | Fraction _ _ _ _ => false
  | Select _ _ cut => regular cut
  end.

(** The tolerance of the test suite, [1e-12]. *)
Definition tolerance : float := frac 1 1000000000000.

(** ** The wire format

    A document is a Python value: a [dict] with string keys is [VDict], the
    list of its items.  The helpers of [histogrammar.util] and the registry
    of [histogrammar.defs] are not among the sources. *)

(** [json[k]] and [json.get(k, None)] *)
Definition get (d : list (string * value)) (k : string) : option value :=
  snd <$> List.find (fun p => String.eqb p.1 k) d.

Definition keys (d : list (string * value)) : list string := fst <$> d.

Definition mem (k : string) (l : list string) : bool :=
  existsb (String.eqb k) l.

(** Modelled from the spec: [hasKeys]: every required key is there, and
    every key that is there is required or optional. *)
Definition hasKeys (test required optional : list string) : bool :=
  forallb (fun k => mem k test) required
  && forallb (fun k => mem k (required ++ optional)) test.

(** Modelled from the spec: [maybeAdd] adds the optional entries that are
    not [None]. *)
Definition maybeAdd (json : list (string * value))
           (extra : list (string * option string)) : value :=
  VDict (json ++ omap (fun p => (fun s => (p.1, VStr s)) <$> p.2) extra).

(** Modelled from the spec: [floatToJson]: a bare number, except NaN and
    the infinities, which are the strings "nan", "inf" and "-inf". *)
Definition floatToJson (x : float) : value :=
  match x with
  | Finite _ => VNum x
  | NaN => VStr "nan"
  | PInf => VStr "inf"
  | NInf => VStr "-inf"
  end.

(** Modelled from the spec: [rangeToJson]: a number, a string, or a list
    of numbers. *)
Definition rangeToJson (k : key) : value :=
  match k with
  | KNum x => floatToJson x
  | KStr s => VStr s
  | KTup l => VList (floatToJson <$> l)
  end.

(** [x in ("nan", "inf", "-inf") or isinstance(x, numbers.Real)], and
    then [float(x)]. *)
Definition number_or_sentinel (v : value) : bool :=
  match v with
  | VStr s => String.eqb s "nan" || String.eqb s "inf" || String.eqb s "-inf"
  | VBool _ | VNum _ => true
  | _ => false
  end.

Definition python_float (v : value) : result float :=
  match floatOrNan v with
  | Some x => Ok x
  | None => Raise ValueError
  end.

(** The optional string under [k]: [json.get(k, None)] is a string, or is
    [None], or the document is malformed. *)
Definition optional_string (d : list (string * value)) (k : string)
  : result (option string) :=
  match get d k with
  | Some (VStr s) => Ok (Some s)
  | None | Some VNone => Ok None
  | Some _ => Raise JsonFormatException
  end.

(** [out.quantity.name = nameFromParent if name is None else name] *)
Definition with_name (out : Container) (name nameFromParent : option string)
  : Container :=
  let n := match name with None => nameFromParent | Some _ => name end in
  match out with
  | Bag q e v => Bag (set_name q n) e v
  | Deviate q e m s => Deviate (set_name q n) e m s
  | Fraction q e a b => Fraction (set_name q n) e a b
  | Select q e c => Select (set_name q n) e c
  end.

(** Modelled from the spec: the registry [Factory.registered], filled by the
    [Factory.register] calls of the four modules. *)
Definition registered (tag : string) : bool :=
  mem tag ["Bag"; "Deviate"; "Fraction"; "Select"].

(** *** Serialization ([toJsonFragment]) *)

(** The list of items [Bag.toJsonFragment] writes: sorted, the key "nan"
    last. *)
Definition Bag_aslist (values : gmap key float) : list (key * float) :=
  sorted_items values
  ++ match values !! KStr "nan" with
     | Some n => [(KStr "nan", n)]
     | None => []
     end.

Definition item_json (vn : key * float) : value :=
  VDict [("w", floatToJson vn.2); ("v", rangeToJson vn.1)].

Fixpoint toJsonFragment (c : Container) (suppressName : bool) : value :=
  match c with
  | Bag q e values =>
      maybeAdd [("entries", floatToJson e);
                ("values", VList (item_json <$> Bag_aslist values))]
               [("name", if suppressName then None else name q)]
  | Deviate q e m s =>
      maybeAdd [("entries", floatToJson e);
                ("mean", floatToJson m);
                ("variance", floatToJson (variance e s))]
               [("name", if suppressName then None else name q)]
  | Fraction q e numerator denominator =>
      maybeAdd [("entries", floatToJson e);
                ("type", VStr (factory_name numerator));
                ("numerator", toJsonFragment numerator true);
                ("denominator", toJsonFragment denominator true)]
               [("name", if suppressName then None else name q);
                ("sub:name", name (quantity numerator))]
  | Select q e cut =>
      maybeAdd [("entries", floatToJson e);
                ("type", VStr (factory_name cut));
                ("data", toJsonFragment cut false)]
               [("name", if suppressName then None else name q)]
  end.

(** *** Deserialization ([fromJsonFragment]) *)

Definition required (d : list (string * value)) (k : string) : result value :=
  match get d k with
  | Some v => Ok v
  | None => Raise KeyError
  end.

(** A field that is a number or one of the three sentinels. *)
Definition float_field (d : list (string * value)) (k : string) : result float :=
  v ← required d k;
  if number_or_sentinel v then python_float v else Raise JsonFormatException.

(** A field that is an [int], a [long] or a [float]. *)
Definition real_field (d : list (string * value)) (k : string) : result float :=
  v ← required d k;
  match as_real v with
  | Some x => Ok x
  | None => Raise JsonFormatException
  end.

Definition Deviate_fromJsonFragment (json : value) (nameFromParent : option string)
  : result Container :=
  match json with
  | VDict d =>
      if hasKeys (keys d) ["entries"; "mean"; "variance"] ["name"] then
        entries ← float_field d "entries";
        name ← optional_string d "name";
        mean ← float_field d "mean";
        variance ← float_field d "variance";
        out ← Deviate_ed entries mean variance;
        Ok (with_name out name nameFromParent)
      else Raise JsonFormatException
  | _ => Raise JsonFormatException
  end.

(** The key of one item of a Bag document. *)
Definition Bag_json_key (v : value) : result key :=
  if number_or_sentinel v then KNum <$> python_float v
  else match v with
       | VStr s => Ok (KStr s)
       | VList l =>
           if forallb number_or_sentinel l
           then match mapM floatOrNan l with
                | Some t => Ok (KTup t)
                | None => Raise ValueError
                end
           else Raise JsonFormatException
       | _ => Raise JsonFormatException
       end.

Definition Bag_json_item (nv : value) : result (key * float) :=
  match nv with
  | VDict d =>
      if hasKeys (keys d) ["w"; "v"] [] then
        n ← float_field d "w";
        jv ← required d "v";
        v ← Bag_json_key jv;
        Ok (v, n)
      else Raise JsonFormatException
  | _ => Raise JsonFormatException
  end.

(** The loop over [json["values"]]: [values[v] = n] for each item. *)
Fixpoint Bag_json_values (l : list value) (values : gmap key float)
  : result (gmap key float) :=
  match l with
  | [] => Ok values
  | nv :: rest =>
      vn ← Bag_json_item nv;
      Bag_json_values rest (<[vn.1 := vn.2]> values)
  end.

Definition Bag_fromJsonFragment (json : value) (nameFromParent : option string)
  : result Container :=
  match json with
  | VDict d =>
      if hasKeys (keys d) ["entries"; "values"] ["name"] then
        jentries ← required d "entries";
        _ ← (if number_or_sentinel jentries then Ok tt
             else Raise JsonFormatException);
        name ← optional_string d "name";
        jvalues ← required d "values";
        values ← match jvalues with
                 | VNone => Raise AttributeError
                 | VList l => Bag_json_values l ∅
                 | _ => Raise JsonFormatException
                 end;
        entries ← python_float jentries;
        out ← Bag_ed entries values;
        Ok (with_name out name nameFromParent)
      else Raise JsonFormatException
  | _ => Raise JsonFormatException
  end.

(** [json["type"]] names the factory of the children. *)
Definition factory_field (d : list (string * value)) : result string :=
  v ← required d "type";
  match v with
  | VStr tag => if registered tag then Ok tag else Raise KeyError
  | _ => Raise JsonFormatException
  end.

Section Children.

(** What [factory.fromJsonFragment] gives on the document under a key,
    for the factory named by a tag. *)
Variable sub : list (string * (string -> option string -> result Container)).

Definition child (k : string) (tag : string) (nameFromParent : option string)
  : result Container :=
  match List.find (fun p => String.eqb p.1 k) sub with
  | Some p => p.2 tag nameFromParent
  | None => Raise KeyError
  end.

Definition Fraction_fromJsonFragment (d : list (string * value))
           (nameFromParent : option string) : result Container :=
  if hasKeys (keys d) ["entries"; "type"; "numerator"; "denominator"]
             ["name"; "sub:name"] then
    entries ← real_field d "entries";
    name ← optional_string d "name";
    factory ← factory_field d;
    subName ← optional_string d "sub:name";
    numerator ← child "numerator" factory subName;
    denominator ← child "denominator" factory subName;
    out ← Fraction_ed entries numerator denominator;
    Ok (with_name out name nameFromParent)
  else Raise JsonFormatException.

Definition Select_fromJsonFragment (d : list (string * value))
           (nameFromParent : option string) : result Container :=
  if hasKeys (keys d) ["entries"; "type"; "data"] ["name"] then
    entries ← real_field d "entries";
    name ← optional_string d "name";
    factory ← factory_field d;
    cut ← child "data" factory None;
    out ← Select_ed entries cut;
    Ok (with_name out name nameFromParent)
  else Raise JsonFormatException.

End Children.

(** [Factory.registered[tag].fromJsonFragment(json, nameFromParent)] *)
Fixpoint fromJsonFragment (json : value) (tag : string)
         (nameFromParent : option string) {struct json} : result Container :=
  if String.eqb tag "Bag" then Bag_fromJsonFragment json nameFromParent
  else if String.eqb tag "Deviate" then Deviate_fromJsonFragment json nameFromParent
  else
    match json with
    | VDict d =>
        let sub := map (fun p => match p with
                                 | (k, v) => (k, fromJsonFragment v)
                                 end) d in
        if String.eqb tag "Fraction" then
          Fraction_fromJsonFragment sub d nameFromParent
        else if String.eqb tag "Select" then
          Select_fromJsonFragment sub d nameFromParent
        else Raise KeyError
    | _ => if registered tag then Raise JsonFormatException else Raise KeyError
    end.

(** Modelled from the spec: the top-level document of [Container.toJson]
    and [Factory.fromJson] wraps a fragment as [{"type": name, "data":
    fragment}] ([histogrammar.defs] is not among the sources; the
    ["version"] entry is left out). *)
Definition toJson (c : Container) : value :=
  VDict [("type", VStr (factory_name c)); ("data", toJsonFragment c false)].

Definition fromJson (json : value) : result Container :=
  match json with
  | VDict d =>
      factory ← factory_field d;
      data ← required d "data";
      fromJsonFragment data factory None
  | _ => Raise JsonFormatException
  end.

(** ** States the wire form gives back

    [wire_normal c]: [c] is past tense, no [entries] is negative, and
    - the keys of a Bag are not the strings "nan", "inf", "-inf" (the wire
      form reads them back as numbers);
    - the varianceTimesEntries of a Deviate is its variance times its
      entries (the wire form carries the variance);
    - the entries of a Fraction or a Select are finite (their readers
      take a bare number only), and the two children of a Fraction are of
      one kind and carry one quantity name (the wire form carries one
      ["type"] and one ["sub:name"] for both). *)

Definition sentinel (s : string) : bool :=
  String.eqb s "nan" || String.eqb s "inf" || String.eqb s "-inf".

Definition key_ok (k : key) : bool :=
  match k with
  | KStr s => negb (sentinel s)
  | _ => true
  end.

Fixpoint wire_normal (c : Container) : bool :=
  bool_decide (expr (quantity c) = None)
  && negb (fltb (entries c) f0)
  && match c with
     | Bag _ _ values => forallb (fun kv => key_ok kv.1) (map_to_list values)
     | Deviate _ e _ s => bool_decide (fmul (variance e s) e = s)
     | Fraction _ e n d =>
         isfinite e
         && bool_decide (factory_name d = factory_name n)
         && bool_decide (name (quantity d) = name (quantity n))
         && wire_normal n && wire_normal d
     | Select _ e cut => isfinite e && wire_normal cut
     end.

(** A Fraction document whose two children are Selects, of a Deviate and
    of a Bag. *)
Definition mismatched_Fraction : value :=
  VDict [("entries", VNum f1);
         ("type", VStr "Select");
         ("numerator",
          VDict [("entries", VNum f1);
                 ("type", VStr "Deviate");
                 ("data", VDict [("entries", VNum f1);
                                 ("mean", VNum f1);
                                 ("variance", VNum f0)])]);
         ("denominator",
          VDict [("entries", VNum f1);
                 ("type", VStr "Bag");
                 ("data", VDict [("entries", VNum f1);
                                 ("values", VList [])])])].

(** ** More of the aggregator algebra

    What follows is used by the properties proved beyond the ones above. *)

(** The total weight a Bag holds: the sum of [values.values()]. *)
Definition Bag_mass (values : gmap key float) : float :=
  map_fold (fun _ n acc => fadd n acc) f0 values.

(** Every Bag of a tree holds what its [entries] says. *)
Fixpoint mass_ok (c : Container) : Prop :=
  match c with
  | Bag _ e values => Bag_mass values = e
  | Deviate _ _ _ _ => True
  | Fraction _ _ n d => mass_ok n /\ mass_ok d
  | Select _ _ cut => mass_ok cut
  end.

(** [reached fcns c]: [c] is reached from a zero state by fills that do
    not raise, with any data and weights, and by combines. *)
Inductive reached (fcns : nat -> value -> value) : Container -> Prop :=
| reached_zero c :
    reached fcns (zero c)
| reached_fill c datum weight c' :
    reached fcns c ->
    fill fcns c datum weight = (c', None) ->
    reached fcns c'
| reached_add a b c :
    reached fcns a -> reached fcns b -> add a b = Ok c ->
    reached fcns c.

(** A key that holds no NaN.  Python finds a key of a dict by identity
    first and by [==] next, and NaN is not [==] to itself: whether two NaN
    keys are one key depends on the objects.  What is said of the value
    under a key is said of the keys without NaN. *)
Definition nan_free (k : key) : bool :=
  match k with
  | KNum x => negb (isnan x)
  | KStr _ => true
  | KTup l => forallb (fun x => negb (isnan x)) l
  end.

(** The tests [isinstance(other, Bag)], ... of the four [__add__], down the
    two trees: the same primitives at the same places, whatever their
    quantities and contents. *)
Fixpoint same_kind (a b : Container) : bool :=
  match a, b with
  | Bag _ _ _, Bag _ _ _ => true
  | Deviate _ _ _ _, Deviate _ _ _ _ => true
  | Fraction _ _ n d, Fraction _ _ n' d' => same_kind n n' && same_kind d d'
  | Select _ _ c, Select _ _ c' => same_kind c c'
  | _, _ => false
  end.

(** Every Deviate of a tree has finite moments and positive entries. *)
Fixpoint Deviate_positive (c : Container) : Prop :=
  match c with
  | Bag _ _ _ => True
  | Deviate _ e m s =>
      exists e' m' s', e = Finite e' /\ m = Finite m' /\ s = Finite s' /\ 0 < e'
  | Fraction _ _ n d => Deviate_positive n /\ Deviate_positive d
  | Select _ _ cut => Deviate_positive cut
  end.

(** ** Deviate: filling a finite state

    [fill_meanQ] and [fill_vteQ] are the [mean] and the
    [varianceTimesEntries] the finite branch of [Deviate.fill] leaves, on
    rationals (see [Deviate_fill_finite]). *)

Definition fill_meanQ (e m x w : Qc) : Qc := m + (x - m) * w / (e + w).

Definition fill_vteQ (e m s x w : Qc) : Qc :=
  s + w * (x - m) * (x - fill_meanQ e m x w).

(** The sums of the weights [w], of [w * x] and of [w * x * x] over a
    stream of pairs [(x, w)]. *)
Definition sum_w (data : list (Qc * Qc)) : Qc :=
  foldr (fun p acc => p.2 + acc) 0 data.

Definition sum_wx (data : list (Qc * Qc)) : Qc :=
  foldr (fun p acc => p.2 * p.1 + acc) 0 data.

Definition sum_wxx (data : list (Qc * Qc)) : Qc :=
  foldr (fun p acc => p.2 * p.1 * p.1 + acc) 0 data.

(** The stream of [fill] arguments of a stream of pairs. *)
Definition numbers (data : list (Qc * Qc)) : list (value * float) :=
  (fun p => (VNum (Finite p.1), Finite p.2)) <$> data.

(** What the extractor of [c] returns on [datum], if a number, is finite. *)
Definition finite_quantity (fcns : nat -> value -> value) (c : Container)
           (datum : value) : Prop :=
  forall v x, call fcns (quantity c) datum = Ok v -> as_real v = Some x ->
              isfinite x = true.

(** [Deviate_filled fcns c]: [c] is a Deviate reached from a zero state by
    fills with finite weights and finite quantities that do not raise, and
    by combines. *)
Inductive Deviate_filled (fcns : nat -> value -> value) : Container -> Prop :=
| Deviate_filled_zero q e m s :
    Deviate_filled fcns (zero (Deviate q e m s))
| Deviate_filled_fill c datum weight c' :
    Deviate_filled fcns c -> finite_quantity fcns c datum ->
    fill fcns c datum (Finite weight) = (c', None) ->
    Deviate_filled fcns c'
| Deviate_filled_add a b c :
    Deviate_filled fcns a -> Deviate_filled fcns b -> add a b = Ok c ->
    Deviate_filled fcns c.

(** No Deviate of the tree has negative entries. *)
Fixpoint nonneg_entries (c : Container) : Prop :=
  match c with
  | Bag _ _ _ => True
  | Deviate _ e _ _ => fltb e f0 = false
  | Fraction _ _ n d => nonneg_entries n /\ nonneg_entries d
  | Select _ _ cut => nonneg_entries cut
  end.

(** ** The states of a Fraction

    [Fraction_reached fcns c]: [c] is a Fraction reached from a constructed
    one by fills with finite weights [>= 0] that do not raise, at which the
    selector returns nothing greater than 1, and by combines. *)

Inductive Fraction_reached (fcns : nat -> value -> value) : Container -> Prop :=
| Fraction_reached_init q value :
    Fraction_reached fcns (Fraction_init q value)
| Fraction_reached_fill c datum weight v w0 c' :
    Fraction_reached fcns c ->
    0 <= weight ->
    call fcns (quantity c) datum = Ok v -> as_real v = Some w0 ->
    fgtb w0 f1 = false ->
    fill fcns c datum (Finite weight) = (c', None) ->
    Fraction_reached fcns c'
| Fraction_reached_add a b c :
    Fraction_reached fcns a -> Fraction_reached fcns b -> add a b = Ok c ->
    Fraction_reached fcns c.

(** The invariant behind [numerator.entries <= denominator.entries]: the
    two children have one shape and finite entries, and
    [0 <= numerator.entries <= denominator.entries]. *)
Definition Fraction_inv (c : Container) : Prop :=
  exists q e n d b x,
    c = Fraction q e n d /\ same_shape n d
    /\ entries n = Finite b /\ entries d = Finite x /\ 0 <= b /\ b <= x.

(** ** What the readers return *)

(** [every P c]: [P] holds of every node of the tree [c]. *)
Fixpoint every (P : Container -> Prop) (c : Container) : Prop :=
  P c /\ match c with
         | Bag _ _ _ | Deviate _ _ _ _ => True
         | Fraction _ _ n d => every P n /\ every P d
         | Select _ _ cut => every P cut
         end.

(** A node as [ed] leaves it: no extractor, and entries that passed the
    test [entries < 0.0]. *)
Definition as_read (c : Container) : Prop :=
  expr (quantity c) = None /\ fltb (entries c) f0 = false.

(** The setter of [Deviate.variance]: the [varianceTimesEntries] it
    leaves, [value * self.entries]. *)
Definition variance_setter (entries value : float) : float :=
  fmul value entries.

(** Trees of Bags and Selects. *)
Fixpoint counting (c : Container) : Prop :=
  match c with
  | Bag _ _ _ => True
  | Select _ _ cut => counting cut
  | _ => False
  end.

(** The weights a Bag of quantity [q] takes under the key [k] from a
    stream: those of the data with a positive weight whose quantity is
    [k], in the order of the stream. *)
Definition Bag_weights (fcns : nat -> value -> value) (q : UserFcn) (k : key)
           (data : list (value * float)) : list float :=
  omap (fun dw : value * float =>
          if fgtb dw.2 f0 then
            match call fcns q dw.1 with
            | Ok v => if decide (Bag_key v = Some k) then Some dw.2 else None
            | Raise _ => None
            end
          else None) data.

(** ** Doubles: rounding

    The operations of a Python [float] are those of IEEE-754 binary64: the
    exact result, rounded to the nearest double, ties to the even one.
    [binary64] is that rounding on the numbers of this file (signed zeros
    apart): a double is [m * 2^t] with [|m| < 2^53] and
    [-1074 <= t <= 971]; a result of magnitude [2^1024] or more after
    rounding is an infinity, and one under [2^-1075] is zero. *)

(** [n / d] rounded to the nearest integer, ties to even ([d > 0]). *)
Definition round_even (n d : Z) : Z :=
  let q := (n / d)%Z in
  let r := (n mod d)%Z in
  if (2 * r <? d)%Z then q
  else if (d <? 2 * r)%Z then (q + 1)%Z
  else if Z.even q then q else (q + 1)%Z.

(** The double nearest to [n / d], for [n > 0]: [e] is the exponent of
    [n / d] ([2^e <= n / d < 2^(e+1)]) and [2^t] the spacing of the doubles
    there. *)
Definition binary64_pos (n : Z) (d : positive) : float :=
  let e0 := (Z.log2 n - Z.log2 (Zpos d))%Z in
  let e := if (0 <=? e0)%Z
           then (if (Zpos d * 2 ^ e0 <=? n)%Z then e0 else e0 - 1)%Z
           else (if (Zpos d <=? n * 2 ^ (- e0))%Z then e0 else e0 - 1)%Z in
  let t := Z.max (e - 52) (-1074) in
  if (0 <=? t)%Z then
    let m := round_even n (Zpos d * 2 ^ t) in
    if (2 ^ 1024 <=? m * 2 ^ t)%Z then PInf
    else Finite (Q2Qc (inject_Z (m * 2 ^ t)))
  else
    let m := round_even (n * 2 ^ (- t)) (Zpos d) in
    Finite (Q2Qc (m # Z.to_pos (2 ^ (- t)))).

Definition binary64 (x : float) : float :=
  match x with
  | Finite q =>
      match Qnum q with
      | Z0 => Finite 0
      | Zpos n => binary64_pos (Zpos n) (Qden q)
      | Zneg n => fopp (binary64_pos (Zpos n) (Qden q))
      end
  | _ => x
  end.

(** ** Filling and combining, with every operation rounded

    [fill_r rnd] and [add_r rnd] are [fill] and [add] with the result of
    every [+], [-], [*] and [/] passed through [rnd], in the order Python
    evaluates them: with [rnd := binary64] they are the arithmetic of the
    source, with the identity they are [fill] and [add] (see
    [fill_r_exact] and [add_r_exact]).  The data, the weights and the
    fields they start from are taken to be doubles already. *)

Section Rounded.

Variable rnd : float -> float.
Variable fcns : nat -> value -> value.

Definition fadd_r (x y : float) : float := rnd (fadd x y).
Definition fsub_r (x y : float) : float := rnd (fsub x y).
Definition fmul_r (x y : float) : float := rnd (fmul x y).
Definition fdiv_r (x y : float) : float := rnd (fdiv x y).

Definition values_update_r (values : gmap key float) (q : key) (weight : float)
  : gmap key float :=
  match values !! q with
  | Some n => <[q := fadd_r n weight]> values
  | None => <[q := weight]> values
  end.

Definition Bag_fill_r (q : UserFcn) (e : float) (values : gmap key float)
           (datum : value) (weight : float) : Container * option exn :=
  if fgtb weight f0 then
    match call fcns q datum with
    | Raise err => (Bag q e values, Some err)
    | Ok v =>
        match Bag_key v with
        | None => (Bag q e values, Some TypeError)
        | Some k =>
            (Bag q (fadd_r e weight) (values_update_r values k weight), None)
        end
    end
  else (Bag q e values, None).

Definition Deviate_fill_r (q : UserFcn) (e mean vte : float)
           (datum : value) (weight : float) : Container * option exn :=
  if fgtb weight f0 then
    match call fcns q datum with
    | Raise err => (Deviate q e mean vte, Some err)
    | Ok v =>
        match as_real v with
        | None => (Deviate q e mean vte, Some TypeError)
        | Some x =>
            let e' := fadd_r e weight in
            if isnan mean || isnan x then
              (Deviate q e' NaN NaN, None)
            else if isinf mean || isinf x then
              let mean1 :=
                if isinf mean && isinf x && fltb (fmul_r mean x) f0 then NaN
                else if isinf x then x
                else mean in
              let mean2 := if isinf e' || isnan e' then NaN else mean1 in
              (Deviate q e' mean2 NaN, None)
            else if feqb e' f0 then
              (Deviate q e' mean vte, Some ZeroDivisionError)
            else
              let delta := fsub_r x mean in
              let shift := fdiv_r (fmul_r delta weight) e' in
              let mean' := fadd_r mean shift in
              (Deviate q e' mean'
                 (fadd_r vte (fmul_r (fmul_r weight delta) (fsub_r x mean'))),
               None)
        end
    end
  else (Deviate q e mean vte, None).

Fixpoint fill_r (self : Container) (datum : value) (weight : float)
  : Container * option exn :=
  match self with
  | Bag q e values => Bag_fill_r q e values datum weight
  | Deviate q e mean vte => Deviate_fill_r q e mean vte datum weight
  | Fraction q e numerator denominator =>
      match call fcns q datum with
      | Raise err => (self, Some err)
      | Ok v =>
          match as_real v with
          | None => (self, Some TypeError)
          | Some w0 =>
              let w := fmul_r w0 weight in
              let '(den, r1) :=
                if fgtb weight f0 then fill_r denominator datum weight
                else (denominator, None) in
              match r1 with
              | Some err => (Fraction q e numerator den, Some err)
              | None =>
                  let '(num, r2) :=
                    if fgtb w f0 then fill_r numerator datum w
                    else (numerator, None) in
                  match r2 with
                  | Some err => (Fraction q e num den, Some err)
                  | None => (Fraction q (fadd_r e weight) num den, None)
                  end
              end
          end
      end
  | Select q e cut =>
      match call fcns q datum with
      | Raise err => (self, Some err)
      | Ok v =>
          match as_real v with
          | None => (self, Some TypeError)
          | Some w0 =>
              let w := fmul_r w0 weight in
              let '(cut', r) :=
                if fgtb w f0 then fill_r cut datum w else (cut, None) in
              match r with
              | Some err => (Select q e cut', Some err)
              | None => (Select q (fadd_r e weight) cut', None)
              end
          end
      end
  end.

(** [self + other], with every operation rounded. *)
Definition Deviate_add_mean_r (ca ma cb mb : float) : float :=
  if feqb (fadd_r ca cb) f0
  then fdiv_r (fadd_r ma mb) f2
  else fdiv_r (fadd_r (fmul_r ca ma) (fmul_r cb mb)) (fadd_r ca cb).

Definition Deviate_add_vte_r (ca ma sa cb mb sb : float) : float :=
  let mean := Deviate_add_mean_r ca ma cb mb in
  fadd_r
    (fsub_r
       (fadd_r (fadd_r (fadd_r sa sb) (fmul_r (fmul_r ca ma) ma))
               (fmul_r (fmul_r cb mb) mb))
       (fmul_r (fmul_r f2 mean) (fadd_r (fmul_r ca ma) (fmul_r cb mb))))
    (fmul_r (fmul_r mean mean) (fadd_r ca cb)).

Definition Bag_add_values_r (mine other : gmap key float) : gmap key float :=
  map_fold (fun value count out => values_update_r out value count) mine other.

Fixpoint add_r (self other : Container) : result Container :=
  match self, other with
  | Bag q e v, Bag _ e' v' =>
      Ok (Bag (serializable (Some q)) (fadd_r e e') (Bag_add_values_r v v'))
  | Deviate q ca ma sa, Deviate _ cb mb sb =>
      Ok (Deviate (serializable (Some q)) (fadd_r ca cb)
            (Deviate_add_mean_r ca ma cb mb)
            (Deviate_add_vte_r ca ma sa cb mb sb))
  | Fraction q _ n d, Fraction _ _ n' d' =>
      num ← add_r n n';
      den ← add_r d d';
      Ok (Fraction (serializable (Some q)) f0 num den)
  | Select q e c, Select _ e' c' =>
      cut ← add_r c c';
      Ok (Select (serializable (Some q)) (fadd_r e e') cut)
  | _, _ => Raise ContainerException
  end.

End Rounded.

(** The powers of two [2^600] and [2^-600], both doubles. *)
Definition two_600 : float := Finite (Q2Qc (inject_Z (2 ^ 600))).
Definition two_m600 : float := Finite (Q2Qc (1 # 2 ^ 600)).

(** The callables of the example of a product that underflows:
    [3] is [lambda x: 2.0**600], [4] is [lambda x: 2.0**-600], the others
    are those of [sample_fcns]. *)
Definition underflow_fcns (f : nat) (datum : value) : value :=
  match f with
  | 3%nat => VNum two_600
  | 4%nat => VNum two_m600
  | _ => sample_fcns f datum
  end.

Definition returns_2_600 : UserFcn := mkUserFcn (Some 3%nat) None.
Definition returns_2_m600 : UserFcn := mkUserFcn (Some 4%nat) None.
(** ** Doubles: the primitive floats

    Rocq's primitive floats are binary64 too; [of_prim] reads one as a
    number of this file.  They are used to check [binary64] only. *)
Definition of_prim (x : PrimFloat.float) : float :=
  match FloatOps.Prim2SF x with
  | SpecFloat.S754_zero _ => Finite 0
  | SpecFloat.S754_infinity false => PInf
  | SpecFloat.S754_infinity true => NInf
  | SpecFloat.S754_nan => NaN
  | SpecFloat.S754_finite s m e =>
      let v := if (0 <=? e)%Z then Q2Qc (inject_Z (Zpos m * 2 ^ e))
               else Q2Qc (Zpos m # Z.to_pos (2 ^ (- e))) in
      Finite (if s then - v else v)
  end.

(** [n * 2^k] as a primitive float, for a small [n]. *)
Definition prim (n k : Z) : PrimFloat.float :=
  PrimFloat.ldshiftexp (PrimFloat.of_uint63 (Uint63Axioms.of_Z n))
                       (Uint63Axioms.of_Z (k + FloatOps.shift)).

(** * Theorems *)

(** ** Arithmetic *)

Lemma Qcltb_spec x y : Qcltb x y = true <-> x < y.
Proof.
  unfold Qcltb. pose proof (Qclt_alt x y) as H.
  destruct (x ?= y); split; intros Hxy;
    solve [reflexivity | discriminate Hxy | now apply H
          | apply H in Hxy; discriminate Hxy].
Qed.

Lemma Qceqb_spec x y : Qceqb x y = true <-> x = y.
Proof.
  unfold Qceqb. pose proof (Qceq_alt x y) as H.
  destruct (x ?= y); split; intros Hxy;
    solve [reflexivity | discriminate Hxy | now apply H
          | apply H in Hxy; discriminate Hxy].
Qed.

Lemma Qceqb_refl x : Qceqb x x = true.
Proof. now apply Qceqb_spec. Qed.

Lemma Qceqb_neq x y : x <> y -> Qceqb x y = false.
Proof.
  intros H. destruct (Qceqb x y) eqn:E; [|reflexivity].
  apply Qceqb_spec in E. contradiction.
Qed.

Lemma Qcltb_irrefl x : Qcltb x x = false.
Proof.
  destruct (Qcltb x x) eqn:E; [|reflexivity].
  apply Qcltb_spec in E. now apply Qclt_not_eq in E.
Qed.

Lemma Qc_sum_zero (a b : Qc) : 0 <= a -> 0 <= b -> a + b = 0 -> a = 0 /\ b = 0.
Proof.
  intros Ha Hb H.
  assert (a = - b) as -> by (rewrite <- (Qcplus_0_l (- b)), <- H; ring).
  assert (b = 0) as ->.
  { apply Qcle_antisym; [|exact Hb].
    apply Qcopp_le_compat in Ha. rewrite Qcopp_involutive in Ha. exact Ha. }
  split; reflexivity.
Qed.

Lemma Qc_two : Q2Qc 2 = 1 + 1.
Proof. apply Qc_is_canon. reflexivity. Qed.

Lemma feqb_refl x : isnan x = false -> feqb x x = true.
Proof. destruct x; cbn; try congruence. intros _. apply Qceqb_refl. Qed.

Lemma feqb_false_neq x y : feqb x y = false -> isnan x = false -> x <> y.
Proof. intros H Hn <-. rewrite feqb_refl in H; congruence. Qed.

(** Closes [x <> y] on two concrete floats, the first of them not NaN. *)
Ltac float_neq := apply feqb_false_neq; vm_compute; reflexivity.

(** ** The examples of the specification *)

(** [Deviate(x -> x)] on [1, 2, 3, 4], weights 1: mean 2.5, entries 4
    (and variance 1.25). *)
Example Deviate_1234 :
  exists e m s,
    fill_all sample_fcns (Deviate_init (Some identity))
      [(VNum (num 1), f1); (VNum (num 2), f1);
       (VNum (num 3), f1); (VNum (num 4), f1)]
    = (Deviate identity e m s, None)
    /\ feqb e (num 4) = true /\ feqb m (frac 5 2) = true
    /\ feqb (variance e s) (frac 5 4) = true.
Proof.
  eexists _, _, _. split; [reflexivity|]. repeat split; vm_compute; reflexivity.
Qed.

(** [Deviate(x -> x)] on [1, NaN]: mean NaN, entries 2. *)
Example Deviate_1_NaN :
  fill_all sample_fcns (Deviate_init (Some identity))
    [(VNum (num 1), f1); (VNum NaN, f1)]
  = (Deviate identity (fadd (fadd f0 f1) f1) NaN NaN, None).
Proof. reflexivity. Qed.

(** Deviate combine of A filled with [1, 2] and B filled with [3, 4]:
    mean 2.5, variance 1.25, entries 4. *)
Example Deviate_12_plus_34 :
  let A := (fill_all sample_fcns (Deviate_init (Some identity))
              [(VNum (num 1), f1); (VNum (num 2), f1)]).1 in
  let B := (fill_all sample_fcns (Deviate_init (Some identity))
              [(VNum (num 3), f1); (VNum (num 4), f1)]).1 in
  exists e m s,
    add A B = Ok (Deviate identity e m s)
    /\ feqb e (num 4) = true /\ feqb m (frac 5 2) = true
    /\ feqb (variance e s) (frac 5 4) = true.
Proof.
  eexists _, _, _. split; [reflexivity|]. repeat split; vm_compute; reflexivity.
Qed.

(** [Bag(x -> x)] on ["a", "b", "a"]: values [{"a": 2, "b": 1}],
    entries 3. *)
Example Bag_aba :
  exists e values,
    fill_all sample_fcns (Bag_init (Some identity))
      [(VStr "a", f1); (VStr "b", f1); (VStr "a", f1)]
    = (Bag identity e values, None)
    /\ feqb e (num 3) = true
    /\ (values !! KStr "a" ≫= fun n => Some (feqb n (num 2))) = Some true
    /\ (values !! KStr "b" ≫= fun n => Some (feqb n (num 1))) = Some true
    /\ size values = 2%nat.
Proof.
  eexists _, _. split; [reflexivity|]. repeat split; vm_compute; reflexivity.
Qed.

(** [Select(x -> x, ...)] on [0, 2, 3], weights 1: entries 3 and
    [cut.entries] 5. *)
Example Select_023 :
  exists e cut,
    fill_all sample_fcns
      (Select_init (Some identity) (Bag_init (Some identity)))
      [(VNum (num 0), f1); (VNum (num 2), f1); (VNum (num 3), f1)]
    = (Select identity e cut, None)
    /\ feqb e (num 3) = true /\ feqb (entries cut) (num 5) = true.
Proof.
  eexists _, _. split; [reflexivity|]. repeat split; vm_compute; reflexivity.
Qed.

(** [Fraction(x -> x > 0, ...)] on [-1, 0, 1, 2]: numerator 2,
    denominator 4, entries 4. *)
Example Fraction_m1012 :
  exists e n d,
    fill_all sample_fcns
      (Fraction_init (Some is_positive) (Bag_init (Some identity)))
      [(VNum (num (-1)), f1); (VNum (num 0), f1);
       (VNum (num 1), f1); (VNum (num 2), f1)]
    = (Fraction is_positive e n d, None)
    /\ feqb e (num 4) = true
    /\ feqb (entries n) (num 2) = true /\ feqb (entries d) (num 4) = true.
Proof.
  eexists _, _, _. split; [reflexivity|]. repeat split; vm_compute; reflexivity.
Qed.

(** ** Deviate: combine *)

Lemma Deviate_add_mean_finite ca ma cb mb :
  Deviate_add_mean (Finite ca) (Finite ma) (Finite cb) (Finite mb)
  = Finite (meanQ ca ma cb mb).
Proof.
  unfold Deviate_add_mean, meanQ. cbn [fadd fmul feqb f0 f2 fdiv].
  destruct (Qceqb (ca + cb) 0) eqn:E; reflexivity.
Qed.

Lemma Deviate_add_vte_finite ca ma sa cb mb sb :
  Deviate_add_vte (Finite ca) (Finite ma) (Finite sa)
                  (Finite cb) (Finite mb) (Finite sb)
  = Finite (vteQ ca ma sa cb mb sb).
Proof.
  unfold Deviate_add_vte. rewrite Deviate_add_mean_finite. reflexivity.
Qed.

Lemma Deviate_finite_ext q e e' m m' s s' :
  e = e' -> m = m' -> s = s' ->
  Ok (Deviate q (Finite e) (Finite m) (Finite s))
  = Ok (Deviate q (Finite e') (Finite m') (Finite s')).
Proof. now intros -> -> ->. Qed.

(** C5, as amended.  On finite (rational) Deviate states with non-negative
    entries, [(A + B) + C] and [A + (B + C)] are the same state, field by
    field, whenever the entries of the three do not sum to zero. *)
Theorem Deviate_add_assoc (qa qb qc : UserFcn) (ca ma sa cb mb sb cc mc sc : Qc) :
  0 <= ca -> 0 <= cb -> 0 <= cc -> ca + cb + cc <> 0 ->
  let A := Deviate qa (Finite ca) (Finite ma) (Finite sa) in
  let B := Deviate qb (Finite cb) (Finite mb) (Finite sb) in
  let C := Deviate qc (Finite cc) (Finite mc) (Finite sc) in
  (add A B ≫= fun AB => add AB C) = (add B C ≫= fun BC => add A BC).
Proof.
  intros Ha Hb Hc Hne A B C. subst A B C.
  cbn [add mbind result_bind serializable].
  rewrite !Deviate_add_mean_finite, !Deviate_add_vte_finite.
  cbn [fadd]. rewrite !Deviate_add_mean_finite, !Deviate_add_vte_finite.
  assert (Hne' : ca + (cb + cc) <> 0) by (rewrite Qcplus_assoc; exact Hne).
  unfold vteQ, meanQ.
  rewrite (Qceqb_neq _ _ Hne), (Qceqb_neq _ _ Hne'), Qc_two.
  destruct (Qceqb (ca + cb) 0) eqn:E1; destruct (Qceqb (cb + cc) 0) eqn:E2.
  - apply Qceqb_spec, Qc_sum_zero in E1 as [-> ->]; [|assumption..].
    apply Qceqb_spec, Qc_sum_zero in E2 as [_ ->]; [|assumption..].
    exfalso. apply Hne. ring.
  - apply Qceqb_spec, Qc_sum_zero in E1 as [-> ->]; [|assumption..].
    assert (cc <> 0) by (intros ->; apply Hne; ring).
    apply Deviate_finite_ext; field; repeat split; auto; discriminate.
  - apply Qceqb_spec, Qc_sum_zero in E2 as [-> ->]; [|assumption..].
    assert (ca <> 0) by (intros ->; apply Hne; ring).
    apply Deviate_finite_ext; field; repeat split; auto; discriminate.
  - assert (ca + cb <> 0) by (intros H; apply Qceqb_spec in H; congruence).
    assert (cb + cc <> 0) by (intros H'; apply Qceqb_spec in H'; congruence).
    apply Deviate_finite_ext; field; repeat split; auto; discriminate.
Qed.

Lemma Deviate_add_assoc_witness :
  let A := Deviate identity (num 1) (num 1) (num 0) in
  let B := Deviate identity (num 0) (num 0) (num 0) in
  let C := Deviate identity (num 2) (num 5) (num 3) in
  (add A B ≫= fun AB => add AB C) = (add B C ≫= fun BC => add A BC).
Proof.
  apply (Deviate_add_assoc identity identity identity
           (Q2Qc 1) (Q2Qc 1) (Q2Qc 0) (Q2Qc 0) (Q2Qc 0) (Q2Qc 0)
           (Q2Qc 2) (Q2Qc 5) (Q2Qc 3));
    vm_compute; intros H; discriminate H.
Defined.

(** C5, as stated, fails when every state has [entries == 0]: the mean of
    such a sum is the plain average of the two means, and averaging is not
    associative.  Here [(A + B) + C] has mean 1 and [A + (B + C)] mean 2. *)
Lemma Deviate_add_assoc_counterexample :
  let A := Deviate identity (num 0) (num 4) (num 0) in
  let B := Deviate identity (num 0) (num 0) (num 0) in
  let C := Deviate identity (num 0) (num 0) (num 0) in
  (add A B ≫= fun AB => add AB C) = Ok (Deviate identity (num 0) (num 1) (num 0))
  /\ (add B C ≫= fun BC => add A BC) = Ok (Deviate identity (num 0) (num 2) (num 0))
  /\ (add A B ≫= fun AB => add AB C) <> (add B C ≫= fun BC => add A BC).
Proof.
  cbn zeta.
  assert (H1 : (add (Deviate identity (num 0) (num 4) (num 0))
                    (Deviate identity (num 0) (num 0) (num 0))
                ≫= fun AB => add AB (Deviate identity (num 0) (num 0) (num 0)))
               = Ok (Deviate identity (num 0) (num 1) (num 0))).
  { cbn [add mbind result_bind serializable]. unfold num.
    rewrite !Deviate_add_mean_finite, !Deviate_add_vte_finite.
    cbn [fadd]. rewrite !Deviate_add_mean_finite, !Deviate_add_vte_finite.
    apply Deviate_finite_ext; apply Qc_is_canon; reflexivity. }
  assert (H2 : (add (Deviate identity (num 0) (num 0) (num 0))
                    (Deviate identity (num 0) (num 0) (num 0))
                ≫= fun BC => add (Deviate identity (num 0) (num 4) (num 0)) BC)
               = Ok (Deviate identity (num 0) (num 2) (num 0))).
  { cbn [add mbind result_bind serializable]. unfold num.
    rewrite !Deviate_add_mean_finite, !Deviate_add_vte_finite.
    cbn [fadd]. rewrite !Deviate_add_mean_finite, !Deviate_add_vte_finite.
    apply Deviate_finite_ext; apply Qc_is_canon; reflexivity. }
  split; [exact H1|]. split; [exact H2|].
  rewrite H1, H2. intros H. discriminate H.
Qed.

(** Closes an equation between two concrete floats. *)
Ltac float_eq :=
  reflexivity || (apply (f_equal Finite); apply Qc_is_canon; reflexivity).

(** ** Fraction: combine *)

Lemma Fraction_add_entries q e n d q' e' n' d' out :
  add (Fraction q e n d) (Fraction q' e' n' d') = Ok out ->
  entries out = f0.
Proof.
  cbn [add]. destruct (add n n') as [num|]; [|discriminate].
  destruct (add d d') as [den|]; [|discriminate].
  cbn. intros [= <-]. reflexivity.
Qed.

(** C1 (the code does not do this).  [Fraction.__add__] never assigns
    [out.entries]: the sum of two Fractions has the [entries = 0.0] its
    constructor gave it.  Here two Fractions are each filled once with
    weight 1; their sum has entries 0, not 2, while its denominator has the
    expected 2. *)
Theorem Fraction_add_entries_not_summed :
  let h := Fraction_init (Some is_positive) (Deviate_init (Some identity)) in
  let A := (fill sample_fcns h (VNum (num 1)) f1).1 in
  let B := (fill sample_fcns h (VNum (num 3)) f1).1 in
  entries A = f1 /\ entries B = f1 /\
  exists out, add A B = Ok out
    /\ entries out = f0
    /\ entries out <> fadd (entries A) (entries B)
    /\ (exists n d, out = Fraction is_positive f0 n d /\ entries d = num 2).
Proof.
  cbn zeta. split; [float_eq|]. split; [float_eq|].
  eexists. split; [reflexivity|]. split; [reflexivity|].
  split; [float_neq|].
  eexists _, _. split; [reflexivity|]. float_eq.
Qed.

(** ** Select and Fraction: fill *)

Lemma fill_Select fcns q e cut datum weight v w0 :
  call fcns q datum = Ok v -> as_real v = Some w0 ->
  fill fcns (Select q e cut) datum weight =
    if fgtb (fmul w0 weight) f0 then
      match fill fcns cut datum (fmul w0 weight) with
      | (cut', None) => (Select q (fadd e weight) cut', None)
      | (cut', Some err) => (Select q e cut', Some err)
      end
    else (Select q (fadd e weight) cut, None).
Proof.
  intros Hc Hr. cbn [fill]. rewrite Hc, Hr.
  destruct (fgtb (fmul w0 weight) f0); [|reflexivity].
  destruct (fill fcns cut datum (fmul w0 weight)) as [cut' [err|]]; reflexivity.
Qed.

Lemma fill_Fraction fcns q e n d datum weight v w0 :
  call fcns q datum = Ok v -> as_real v = Some w0 ->
  fill fcns (Fraction q e n d) datum weight =
    let '(den, r1) := if fgtb weight f0 then fill fcns d datum weight
                      else (d, None) in
    match r1 with
    | Some err => (Fraction q e n den, Some err)
    | None =>
        let '(num, r2) := if fgtb (fmul w0 weight) f0
                          then fill fcns n datum (fmul w0 weight)
                          else (n, None) in
        match r2 with
        | Some err => (Fraction q e num den, Some err)
        | None => (Fraction q (fadd e weight) num den, None)
        end
    end.
Proof. intros Hc Hr. cbn [fill]. rewrite Hc, Hr. reflexivity. Qed.

(** C10.  When the selector returns a number [w0], [fill] of a Select or a
    Fraction adds [weight] to [entries] whatever [weight] is (zero, negative
    and NaN included), provided no child raises; the cut (numerator) is
    filled, with [w0 * weight], only when that product is [> 0.0], and the
    denominator, with [weight], only when [weight > 0.0].  So [entries] can
    decrease, and can become NaN, through [fill] alone. *)
Theorem fill_adds_weight_to_entries fcns q e datum weight v w0 :
  call fcns q datum = Ok v -> as_real v = Some w0 ->
  let w := fmul w0 weight in
  (* Select *)
  (forall cut, fgtb w f0 = false ->
     fill fcns (Select q e cut) datum weight
     = (Select q (fadd e weight) cut, None))
  /\ (forall cut cut', fgtb w f0 = true ->
        fill fcns cut datum w = (cut', None) ->
        fill fcns (Select q e cut) datum weight
        = (Select q (fadd e weight) cut', None))
  (* Fraction *)
  /\ (forall n d, fgtb weight f0 = false -> fgtb w f0 = false ->
        fill fcns (Fraction q e n d) datum weight
        = (Fraction q (fadd e weight) n d, None))
  /\ (forall n d n', fgtb weight f0 = false -> fgtb w f0 = true ->
        fill fcns n datum w = (n', None) ->
        fill fcns (Fraction q e n d) datum weight
        = (Fraction q (fadd e weight) n' d, None))
  /\ (forall n d d', fgtb weight f0 = true -> fgtb w f0 = false ->
        fill fcns d datum weight = (d', None) ->
        fill fcns (Fraction q e n d) datum weight
        = (Fraction q (fadd e weight) n d', None))
  /\ (forall n d n' d', fgtb weight f0 = true -> fgtb w f0 = true ->
        fill fcns d datum weight = (d', None) ->
        fill fcns n datum w = (n', None) ->
        fill fcns (Fraction q e n d) datum weight
        = (Fraction q (fadd e weight) n' d', None))
  (* entries decreasing, entries becoming NaN *)
  /\ (let s := Select identity f1 (Deviate_init (Some identity)) in
      (fill sample_fcns s (VNum f1) (num (-2))).1
        = Select identity (num (-1)) (Deviate_init (Some identity))
      /\ (fill sample_fcns s (VNum f1) NaN).1
        = Select identity NaN (Deviate_init (Some identity)))
  /\ (let h := Fraction_init (Some is_positive) (Deviate_init (Some identity)) in
      (fill sample_fcns h (VNum f1) (num (-2))).1
        = Fraction is_positive (num (-2)) (Deviate_init (Some identity))
                   (Deviate_init (Some identity))
      /\ (fill sample_fcns h (VNum f1) NaN).1
        = Fraction is_positive NaN (Deviate_init (Some identity))
                   (Deviate_init (Some identity))).
Proof.
  intros Hc Hr w. subst w.
  repeat split; intros; cbn zeta;
    try (rewrite (fill_Select _ _ _ _ _ _ _ _ Hc Hr));
    try (rewrite (fill_Fraction _ _ _ _ _ _ _ _ _ Hc Hr));
    repeat match goal with H : fgtb _ _ = _ |- _ => rewrite H end;
    repeat match goal with H : fill _ _ _ _ = _ |- _ => rewrite H end;
    reflexivity.
Qed.

Lemma fill_adds_weight_to_entries_witness :
  fill sample_fcns (Select identity f1 (Deviate_init (Some identity)))
       (VNum (num (-3))) f1
  = (Select identity (fadd f1 f1) (Deviate_init (Some identity)), None).
Proof.
  apply (proj1 (fill_adds_weight_to_entries sample_fcns identity f1
                  (VNum (num (-3))) f1 (VNum (num (-3))) (num (-3))
                  eq_refl eq_refl)).
  reflexivity.
Defined.

(** ** Deviate: fill *)

Lemma variance_NaN e : variance e NaN = NaN.
Proof. unfold variance. destruct (feqb e f0); [reflexivity|]. now destruct e. Qed.

Lemma Deviate_fill_NaN_mean fcns q e vte datum weight v x :
  fgtb weight f0 = true ->
  call fcns q datum = Ok v -> as_real v = Some x ->
  fill fcns (Deviate q e NaN vte) datum weight
  = (Deviate q (fadd e weight) NaN NaN, None).
Proof.
  intros Hw Hc Hr. cbn [fill]. unfold Deviate_fill. now rewrite Hw, Hc, Hr.
Qed.

Lemma Deviate_fill_NaN_input fcns q e mean vte datum weight v :
  fgtb weight f0 = true ->
  call fcns q datum = Ok v -> as_real v = Some NaN ->
  fill fcns (Deviate q e mean vte) datum weight
  = (Deviate q (fadd e weight) NaN NaN, None).
Proof.
  intros Hw Hc Hr. cbn [fill]. unfold Deviate_fill. rewrite Hw, Hc, Hr.
  now rewrite orb_true_r.
Qed.

(** C6.  A NaN input filled with positive weight makes the mean NaN; and
    from a Deviate whose mean is NaN, every stream of fills with numbers
    (finite or not) and positive weights succeeds and ends in a state whose
    mean and variance are both NaN. *)
Theorem Deviate_NaN_poisoning fcns q :
  (forall e mean vte datum weight v,
      fgtb weight f0 = true ->
      call fcns q datum = Ok v -> as_real v = Some NaN ->
      exists e', fill fcns (Deviate q e mean vte) datum weight
                 = (Deviate q e' NaN NaN, None))
  /\ (forall (data : list (value * float)) e vte,
      data <> [] ->
      Forall (fun dw => fgtb dw.2 f0 = true
                        /\ exists v x, call fcns q dw.1 = Ok v
                                       /\ as_real v = Some x) data ->
      exists e', fill_all fcns (Deviate q e NaN vte) data
                 = (Deviate q e' NaN NaN, None)
                 /\ variance e' NaN = NaN).
Proof.
  split.
  - intros e mean vte datum weight v Hw Hc Hr. eexists.
    eapply Deviate_fill_NaN_input; eassumption.
  - intros data. induction data as [|[datum weight] rest IH]; [congruence|].
    intros e vte _ Hall.
    apply Forall_cons in Hall as [[Hw (v & x & Hc & Hr)] Hrest].
    cbn [fst snd] in *. cbn [fill_all].
    rewrite (Deviate_fill_NaN_mean _ _ _ _ _ _ _ _ Hw Hc Hr).
    destruct rest as [|dw rest'].
    + eexists. split; [reflexivity|]. apply variance_NaN.
    + apply IH; [discriminate|assumption].
Qed.

Lemma Deviate_NaN_poisoning_witness :
  exists e', fill_all sample_fcns (Deviate identity f1 NaN NaN)
               [(VNum (num 1), f1); (VNum (num 2), f2)]
             = (Deviate identity e' NaN NaN, None)
             /\ variance e' NaN = NaN.
Proof.
  apply (proj2 (Deviate_NaN_poisoning sample_fcns identity)).
  - discriminate.
  - repeat constructor; eexists _, _; split; reflexivity.
Defined.

(** ** Entries *)

Lemma entries_zero c : entries (zero c) = f0.
Proof. destruct c; reflexivity. Qed.

Lemma fill_entries fcns c datum w c' :
  fill fcns c datum w = (c', None) -> fgtb w f0 = true ->
  entries c' = fadd (entries c) w.
Proof.
  intros H Hw. destruct c as [q e vs|q e m s|q e n d|q e cut]; cbn [fill] in H.
  - unfold Bag_fill in H. rewrite Hw in H.
    destruct (call fcns q datum); [|discriminate].
    destruct (Bag_key a); [|discriminate]. now inversion H.
  - unfold Deviate_fill in H. rewrite Hw in H.
    destruct (call fcns q datum); [|discriminate].
    destruct (as_real a); [|discriminate].
    repeat match type of H with
           | (if ?b then _ else _) = _ => destruct b
           end; now inversion H.
  - destruct (call fcns q datum); [|discriminate].
    destruct (as_real a); [|discriminate].
    destruct (if fgtb w f0 then fill fcns d datum w else (d, None))
      as [den [err|]]; [discriminate|].
    destruct (if fgtb (fmul f w) f0 then fill fcns n datum (fmul f w)
              else (n, None)) as [num' [err|]]; [discriminate|].
    now inversion H.
  - destruct (call fcns q datum); [|discriminate].
    destruct (as_real a); [|discriminate].
    destruct (if fgtb (fmul f w) f0 then fill fcns cut datum (fmul f w)
              else (cut, None)) as [cut' [err|]]; [discriminate|].
    now inversion H.
Qed.

Lemma add_entries a b c :
  add a b = Ok c ->
  entries c = fadd (entries a) (entries b) \/ entries c = f0.
Proof.
  destruct a, b; cbn [add]; try discriminate.
  - intros [= <-]. now left.
  - intros [= <-]. now left.
  - destruct (add a1 b1); [|discriminate].
    destruct (add a2 b2); [|discriminate]. intros [= <-]. now right.
  - destruct (add a b); [|discriminate]. intros [= <-]. now left.
Qed.

(** ** Select: [cut.entries <= entries] *)

Lemma Select_inv_consistent s : Select_inv s -> Select_consistent s = true.
Proof.
  intros (q & a & cut & b & -> & Hb & _ & Hle). cbn. rewrite Hb.
  unfold fleb. cbn. apply Qcle_lt_or_eq in Hle as [Hlt| ->].
  - apply Qcltb_spec in Hlt. now rewrite Hlt.
  - now rewrite Qceqb_refl, orb_true_r.
Qed.

Lemma Select_inv_fill fcns s datum weight v w0 s' :
  Select_inv s -> 0 <= weight ->
  call fcns (quantity s) datum = Ok v -> as_real v = Some w0 ->
  fgtb w0 f1 = false ->
  fill fcns s datum (Finite weight) = (s', None) ->
  Select_inv s'.
Proof.
  intros (q & a & cut & b & -> & Hb & Hb0 & Hle) Hw Hc Hr Hsel Hfill.
  cbn [quantity] in Hc. rewrite (fill_Select _ _ _ _ _ _ _ _ Hc Hr) in Hfill.
  destruct (fgtb (fmul w0 (Finite weight)) f0) eqn:Hpos.
  - destruct (fill fcns cut datum (fmul w0 (Finite weight)))
      as [cut' [err|]] eqn:Hcut; [discriminate|].
    inversion Hfill; subst s'; clear Hfill.
    apply fill_entries in Hcut; [|exact Hpos]. rewrite Hb in Hcut.
    destruct w0 as [x| | |]; cbn in Hpos, Hsel; try discriminate.
    + apply Qcltb_spec in Hpos. cbn in Hcut.
      assert (Hx : x <= 1).
      { apply Qcnot_lt_le. intros Hlt. apply Qcltb_spec in Hlt. congruence. }
      exists q, (a + weight), cut', (b + x * weight).
      repeat split; [exact Hcut| |].
      * rewrite <- (Qcplus_0_r 0). apply Qcplus_le_compat; [exact Hb0|].
        now apply Qclt_le_weak.
      * apply Qcplus_le_compat; [exact Hle|].
        rewrite <- (Qcmult_1_l weight) at 2.
        now apply Qcmult_le_compat_r.
    + unfold inf_times in Hpos.
      destruct (Qceqb weight 0) eqn:E; [discriminate|].
      assert (Hlt : Qcltb 0 weight = true).
      { apply Qcltb_spec. apply Qcle_lt_or_eq in Hw as [Hlt| <-]; [exact Hlt|].
        now rewrite Qceqb_refl in E. }
      rewrite Hlt in Hpos. discriminate.
  - inversion Hfill; subst s'; clear Hfill.
    exists q, (a + weight), cut, b. repeat split; [exact Hb|exact Hb0|].
    rewrite <- (Qcplus_0_r b). now apply Qcplus_le_compat.
Qed.

Lemma Select_inv_add a b c :
  Select_inv a -> Select_inv b -> add a b = Ok c -> Select_inv c.
Proof.
  intros (q & x & cut & y & -> & Hy & Hy0 & Hle)
         (q' & x' & cut' & y' & -> & Hy' & Hy0' & Hle') Hadd.
  cbn [add] in Hadd. destruct (add cut cut') as [cut''|] eqn:Hc; [|discriminate].
  cbn in Hadd. inversion Hadd; subst c; clear Hadd.
  assert (H0 : 0 <= x + x').
  { rewrite <- (Qcplus_0_r 0).
    apply Qcplus_le_compat;
      [apply Qcle_trans with y|apply Qcle_trans with y']; assumption. }
  apply add_entries in Hc as [Hc|Hc]; rewrite ?Hy, ?Hy' in Hc.
  - exists q, (x + x'), cut'', (y + y'). repeat split; [exact Hc| |].
    + rewrite <- (Qcplus_0_r 0). now apply Qcplus_le_compat.
    + now apply Qcplus_le_compat.
  - exists q, (x + x'), cut'', 0. repeat split; [exact Hc|apply Qcle_refl|exact H0].
Qed.

(** C4, as amended.  A Select reached from a zero state by fills with
    finite weights [>= 0] at which the selector returns nothing greater than
    1 (a boolean, a fraction, a negative number, NaN), and by combines, has
    [cut.entries <= entries]. *)
Theorem Select_cut_entries_le fcns s :
  reach fcns (fun w0 => fgtb w0 f1 = false) s -> Select_consistent s = true.
Proof.
  intros H. apply Select_inv_consistent. induction H.
  - exists q, 0, (zero cut), 0. repeat split.
    + apply entries_zero.
    + apply Qcle_refl.
    + apply Qcle_refl.
  - eapply Select_inv_fill with (s := s) (w0 := w0); eassumption.
  - eapply Select_inv_add with (a := a) (b := b); eassumption.
Qed.

Lemma Select_cut_entries_le_witness :
  Select_consistent
    (Select identity f1 (Deviate identity (frac 1 2) (frac 1 2) f0)) = true.
Proof.
  apply (Select_cut_entries_le sample_fcns).
  eapply (reach_fill _ _ (zero (Select identity f0 (Deviate_init (Some identity))))
            (VNum (frac 1 2)) 1 (VNum (frac 1 2)) (frac 1 2)).
  - apply reach_zero.
  - discriminate.
  - reflexivity.
  - reflexivity.
  - reflexivity.
  - cbn. unfold Deviate_fill. cbn.
    repeat f_equal; apply Qc_is_canon; reflexivity.
Defined.

(** C4, as stated, fails: the selector is a multiplier on the weight, and
    where it returns more than 1 the cut receives more than [weight].
    [Select(lambda x: x, Deviate(lambda x: x))] filled once with datum 2 and
    weight 1 has [entries = 1] and [cut.entries = 2]. *)
Lemma Select_cut_entries_le_counterexample :
  exists s, reach sample_fcns (fun _ => True) s
            /\ (exists q c, s = Select q f1 c /\ entries c = f2)
            /\ Select_consistent s = false.
Proof.
  exists (Select identity f1 (Deviate identity f2 f2 f0)).
  split; [|split]. 
  - eapply (reach_fill _ _ (zero (Select identity f0 (Deviate_init (Some identity))))
              (VNum f2) 1 (VNum f2) f2).
    + apply reach_zero.
    + discriminate.
    + reflexivity.
    + reflexivity.
    + exact I.
    + cbn. unfold Deviate_fill. cbn.
      repeat f_equal; apply Qc_is_canon; reflexivity.
  - eexists _, _. split; reflexivity.
  - vm_compute. reflexivity.
Qed.

(** ** Shapes *)

Lemma same_shape_refl a : same_shape a a.
Proof. induction a; cbn; auto. Qed.

Lemma same_shape_sym a b : same_shape a b -> same_shape b a.
Proof.
  revert b. induction a; intros []; cbn; try tauto.
  - congruence.
  - congruence.
  - intros (-> & H1 & H2). auto.
  - intros (-> & H1). auto.
Qed.

Lemma same_shape_trans a b c : same_shape a b -> same_shape b c -> same_shape a c.
Proof.
  revert b c. induction a; intros [] []; cbn; try tauto.
  - congruence.
  - congruence.
  - intros (-> & H1 & H2) (-> & H3 & H4). eauto.
  - intros (-> & H1) (-> & H2). eauto.
Qed.

Lemma same_shape_zero a : same_shape (zero a) a.
Proof. induction a; cbn; auto. Qed.

Lemma wf_zero a : wf a -> wf (zero a).
Proof.
  induction a; cbn; auto. intros ([Hq|Hs] & H1 & H2); repeat split; auto.
  right. eapply same_shape_trans; [apply same_shape_zero|].
  eapply same_shape_trans; [exact Hs|]. apply same_shape_sym, same_shape_zero.
Qed.

Lemma wf_Fraction_init q value : wf value -> wf (Fraction_init q value).
Proof.
  intros H. cbn. repeat split; auto using same_shape_refl, wf_zero.
Qed.

Lemma wf_Fraction_ed e n d c :
  wf n -> wf d -> Fraction_ed e n d = Ok c -> wf c.
Proof.
  intros Hn Hd. unfold Fraction_ed. destruct (fltb e f0); [discriminate|].
  intros [= <-]. cbn. auto.
Qed.

Lemma wf_Fraction_build n d c :
  wf n -> wf d -> Fraction_build n d = Ok c -> wf c.
Proof.
  intros Hn Hd. unfold Fraction_build.
  destruct (add n d); [|discriminate]. cbn [mbind result_bind].
  now apply wf_Fraction_ed.
Qed.

Lemma call_past_tense fcns q datum :
  expr q = None -> call fcns q datum = Raise PastTenseError.
Proof. unfold call. now intros ->. Qed.

Lemma same_shape_fill fcns a datum w : same_shape (fill fcns a datum w).1 a.
Proof.
  revert w. induction a as [q e vs|q e m s|q e n IHn d IHd|q e cut IH];
    intros w; cbn [fill].
  - unfold Bag_fill. destruct (fgtb w f0); [|cbn; auto].
    destruct (call fcns q datum); [|cbn; auto].
    destruct (Bag_key a); cbn; auto.
  - unfold Deviate_fill. destruct (fgtb w f0); [|cbn; auto].
    destruct (call fcns q datum); [|cbn; auto].
    destruct (as_real a); [|cbn; auto].
    repeat match goal with
           | |- context [if ?b then _ else _] => destruct b
           end; cbn; auto.
  - destruct (call fcns q datum); [|cbn; auto using same_shape_refl].
    destruct (as_real a); [|cbn; auto using same_shape_refl].
    assert (Hd : same_shape
                   (if fgtb w f0 then fill fcns d datum w else (d, None)).1 d).
    { destruct (fgtb w f0); [apply IHd|apply same_shape_refl]. }
    destruct (if fgtb w f0 then fill fcns d datum w else (d, None))
      as [den [err|]]; cbn in Hd; [cbn; auto using same_shape_refl|].
    assert (Hn : same_shape
                   (if fgtb (fmul f w) f0 then fill fcns n datum (fmul f w)
                    else (n, None)).1 n).
    { destruct (fgtb (fmul f w) f0); [apply IHn|apply same_shape_refl]. }
    destruct (if fgtb (fmul f w) f0 then fill fcns n datum (fmul f w)
              else (n, None)) as [num' [err|]]; cbn in Hn; cbn; auto.
  - destruct (call fcns q datum); [|cbn; auto using same_shape_refl].
    destruct (as_real a); [|cbn; auto using same_shape_refl].
    assert (Hc : same_shape
                   (if fgtb (fmul f w) f0 then fill fcns cut datum (fmul f w)
                    else (cut, None)).1 cut).
    { destruct (fgtb (fmul f w) f0); [apply IH|apply same_shape_refl]. }
    destruct (if fgtb (fmul f w) f0 then fill fcns cut datum (fmul f w)
              else (cut, None)) as [cut' [err|]]; cbn in Hc; cbn; auto.
Qed.

Lemma wf_fill fcns a : forall datum w, wf a -> wf (fill fcns a datum w).1.
Proof.
  induction a as [q e vs|q e m s|q e n IHn d IHd|q e cut IH];
    intros datum w Hwf; cbn [fill].
  - unfold Bag_fill. destruct (fgtb w f0); [|exact I].
    destruct (call fcns q datum); [|exact I].
    destruct (Bag_key a); exact I.
  - unfold Deviate_fill. destruct (fgtb w f0); [|exact I].
    destruct (call fcns q datum); [|exact I].
    destruct (as_real a); [|exact I].
    repeat match goal with
           | |- context [if ?b then _ else _] => destruct b
           end; exact I.
  - destruct Hwf as (Hs & Hn & Hd).
    destruct (call fcns q datum) eqn:Hcall; [|now repeat split].
    destruct Hs as [Hq|Hs];
      [now rewrite (call_past_tense _ _ _ Hq) in Hcall|].
    destruct (as_real a) as [w0|]; [|now repeat split; auto].
    assert (Hd' : same_shape
                    (if fgtb w f0 then fill fcns d datum w else (d, None)).1 d
                  /\ wf (if fgtb w f0 then fill fcns d datum w
                         else (d, None)).1).
    { destruct (fgtb w f0); [|split; [apply same_shape_refl|exact Hd]].
      split; [apply same_shape_fill|now apply IHd]. }
    assert (Hn' : same_shape
                    (if fgtb (fmul w0 w) f0 then fill fcns n datum (fmul w0 w)
                     else (n, None)).1 n
                  /\ wf (if fgtb (fmul w0 w) f0
                         then fill fcns n datum (fmul w0 w)
                         else (n, None)).1).
    { destruct (fgtb (fmul w0 w) f0); [|split; [apply same_shape_refl|exact Hn]].
      split; [apply same_shape_fill|now apply IHn]. }
    destruct (if fgtb w f0 then fill fcns d datum w else (d, None))
      as [den [err|]]; cbn [fst] in Hd'; destruct Hd' as [Hd1 Hd2].
    + cbn. repeat split; [right|exact Hn|exact Hd2].
      eapply same_shape_trans; [exact Hs|now apply same_shape_sym].
    + destruct (if fgtb (fmul w0 w) f0 then fill fcns n datum (fmul w0 w)
                else (n, None)) as [num' [err|]]; cbn [fst] in Hn';
        destruct Hn' as [Hn1 Hn2]; cbn;
        (repeat split; [right|exact Hn2|exact Hd2]);
        (eapply same_shape_trans; [exact Hn1|];
         eapply same_shape_trans; [exact Hs|now apply same_shape_sym]).
  - cbn [wf] in Hwf.
    destruct (call fcns q datum); [|exact Hwf].
    destruct (as_real a) as [w0|]; [|exact Hwf].
    assert (Hc : wf (if fgtb (fmul w0 w) f0 then fill fcns cut datum (fmul w0 w)
                     else (cut, None)).1).
    { destruct (fgtb (fmul w0 w) f0); [now apply IH|exact Hwf]. }
    destruct (if fgtb (fmul w0 w) f0 then fill fcns cut datum (fmul w0 w)
              else (cut, None)) as [cut' [err|]]; exact Hc.
Qed.

Lemma same_shape_add a : forall b c, add a b = Ok c -> same_shape c a.
Proof.
  induction a as [q e vs|q e m s|q e n IHn d IHd|q e cut IH];
    intros [] c; cbn [add]; try discriminate.
  - intros [= <-]. reflexivity.
  - intros [= <-]. reflexivity.
  - destruct (add n numerator) eqn:E1; [|discriminate].
    destruct (add d denominator) eqn:E2; [|discriminate].
    intros [= <-]. cbn. eauto.
  - destruct (add cut cut0) eqn:E; [|discriminate].
    intros [= <-]. cbn. eauto.
Qed.

Lemma wf_add a : forall b c, wf a -> add a b = Ok c -> wf c.
Proof.
  induction a as [q e vs|q e m s|q e n IHn d IHd|q e cut IH];
    intros [] c Hwf; cbn [add]; try discriminate.
  - intros [= <-]. exact I.
  - intros [= <-]. exact I.
  - destruct Hwf as (Hs & Hn & Hd).
    destruct (add n numerator) eqn:E1; [|discriminate].
    destruct (add d denominator) eqn:E2; [|discriminate].
    intros [= <-]. cbn. repeat split; eauto.
    destruct Hs as [Hq|Hs]; [now left|right].
    eapply same_shape_trans; [eapply same_shape_add, E1|].
    eapply same_shape_trans; [exact Hs|].
    eapply same_shape_sym, same_shape_add, E2.
  - destruct (add cut cut0) eqn:E; [|discriminate].
    intros [= <-]. cbn. eauto.
Qed.

(** ** Rollback *)

(** A positive weight times the selector's result is positive exactly when
    the result is. *)
Lemma fmul_pos w0 w : fgtb w f0 = true -> fgtb (fmul w0 w) f0 = fgtb w0 f0.
Proof.
  destruct w as [r| | |]; cbn; try discriminate.
  - intros Hr. apply Qcltb_spec in Hr.
    assert (Hne : Qceqb r 0 = false).
    { apply Qceqb_neq. intros ->. now apply Qclt_not_eq in Hr. }
    destruct w0 as [x| | |]; cbn; try reflexivity.
    + destruct (Qcltb 0 x) eqn:Hx.
      * apply Qcltb_spec. apply Qcltb_spec in Hx.
        rewrite <- (Qcmult_0_l r). now apply Qcmult_lt_compat_r.
      * destruct (Qcltb 0 (x * r)) eqn:Hxr; [|reflexivity].
        apply Qcltb_spec in Hxr. exfalso.
        assert (Hle : x <= 0).
        { apply Qcnot_lt_le. intros H. apply Qcltb_spec in H. congruence. }
        apply (Qcmult_le_compat_r _ _ r) in Hle; [|now apply Qclt_le_weak].
        rewrite Qcmult_0_l in Hle. now apply Qcle_not_lt in Hle.
    + unfold inf_times. rewrite Hne.
      apply Qcltb_spec in Hr. now rewrite Hr.
    + unfold inf_times. rewrite Hne.
      apply Qcltb_spec in Hr. now rewrite Hr.
  - intros _. destruct w0 as [x| | |]; cbn; try reflexivity.
    unfold inf_times. destruct (Qceqb x 0) eqn:E.
    + apply Qceqb_spec in E. subst x. cbn. now rewrite Qcltb_irrefl.
    + destruct (Qcltb 0 x); reflexivity.
Qed.

(** Whether a fill raises [TypeError] depends on the shape, the datum and
    the sign of the weight only: where one aggregator is filled with a
    positive weight and no exception, no aggregator of the same shape
    raises [TypeError] on that datum with a positive weight. *)
Lemma fill_no_TypeError fcns a : forall b datum w1 w2,
  same_shape a b ->
  fgtb w1 f0 = true -> fgtb w2 f0 = true ->
  (fill fcns a datum w1).2 = None ->
  (fill fcns b datum w2).2 <> Some TypeError.
Proof.
  induction a as [q e vs|q e m s|q e n IHn d IHd|q e cut IH];
    intros [q' e' vs'|q' e' m' s'|q' e' n' d'|q' e' cut'] datum w1 w2 Hs H1 H2;
    cbn [same_shape] in Hs; try contradiction; cbn [fill].
  - subst q'. unfold Bag_fill. rewrite H1, H2.
    destruct (call fcns q datum); [|discriminate].
    destruct (Bag_key a); discriminate.
  - subst q'. unfold Deviate_fill. rewrite H1, H2.
    destruct (call fcns q datum); [|discriminate].
    destruct (as_real a); [|discriminate]. intros _.
    repeat match goal with
           | |- context [if ?b then _ else _] => destruct b
           end; discriminate.
  - destruct Hs as (<- & Hn & Hd). rewrite H1, H2.
    destruct (call fcns q datum); [|discriminate].
    destruct (as_real a) as [w0|]; [|discriminate].
    rewrite !fmul_pos by assumption.
    destruct (fill fcns d datum w1) as [den [err|]] eqn:E1; [discriminate|].
    pose proof (IHd d' datum w1 w2 Hd H1 H2) as Hden. rewrite E1 in Hden.
    specialize (Hden eq_refl).
    destruct (fill fcns d' datum w2) as [den' [err|]]; cbn in Hden;
      [cbn; congruence|].
    destruct (fgtb w0 f0) eqn:Hw0; [|discriminate].
    assert (P1 : fgtb (fmul w0 w1) f0 = true) by now rewrite fmul_pos.
    assert (P2 : fgtb (fmul w0 w2) f0 = true) by now rewrite fmul_pos.
    destruct (fill fcns n datum (fmul w0 w1)) as [num1 [err|]] eqn:E2;
      [discriminate|].
    pose proof (IHn n' datum _ _ Hn P1 P2) as Hnum. rewrite E2 in Hnum.
    specialize (Hnum eq_refl). intros _.
    destruct (fill fcns n' datum (fmul w0 w2)) as [num2 [err|]]; cbn in Hnum;
      cbn; congruence.
  - destruct Hs as (<- & Hc).
    destruct (call fcns q datum); [|discriminate].
    destruct (as_real a) as [w0|]; [|discriminate].
    rewrite !fmul_pos by assumption.
    destruct (fgtb w0 f0) eqn:Hw0; [|discriminate].
    assert (P1 : fgtb (fmul w0 w1) f0 = true) by now rewrite fmul_pos.
    assert (P2 : fgtb (fmul w0 w2) f0 = true) by now rewrite fmul_pos.
    destruct (fill fcns cut datum (fmul w0 w1)) as [c1 [err|]] eqn:E;
      [discriminate|].
    pose proof (IH cut' datum _ _ Hc P1 P2) as Hcut. rewrite E in Hcut.
    specialize (Hcut eq_refl). intros _.
    destruct (fill fcns cut' datum (fmul w0 w2)) as [c2 [err|]]; cbn in Hcut;
      cbn; congruence.
Qed.

Lemma fill_TypeError_rollback fcns a : forall datum weight,
  wf a -> (fill fcns a datum weight).2 = Some TypeError ->
  (fill fcns a datum weight).1 = a.
Proof.
  induction a as [q e vs|q e m s|q e n IHn d IHd|q e cut IH];
    intros datum weight Hwf; cbn [fill].
  - unfold Bag_fill. destruct (fgtb weight f0); [|discriminate].
    destruct (call fcns q datum); [|reflexivity].
    destruct (Bag_key a); [discriminate|reflexivity].
  - unfold Deviate_fill. destruct (fgtb weight f0); [|discriminate].
    destruct (call fcns q datum); [|reflexivity].
    destruct (as_real a); [|reflexivity].
    repeat match goal with
           | |- context [if ?b then _ else _] => destruct b
           end; discriminate.
  - destruct Hwf as (Hs & Hn & Hd).
    destruct (call fcns q datum) eqn:Hcall; [|reflexivity].
    destruct Hs as [Hq|Hs];
      [now rewrite (call_past_tense _ _ _ Hq) in Hcall|].
    destruct (as_real a) as [w0|]; [|reflexivity].
    destruct (fgtb weight f0) eqn:Hw.
    + destruct (fill fcns d datum weight) as [den [err|]] eqn:E1.
      * cbn. intros [= ->]. specialize (IHd datum weight Hd).
        rewrite E1 in IHd. cbn in IHd. now rewrite IHd.
      * destruct (fgtb (fmul w0 weight) f0) eqn:Hp; [|discriminate].
        pose proof (fill_no_TypeError fcns d n datum weight (fmul w0 weight)
                      (same_shape_sym _ _ Hs) Hw Hp) as Hno.
        rewrite E1 in Hno. specialize (Hno eq_refl).
        destruct (fill fcns n datum (fmul w0 weight)) as [num' [err|]];
          cbn in Hno; cbn; [congruence|discriminate].
    + destruct (fgtb (fmul w0 weight) f0) eqn:Hp; [|discriminate].
      destruct (fill fcns n datum (fmul w0 weight)) as [num' [err|]] eqn:E2;
        [|discriminate].
      cbn. intros [= ->]. specialize (IHn datum (fmul w0 weight) Hn).
      rewrite E2 in IHn. cbn in IHn. now rewrite IHn.
  - cbn [wf] in Hwf.
    destruct (call fcns q datum); [|reflexivity].
    destruct (as_real a) as [w0|]; [|reflexivity].
    destruct (fgtb (fmul w0 weight) f0) eqn:Hp; [|discriminate].
    destruct (fill fcns cut datum (fmul w0 weight)) as [cut' [err|]] eqn:E;
      [|discriminate].
    cbn. intros [= ->]. specialize (IH datum (fmul w0 weight) Hwf).
    rewrite E in IH. cbn in IH. now rewrite IH.
Qed.

Lemma fill_ill_typed fcns c datum weight v :
  calls_extractor c weight ->
  call fcns (quantity c) datum = Ok v -> ill_typed c v ->
  fill fcns c datum weight = (c, Some TypeError).
Proof.
  destruct c; cbn [calls_extractor quantity ill_typed fill];
    intros Hw Hc Hv.
  - unfold Bag_fill. now rewrite Hw, Hc, Hv.
  - unfold Deviate_fill. now rewrite Hw, Hc, Hv.
  - now rewrite Hc, Hv.
  - now rewrite Hc, Hv.
Qed.

Lemma fill_child_TypeError fcns c datum weight child w :
  wf c -> fills_child fcns c datum weight child w ->
  (fill fcns child datum w).2 = Some TypeError ->
  fill fcns c datum weight = (c, Some TypeError).
Proof.
  intros Hwf (v & w0 & Hc & Hr & Hw & Hchild) Herr.
  destruct c as [q e vs|q e m s|q e n d|q e cut];
    cbn [quantity] in Hc; try contradiction.
  - destruct Hwf as (Hs & Hn & Hd).
    destruct Hs as [Hq|Hs];
      [now rewrite (call_past_tense _ _ _ Hq) in Hc|].
    rewrite (fill_Fraction _ _ _ _ _ _ _ _ _ Hc Hr).
    destruct Hchild as [[-> ->]|(-> & -> & Hden)].
    + rewrite Hw.
      pose proof (fill_TypeError_rollback fcns d datum weight Hd Herr) as Hroll.
      destruct (fill fcns d datum weight) as [den r]. cbn in Herr, Hroll.
      now subst.
    + rewrite Hw.
      pose proof (fill_TypeError_rollback fcns n datum _ Hn Herr) as Hroll.
      destruct (fgtb weight f0) eqn:Hweight.
      * destruct Hden as [Hden|Hden]; [discriminate|].
        exfalso.
        apply (fill_no_TypeError fcns d n datum weight (fmul w0 weight)
                 (same_shape_sym _ _ Hs) Hweight Hw Hden Herr).
      * destruct (fill fcns n datum (fmul w0 weight)) as [num' r].
        cbn in Herr, Hroll. now subst.
  - cbn [wf] in Hwf. destruct Hchild as [-> ->].
    rewrite (fill_Select _ _ _ _ _ _ _ _ Hc Hr), Hw.
    pose proof (fill_TypeError_rollback fcns cut datum _ Hwf Herr) as Hroll.
    destruct (fill fcns cut datum (fmul w0 weight)) as [cut' r].
    cbn in Herr, Hroll. now subst.
Qed.

(** X28.  In exact arithmetic (no product of a selector's result and a
    weight underflows), on an aggregator tree (every Fraction in it either
    has two children of one shape or is past tense):
    - where the extractor of the primitive is called and returns a value
      the primitive does not take, [fill] raises the quantity-type error
      and leaves the primitive as it was;
    - where the call fills a child and the child raises the quantity-type
      error, so does the call, and the whole tree is as it was;
    - whenever [fill] raises the quantity-type error, from whichever node,
      the whole tree (entries, every other field, every child) is as it
      was before the call. *)
Theorem fill_quantity_type_error fcns c datum weight :
  wf c ->
  (forall v, calls_extractor c weight ->
             call fcns (quantity c) datum = Ok v -> ill_typed c v ->
             fill fcns c datum weight = (c, Some TypeError))
  /\ (forall child w, fills_child fcns c datum weight child w ->
                      (fill fcns child datum w).2 = Some TypeError ->
                      fill fcns c datum weight = (c, Some TypeError))
  /\ (forall c', fill fcns c datum weight = (c', Some TypeError) -> c' = c).
Proof.
  intros Hwf. split; [|split].
  - intros v. apply fill_ill_typed.
  - intros child w. now apply fill_child_TypeError.
  - intros c' H.
    pose proof (fill_TypeError_rollback fcns c datum weight Hwf) as Hr.
    rewrite H in Hr. cbn in Hr. now apply Hr.
Qed.

Lemma fill_quantity_type_error_witness :
  let c := Fraction_init (Some is_positive)
             (Select_init (Some identity) (Deviate_init (Some returns_None))) in
  (fill sample_fcns c (VNum f1) f1).2 = Some TypeError
  /\ (fill sample_fcns c (VNum f1) f1).1 = c.
Proof.
  cbn zeta. split; [reflexivity|].
  refine (proj2 (proj2 (fill_quantity_type_error sample_fcns _ (VNum f1) f1 _))
                _ _).
  - cbn. repeat split. right. repeat split.
  - reflexivity.
Defined.

(** ** Equality is reflexive *)

Lemma numeq_refl rel abs x : numeq rel abs x x = true.
Proof.
  unfold numeq. destruct (isnan x) eqn:E; [reflexivity|].
  now rewrite feqb_refl.
Qed.

Lemma UserFcn_eq_refl q : UserFcn_eq q q = true.
Proof. unfold UserFcn_eq. now apply bool_decide_eq_true. Qed.

Lemma key_numeq_refl rel abs k : key_numeq rel abs k k = true.
Proof.
  destruct k as [x|s|l]; cbn.
  - apply numeq_refl.
  - apply String.eqb_refl.
  - rewrite Nat.eqb_refl. cbn. induction l as [|x l IH]; [reflexivity|].
    cbn. now rewrite numeq_refl.
Qed.

Lemma forallb_zip_diag {A} (f : A * A -> bool) (l : list A) :
  (forall x, x ∈ l -> f (x, x) = true) -> forallb f (zip l l) = true.
Proof.
  induction l as [|x l IH]; [reflexivity|]. intros H. cbn.
  rewrite H by left. apply IH. intros y Hy. apply H. now right.
Qed.

Lemma Bag_eq_same rel abs q e e' values :
  numeq rel abs e e' = true ->
  Bag_eq rel abs q e values (Bag q e' values) = Ok true.
Proof.
  intros He. unfold Bag_eq. cbn [values_of mbind result_bind].
  rewrite Nat.eqb_refl. cbn [negb].
  rewrite forallb_zip_diag.
  - cbn [negb]. now rewrite UserFcn_eq_refl, He.
  - intros [k w] Hin. cbn [fst snd]. rewrite key_numeq_refl. cbn [andb].
    unfold eq_items in Hin. apply elem_of_app in Hin as [Hin|Hin].
    + apply list_elem_of_fmap in Hin as ([k' w'] & [= -> ->] & _).
      cbn. apply numeq_refl.
    + apply list_elem_of_singleton in Hin as [= -> ->].
      destruct (values !! KStr "nan"); cbn; [apply numeq_refl|reflexivity].
Qed.

Lemma Container_eq_refl rel abs c : Container_eq rel abs c c = Ok true.
Proof.
  induction c as [q e vs|q e m s|q e n IHn d IHd|q e cut IH]; cbn [Container_eq].
  - apply Bag_eq_same, numeq_refl.
  - now rewrite UserFcn_eq_refl, !numeq_refl.
  - rewrite numeq_refl, UserFcn_eq_refl, IHn. cbn. exact IHd.
  - rewrite numeq_refl. cbn. exact IH.
Qed.

(** ** Zero is an identity *)

Lemma fadd_0_r x : fadd x f0 = x.
Proof. destruct x; cbn; try reflexivity. now rewrite Qcplus_0_r. Qed.

Lemma fadd_0_l x : fadd f0 x = x.
Proof. destruct x; cbn; try reflexivity. now rewrite Qcplus_0_l. Qed.

Lemma Bag_add_values_empty_r values : Bag_add_values values ∅ = values.
Proof. unfold Bag_add_values. apply map_fold_empty. Qed.


Lemma Deviate_add_zero_r q e m s :
  Deviate_regular e m s = true ->
  add (Deviate q e m s) (zero (Deviate q e m s)) = Ok (Deviate q e m s).
Proof.
  unfold Deviate_regular. destruct e as [e| | |]; cbn [isfinite andb];
    try discriminate.
  intros H. cbn [zero Deviate_init serializable add]. unfold f0.
  apply orb_true_iff in H as [H|H].
  - destruct m as [m| | |], s as [s| | |]; cbn in H; try discriminate.
    rewrite Deviate_add_mean_finite, Deviate_add_vte_finite. cbn [fadd].
    unfold vteQ, meanQ. rewrite Qc_two.
    apply Deviate_finite_ext; [ring| |].
    + destruct (Qceqb (e + 0) 0) eqn:E.
      * apply Qceqb_spec in E. rewrite Qcplus_0_r in E. subst e.
        rewrite Qceqb_refl in H. cbn in H. apply Qceqb_spec in H. subst m.
        field; repeat split; discriminate.
      * assert (e <> 0).
        { intros ->. now rewrite Qcplus_0_r, Qceqb_refl in E. }
        field; rewrite ?Qcplus_0_r; repeat split; solve [assumption|discriminate].
    + destruct (Qceqb (e + 0) 0) eqn:E.
      * apply Qceqb_spec in E. rewrite Qcplus_0_r in E. subst e.
        rewrite Qceqb_refl in H. cbn in H. apply Qceqb_spec in H. subst m.
        field; repeat split; discriminate.
      * assert (e <> 0).
        { intros ->. now rewrite Qcplus_0_r, Qceqb_refl in E. }
        field; rewrite ?Qcplus_0_r; repeat split; solve [assumption|discriminate].
  - apply andb_true_iff in H as [H He]. apply andb_true_iff in H as [H Hs].
    destruct s; try discriminate. apply negb_true_iff in He. cbn in He.
    unfold Deviate_add_vte. cbn [fadd fsub].
    replace (Deviate_add_mean (Finite e) m (Finite 0) (Finite 0)) with m.
    { cbn [fadd]. rewrite Qcplus_0_r.
      now destruct (fopp (fmul (fmul f2 m)
                      (fadd (fmul (Finite e) m) (fmul (Finite 0) (Finite 0))))),
                   (fmul (fmul m m) (Finite e)). }
    unfold Deviate_add_mean. cbn [fadd feqb f0]. rewrite Qcplus_0_r, He.
    destruct m as [m| | |]; cbn in H; try discriminate; cbn.
    + unfold inf_times. rewrite He.
      destruct (Qcltb 0 e) eqn:Hp; cbn; rewrite He; unfold inf_times;
        rewrite He, ?Hp; reflexivity.
    + unfold inf_times. rewrite He.
      destruct (Qcltb 0 e) eqn:Hp; cbn; rewrite He; unfold inf_times;
        rewrite He, ?Hp; reflexivity.
    + reflexivity.
Qed.


Lemma add_zero_r c : regular c = true -> add c (zero c) = Ok c.
Proof.
  induction c as [q e vs|q e m s|q e n IHn d IHd|q e cut IH];
    cbn [regular]; intros H.
  - cbn [zero Bag_init serializable add].
    now rewrite fadd_0_r, Bag_add_values_empty_r.
  - now apply Deviate_add_zero_r.
  - discriminate.
  - cbn [zero Select_init serializable add]. rewrite (IH H).
    cbn [mbind result_bind]. now rewrite fadd_0_r.
Qed.





(** ** Equality and the quantity *)

Lemma Select_eq_any_quantity rel abs q q' e e' c c' :
  Container_eq rel abs (Select q e c) (Select q' e' c')
  = Container_eq rel abs (Select q e c) (Select q e' c').
Proof. reflexivity. Qed.

(** C3 (the code does not do this).  [Select.__eq__] compares [entries]
    and [cut] only, and [Select.__hash__] hashes [(entries, cut)]: a Select
    whose quantity is named "x" is equal to the otherwise-equal anonymous
    one, and to one with another extractor, and has the same hash.
    Bag, Deviate and Fraction do compare and hash the quantity: the same
    pair of quantities makes them unequal. *)
Theorem Select_eq_ignores_quantity :
  let named := mkUserFcn (Some 0%nat) (Some "x"%string) in
  let anonymous := mkUserFcn (Some 0%nat) None in
  let cut := Deviate_init (Some identity) in
  UserFcn_eq named anonymous = false
  /\ Container_eq tolerance tolerance
       (Select named f1 cut) (Select anonymous f1 cut) = Ok true
  /\ Container_eq tolerance tolerance
       (Select named f1 cut) (Select is_positive f1 cut) = Ok true
  /\ hash_tuple (Select named f1 cut) = hash_tuple (Select anonymous f1 cut)
  /\ Container_eq tolerance tolerance
       (Fraction named f1 cut cut) (Fraction anonymous f1 cut cut) = Ok false
  /\ Container_eq tolerance tolerance
       (Deviate named f1 f1 f0) (Deviate anonymous f1 f1 f0) = Ok false
  /\ Container_eq tolerance tolerance
       (Bag named f1 {[ KNum f1 := f1 ]}) (Bag anonymous f1 {[ KNum f1 := f1 ]})
     = Ok false
  /\ hash_tuple (Fraction named f1 cut cut)
     <> hash_tuple (Fraction anonymous f1 cut cut)
  /\ hash_tuple (Deviate named f1 f1 f0)
     <> hash_tuple (Deviate anonymous f1 f1 f0)
  /\ hash_tuple (Bag named f1 {[ KNum f1 := f1 ]})
     <> hash_tuple (Bag anonymous f1 {[ KNum f1 := f1 ]}).
Proof.
  cbn zeta.
  repeat split; try (vm_compute; reflexivity); cbn; intros H; discriminate H.
Qed.

(** ** The wire format: round trip *)

Lemma number_or_sentinel_floatToJson x : number_or_sentinel (floatToJson x) = true.
Proof. now destruct x. Qed.

Lemma floatOrNan_floatToJson x : floatOrNan (floatToJson x) = Some x.
Proof. now destruct x. Qed.

Lemma python_float_floatToJson x : python_float (floatToJson x) = Ok x.
Proof. unfold python_float. now rewrite floatOrNan_floatToJson. Qed.

Lemma as_real_floatToJson x : isfinite x = true -> as_real (floatToJson x) = Some x.
Proof. now destruct x. Qed.

Lemma past_tense_eta q n :
  expr q = None -> n = name q -> set_name (serializable None) n = q.
Proof. destruct q as [e nm]. cbn. now intros -> ->. Qed.

(** The name a reader ends with: the one in the document, or else the one
    the parent hands down. *)
Lemma read_name q (suppress : bool) nfp :
  ((if suppress then None else name q) = None -> nfp = name q) ->
  match (if suppress then None else name q) with
  | None => nfp
  | Some nm => Some nm
  end = name q.
Proof.
  destruct suppress; [auto|]. destruct (name q); auto.
Qed.

Lemma Deviate_roundtrip q e m s (suppress : bool) nfp :
  wire_normal (Deviate q e m s) = true ->
  ((if suppress then None else name q) = None -> nfp = name q) ->
  fromJsonFragment (toJsonFragment (Deviate q e m s) suppress) "Deviate"%string nfp
  = Ok (Deviate q e m s).
Proof.
  cbn [wire_normal quantity entries]. intros H Hn.
  apply andb_true_iff in H as [H Hs]. apply andb_true_iff in H as [Hq He].
  apply bool_decide_eq_true in Hq, Hs. apply negb_true_iff in He.
  apply read_name in Hn.
  cbn [toJsonFragment].
  destruct (if suppress then None else name q) as [nm|]; cbn;
    rewrite !number_or_sentinel_floatToJson, !python_float_floatToJson;
    cbn [mbind result_bind]; unfold Deviate_ed; rewrite He;
    cbn [mbind result_bind with_name]; rewrite Hs;
    now rewrite (past_tense_eta q).
Qed.

(** *** Bag *)

Lemma Bag_json_key_rangeToJson k :
  key_ok k = true -> Bag_json_key (rangeToJson k) = Ok k.
Proof.
  destruct k as [x|s|l]; cbn [rangeToJson key_ok]; intros H.
  - unfold Bag_json_key.
    now rewrite number_or_sentinel_floatToJson, python_float_floatToJson.
  - unfold Bag_json_key. cbn [number_or_sentinel].
    apply negb_true_iff in H. unfold sentinel in H. now rewrite H.
  - unfold Bag_json_key. cbn [number_or_sentinel].
    assert (H1 : forallb number_or_sentinel (floatToJson <$> l) = true).
    { induction l as [|x l IH]; [reflexivity|].
      cbn [fmap list_fmap forallb].
      rewrite number_or_sentinel_floatToJson. exact IH. }
    assert (H2 : mapM floatOrNan (floatToJson <$> l) = Some l).
    { apply mapM_Some. clear. induction l as [|x l IH]; cbn; constructor.
      - apply floatOrNan_floatToJson.
      - exact IH. }
    now rewrite H1, H2.
Qed.

Lemma Bag_json_item_item_json kv :
  key_ok kv.1 = true -> Bag_json_item (item_json kv) = Ok kv.
Proof.
  destruct kv as [k n]. cbn [fst]. intros H. cbn.
  rewrite number_or_sentinel_floatToJson, python_float_floatToJson.
  cbn [mbind result_bind]. rewrite (Bag_json_key_rangeToJson k H). reflexivity.
Qed.

Lemma Bag_json_values_items l : forall acc : gmap key float,
  forallb (fun kv => key_ok kv.1) l = true ->
  Bag_json_values (item_json <$> l) acc
  = Ok (foldl (fun m kv => <[kv.1 := kv.2]> m) acc l).
Proof.
  induction l as [|kv l IH]; intros acc H; [reflexivity|].
  cbn in H. apply andb_true_iff in H as [Hk Hl].
  cbn [fmap list_fmap Bag_json_values].
  rewrite (Bag_json_item_item_json kv Hk). cbn [mbind result_bind].
  now rewrite IH.
Qed.

Lemma foldl_insert_lookup (l : list (key * float)) :
  forall (acc : gmap key float) k,
  NoDup l.*1 ->
  foldl (fun m kv => <[kv.1 := kv.2]> m) acc l !! k
  = match (list_to_map l : gmap key float) !! k with
    | Some v => Some v
    | None => acc !! k
    end.
Proof.
  induction l as [|[k' v'] l IH]; intros acc k Hnd; [reflexivity|].
  cbn [fmap list_fmap fst] in Hnd. apply NoDup_cons in Hnd as [Hk' Hnd].
  cbn [foldl fst snd list_to_map foldr]. rewrite IH by exact Hnd.
  destruct (decide (k = k')) as [->|Hne].
  - rewrite (not_elem_of_list_to_map_1 l k') by exact Hk'.
    now rewrite !lookup_insert_eq.
  - now rewrite !lookup_insert_ne by congruence.
Qed.

Lemma foldl_insert_map_to_list (values : gmap key float) l :
  l ≡ₚ map_to_list values ->
  foldl (fun m kv => <[kv.1 := kv.2]> m) ∅ l = values.
Proof.
  intros Hp. apply map_eq. intros k. rewrite foldl_insert_lookup.
  - rewrite <- (list_to_map_flip values l) by (symmetry; exact Hp).
    rewrite lookup_empty. now destruct (values !! k).
  - rewrite Hp. apply NoDup_fst_map_to_list.
Qed.

Lemma filter_all {A} (P : A -> Prop) `{forall x, Decision (P x)} (l : list A) :
  Forall P l -> filter P l = l.
Proof.
  induction 1 as [|x l Hx Hl IH]; [reflexivity|].
  rewrite filter_cons_True by exact Hx. now rewrite IH.
Qed.

Lemma Bag_aslist_Permutation values :
  forallb (fun kv => key_ok kv.1) (map_to_list values) = true ->
  Bag_aslist values ≡ₚ map_to_list values.
Proof.
  intros H. unfold Bag_aslist, sorted_items, sorted.
  assert (Hall : Forall (fun kv : key * float => key_ok kv.1 = true)
                        (map_to_list values)).
  { apply Forall_forall. intros kv Hin.
    rewrite forallb_forall in H. apply H. now apply list_elem_of_In. }
  assert (Hnan : values !! KStr "nan" = None).
  { destruct (values !! KStr "nan") as [n|] eqn:E; [|reflexivity].
    apply elem_of_map_to_list in E. rewrite Forall_forall in Hall.
    apply Hall in E. discriminate E. }
  rewrite Hnan, app_nil_r, merge_sort_Permutation.
  rewrite filter_all; [reflexivity|].
  eapply Forall_impl; [exact Hall|]. intros [k n] Hk Heq.
  cbn in Hk, Heq. subst k. discriminate Hk.
Qed.

Lemma Bag_roundtrip q e values (suppress : bool) nfp :
  wire_normal (Bag q e values) = true ->
  ((if suppress then None else name q) = None -> nfp = name q) ->
  fromJsonFragment (toJsonFragment (Bag q e values) suppress) "Bag"%string nfp
  = Ok (Bag q e values).
Proof.
  cbn [wire_normal quantity entries]. intros H Hn.
  apply andb_true_iff in H as [H Hk]. apply andb_true_iff in H as [Hq He].
  apply bool_decide_eq_true in Hq. apply negb_true_iff in He.
  apply read_name in Hn.
  assert (Hv : Bag_json_values (item_json <$> Bag_aslist values) ∅ = Ok values).
  { rewrite Bag_json_values_items.
    - now rewrite (foldl_insert_map_to_list values)
        by now apply Bag_aslist_Permutation.
    - rewrite forallb_forall. intros kv Hin.
      rewrite forallb_forall in Hk. apply Hk.
      apply list_elem_of_In. rewrite <- (Bag_aslist_Permutation values).
      + now apply list_elem_of_In.
      + rewrite forallb_forall. exact Hk. }
  cbn [toJsonFragment].
  destruct (if suppress then None else name q) as [nm|]; cbn;
    rewrite !number_or_sentinel_floatToJson, !python_float_floatToJson;
    cbn [mbind result_bind]; rewrite Hv;
    cbn [mbind result_bind]; unfold Bag_ed; rewrite He;
    cbn [mbind result_bind with_name];
    now rewrite (past_tense_eta q).
Qed.

Lemma registered_factory_name c : registered (factory_name c) = true.
Proof. now destruct c. Qed.

Lemma roundtrip_fragment c : forall (suppress : bool) nfp,
  wire_normal c = true ->
  ((if suppress then None else name (quantity c)) = None ->
   nfp = name (quantity c)) ->
  fromJsonFragment (toJsonFragment c suppress) (factory_name c) nfp = Ok c.
Proof.
  induction c as [q e vs|q e m s|q e n IHn d IHd|q e cut IH];
    intros suppress nfp H Hn.
  - now apply Bag_roundtrip.
  - now apply Deviate_roundtrip.
  - cbn [wire_normal quantity entries] in H. fold wire_normal in H.
    rewrite !andb_true_iff, !bool_decide_eq_true, negb_true_iff in H.
    destruct H as ((Hq & He) & ((((Hfin & Hfn) & Hnm) & Hwn) & Hwd)).
    cbn [quantity factory_name] in *. apply read_name in Hn.
    specialize (IHn true (name (quantity n)) Hwn (fun _ => eq_refl)).
    specialize (IHd true (name (quantity n)) Hwd (fun _ => eq_sym Hnm)).
    rewrite Hfn in IHd.
    cbn [toJsonFragment].
    assert (Hreg := registered_factory_name n).
    unfold registered, mem in Hreg. cbn in Hreg.
    destruct (if suppress then None else name q) as [nm|];
      destruct (name (quantity n)) as [sn|] eqn:Hsn; cbn;
      rewrite (as_real_floatToJson e Hfin); cbn [mbind result_bind];
      rewrite Hreg; cbn [mbind result_bind]; rewrite IHn, IHd;
      cbn [mbind result_bind]; unfold Fraction_ed; rewrite He;
      cbn [mbind result_bind with_name];
      now rewrite (past_tense_eta q).
  - cbn [wire_normal quantity entries] in H. fold wire_normal in H.
    rewrite !andb_true_iff, !bool_decide_eq_true, negb_true_iff in H.
    destruct H as ((Hq & He) & (Hfin & Hwc)).
    cbn [quantity factory_name] in *. apply read_name in Hn.
    specialize (IH false None Hwc).
    assert (Hc : fromJsonFragment (toJsonFragment cut false)
                   (factory_name cut) None = Ok cut).
    { apply IH. now intros ->. }
    assert (Hreg := registered_factory_name cut).
    unfold registered, mem in Hreg. cbn in Hreg.
    cbn [toJsonFragment].
    destruct (if suppress then None else name q) as [nm|]; cbn;
      rewrite (as_real_floatToJson e Hfin); cbn [mbind result_bind];
      rewrite Hreg; cbn [mbind result_bind]; rewrite Hc;
      cbn [mbind result_bind]; unfold Select_ed; rewrite He;
      cbn [mbind result_bind with_name];
      now rewrite (past_tense_eta q).
Qed.

(** C8, as amended.  For every wire-normal state P (past tense, no
    negative entries, finite entries in Fraction and Select, Fraction
    children of one kind and one quantity name, Deviates whose
    varianceTimesEntries is variance times entries, no Bag key among the
    strings "nan", "inf", "-inf"), [fromJson(toJson(P))] is P itself, hence
    equal to P under every tolerance pair. *)
Theorem fromJson_toJson rel abs P :
  wire_normal P = true ->
  fromJsonFragment (toJsonFragment P false) (factory_name P) None = Ok P
  /\ fromJson (toJson P) = Ok P
  /\ (fromJson (toJson P) ≫= fun P' => Container_eq rel abs P' P) = Ok true.
Proof.
  intros H. split.
  { apply roundtrip_fragment; [exact H|]. now destruct (name (quantity P)). }
  assert (Hrt : fromJson (toJson P) = Ok P).
  { unfold fromJson, toJson, factory_field. cbn [required get List.find fst snd
      fmap option_fmap option_map String.eqb Ascii.eqb Bool.eqb mbind result_bind].
    rewrite (registered_factory_name P). cbn [mbind result_bind].
    apply roundtrip_fragment; [exact H|]. now destruct (name (quantity P)). }
  split; [exact Hrt|]. rewrite Hrt. cbn [mbind result_bind].
  apply Container_eq_refl.
Qed.

Lemma fromJson_toJson_witness :
  let past n := mkUserFcn None n in
  let D := Deviate (past (Some "x"%string)) f2 f1 (num 4) in
  let B := Bag (past (Some "x"%string)) f2
               (<[KStr "a" := f1]> (<[KStr "b" := f1]> ∅)) in
  let P := Fraction (past (Some "cut"%string)) f2
                    (Select (past (Some "x"%string)) f1 D)
                    (Select (past (Some "x"%string)) f2 B) in
  fromJsonFragment (toJsonFragment P false) (factory_name P) None = Ok P
  /\ fromJson (toJson P) = Ok P
  /\ (fromJson (toJson P)
      ≫= fun P' => Container_eq tolerance tolerance P' P) = Ok true.
Proof.
  apply (fromJson_toJson tolerance tolerance). vm_compute. reflexivity.
Defined.

(** C8, as stated, fails on a Select whose entries are negative, a state
    [fill] reaches with a negative weight: [Select.ed] refuses negative
    entries, so the document the Select writes does not load. *)
Lemma fromJson_toJson_counterexample :
  let h := Select_init (Some identity) (Deviate_init (Some identity)) in
  let P := (fill sample_fcns h (VNum f1) (num (-1))).1 in
  entries P = num (-1)
  /\ fromJsonFragment (toJsonFragment P false) (factory_name P) None
     = Raise ValueError
  /\ fromJson (toJson P) = Raise ValueError.
Proof. cbn zeta. split; [float_eq|]. split; vm_compute; reflexivity. Qed.

(** Other states outside [wire_normal] that do not come back: a Fraction
    whose entries are NaN (after a fill with a NaN weight) writes the
    string "nan", which [Fraction.fromJsonFragment] does not take; a Bag
    of strings that holds the key "inf" reads it back as a number; a
    present-tense state is read back past tense. *)
Lemma fromJson_toJson_Fraction_NaN :
  let h := Fraction_init (Some is_positive) (Deviate_init (Some identity)) in
  let P := (fill sample_fcns h (VNum f1) NaN).1 in
  entries P = NaN /\ fromJson (toJson P) = Raise JsonFormatException.
Proof. cbn zeta. split; vm_compute; reflexivity. Qed.

(** A present-tense state comes back past tense: the quantity of what is
    read has the name and no extractor, and the quantity is part of the
    identity. *)
Lemma fromJson_toJson_present_tense :
  let P := Deviate identity f1 f1 f0 in
  fromJson (toJson P) = Ok (Deviate (mkUserFcn None None) f1 f1 f0)
  /\ (fromJson (toJson P)
      ≫= fun P' => Container_eq tolerance tolerance P' P) = Ok false.
Proof. cbn zeta. split; vm_compute; reflexivity. Qed.

Lemma fromJson_toJson_Bag_inf :
  let P := Bag (mkUserFcn None None) f1 {[ KStr "inf" := f1 ]} in
  fromJson (toJson P) = Ok (Bag (mkUserFcn None None) f1 {[ KNum PInf := f1 ]})
  /\ (fromJson (toJson P)
      ≫= fun P' => Container_eq tolerance tolerance P' P) = Ok false.
Proof. cbn zeta. split; vm_compute; reflexivity. Qed.

(** ** Fraction: shape validation *)

Ltac inv_bind H :=
  match type of H with
  | (?m ≫= _) = Ok _ =>
      let E := fresh "E" in
      destruct m eqn:E; cbn [mbind result_bind] in H; [|discriminate H]
  end.

Lemma factory_name_with_name out n nfp :
  factory_name (with_name out n nfp) = factory_name out.
Proof. now destruct out. Qed.

(** The last two steps of every reader: [ed], then the name. *)
Ltac finish_ed H :=
  injection H as <-; rewrite factory_name_with_name;
  unfold Bag_ed, Deviate_ed, Fraction_ed, Select_ed in *;
  match goal with
  | E : (if ?b then _ else _) = Ok _ |- _ =>
      destruct b; [discriminate E|injection E as <-]
  end;
  reflexivity.

Lemma child_fromJsonFragment (d : list (string * value)) k tag nfp c :
  child (map (fun p => match p with (k, v) => (k, fromJsonFragment v) end) d)
        k tag nfp = Ok c ->
  exists v, fromJsonFragment v tag nfp = Ok c.
Proof.
  unfold child. induction d as [|[k' v'] d IH]; cbn; [discriminate|].
  destruct (String.eqb k' k); [|exact IH]. cbn. eauto.
Qed.

Lemma fromJsonFragment_factory_name json tag nfp c :
  fromJsonFragment json tag nfp = Ok c -> factory_name c = tag.
Proof.
  intros H.
  assert (Hu : fromJsonFragment json tag nfp =
    if String.eqb tag "Bag" then Bag_fromJsonFragment json nfp
    else if String.eqb tag "Deviate" then Deviate_fromJsonFragment json nfp
    else
      match json with
      | VDict d =>
          let sub := map (fun p => match p with
                                   | (k, v) => (k, fromJsonFragment v)
                                   end) d in
          if String.eqb tag "Fraction" then
            Fraction_fromJsonFragment sub d nfp
          else if String.eqb tag "Select" then
            Select_fromJsonFragment sub d nfp
          else Raise KeyError
      | _ => if registered tag then Raise JsonFormatException
             else Raise KeyError
      end) by (destruct json; reflexivity).
  rewrite Hu in H. clear Hu.
  destruct (String.eqb tag "Bag") eqn:E1.
  { apply String.eqb_eq in E1. subst tag. unfold Bag_fromJsonFragment in H.
    destruct json; try discriminate H.
    destruct (hasKeys _ _ _); [|discriminate H].
    repeat inv_bind H. finish_ed H. }
  destruct (String.eqb tag "Deviate") eqn:E2.
  { apply String.eqb_eq in E2. subst tag. unfold Deviate_fromJsonFragment in H.
    destruct json; try discriminate H.
    destruct (hasKeys _ _ _); [|discriminate H].
    repeat inv_bind H. finish_ed H. }
  destruct json; try (destruct (registered tag); discriminate H).
  cbn zeta in H.
  destruct (String.eqb tag "Fraction") eqn:E3.
  { apply String.eqb_eq in E3. subst tag. unfold Fraction_fromJsonFragment in H.
    destruct (hasKeys _ _ _); [|discriminate H].
    repeat inv_bind H. finish_ed H. }
  destruct (String.eqb tag "Select") eqn:E4; [|discriminate H].
  apply String.eqb_eq in E4. subst tag. unfold Select_fromJsonFragment in H.
  destruct (hasKeys _ _ _); [|discriminate H].
  repeat inv_bind H. finish_ed H.
Qed.

Lemma Fraction_fromJsonFragment_children json nfp out :
  fromJsonFragment json "Fraction" nfp = Ok out ->
  exists q e n d, out = Fraction q e n d /\ factory_name n = factory_name d.
Proof.
  intros H. destruct json; try discriminate H.
  cbn [fromJsonFragment String.eqb Ascii.eqb Bool.eqb] in H.
  unfold Fraction_fromJsonFragment in H.
  destruct (hasKeys _ _ _); [|discriminate H].
  repeat inv_bind H. injection H as <-.
  unfold Fraction_ed in *.
  match goal with
  | E : (if ?b then _ else _) = Ok _ |- _ =>
      destruct b; [discriminate E|injection E as <-]
  end.
  repeat match goal with
         | E : child _ _ _ _ = Ok _ |- _ =>
             apply child_fromJsonFragment in E as [? E];
             apply fromJsonFragment_factory_name in E
         end.
  cbn [with_name]. eexists _, _, _, _. split; [reflexivity|]. congruence.
Qed.

(** C9, as amended.  Shape-compatibility of a numerator and a denominator
    is validated by combining them in [Fraction.build]: it raises the
    shape-mismatch error when their sum does, and otherwise builds the
    Fraction with the denominator's entries.  [Fraction.fromJsonFragment]
    does not combine the children: it reads both with the factory named by
    ["type"], so the two it returns are of the same kind at the top. *)
Theorem Fraction_shape_validation :
  (forall n d, add n d = Raise ContainerException ->
               Fraction_build n d = Raise ContainerException)
  /\ (forall n d s, add n d = Ok s ->
                    Fraction_build n d = Fraction_ed (entries d) n d)
  /\ (forall json nfp out,
         fromJsonFragment json "Fraction" nfp = Ok out ->
         exists q e n d, out = Fraction q e n d
                         /\ factory_name n = factory_name d).
Proof.
  split; [|split].
  - intros n d H. unfold Fraction_build. now rewrite H.
  - intros n d s H. unfold Fraction_build. now rewrite H.
  - apply Fraction_fromJsonFragment_children.
Qed.

Lemma Fraction_shape_validation_witness :
  Fraction_build (Deviate_init (Some identity)) (Bag_init (Some identity))
  = Raise ContainerException.
Proof.
  apply (proj1 Fraction_shape_validation). reflexivity.
Defined.

(** C9, as stated, fails: a Fraction document whose numerator is a Select
    of a Deviate and whose denominator is a Select of a Bag loads without
    error, although the sum of the two children raises the shape-mismatch
    error. *)
Lemma Fraction_load_counterexample :
  exists q e n d,
    fromJsonFragment mismatched_Fraction "Fraction" None
    = Ok (Fraction q e n d)
    /\ add n d = Raise ContainerException
    /\ Fraction_build n d = Raise ContainerException.
Proof.
  eexists _, _, _, _. split; [vm_compute; reflexivity|].
  split; reflexivity.
Qed.

(** * Further properties *)

(** ** Float addition and multiplication *)

Lemma fadd_comm x y : fadd x y = fadd y x.
Proof. destruct x, y; cbn; try reflexivity. now rewrite Qcplus_comm. Qed.

Lemma fadd_assoc x y z : fadd x (fadd y z) = fadd (fadd x y) z.
Proof. destruct x, y, z; cbn; try reflexivity. now rewrite Qcplus_assoc. Qed.

Lemma fmul_comm x y : fmul x y = fmul y x.
Proof. destruct x, y; cbn; try reflexivity. now rewrite Qcmult_comm. Qed.

Lemma fadd_swap x y z : fadd (fadd x y) z = fadd (fadd x z) y.
Proof. now rewrite <- !fadd_assoc, (fadd_comm y z). Qed.

(** ** Bag: the values and the entries *)

Lemma Bag_mass_empty : Bag_mass ∅ = f0.
Proof. apply map_fold_empty. Qed.

Lemma Bag_mass_insert (values : gmap key float) k x :
  values !! k = None ->
  Bag_mass (<[k := x]> values) = fadd x (Bag_mass values).
Proof.
  intros Hk. unfold Bag_mass.
  apply (map_fold_insert_L (fun _ n acc => fadd n acc)); [|exact Hk].
  intros j1 j2 z1 z2 y _ _ _. now rewrite !fadd_assoc, (fadd_comm z1 z2).
Qed.

Lemma Bag_mass_update (values : gmap key float) k w :
  Bag_mass (values_update values k w) = fadd (Bag_mass values) w.
Proof.
  unfold values_update. destruct (values !! k) as [n|] eqn:Hk.
  - rewrite <- (insert_delete_eq values k (fadd n w)).
    rewrite <- (insert_delete_id values k n Hk) at 2.
    rewrite !Bag_mass_insert by apply lookup_delete_eq.
    now rewrite fadd_swap, fadd_comm, !fadd_assoc.
  - rewrite Bag_mass_insert by exact Hk. apply fadd_comm.
Qed.

Lemma Bag_mass_add (a b : gmap key float) :
  Bag_mass (Bag_add_values a b) = fadd (Bag_mass a) (Bag_mass b).
Proof.
  unfold Bag_add_values.
  apply (map_fold_weak_ind
           (fun r (m : gmap key float) =>
              Bag_mass r = fadd (Bag_mass a) (Bag_mass m))).
  - now rewrite Bag_mass_empty, fadd_0_r.
  - intros k x m r Hk IH.
    rewrite Bag_mass_update, IH, Bag_mass_insert by exact Hk.
    now rewrite <- fadd_assoc, (fadd_comm _ x).
Qed.

Lemma mass_ok_zero c : mass_ok (zero c).
Proof.
  induction c; cbn; auto using Bag_mass_empty.
Qed.

Lemma mass_ok_fill fcns c : forall datum w,
  mass_ok c -> mass_ok (fill fcns c datum w).1.
Proof.
  induction c as [q e vs|q e m s|q e n IHn d IHd|q e cut IH];
    intros datum w H; cbn [fill].
  - unfold Bag_fill. destruct (fgtb w f0); [|exact H].
    destruct (call fcns q datum); [|exact H].
    destruct (Bag_key a); [|exact H].
    cbn in *. rewrite Bag_mass_update. now rewrite H.
  - unfold Deviate_fill. destruct (fgtb w f0); [|exact I].
    destruct (call fcns q datum); [|exact I].
    destruct (as_real a); [|exact I].
    repeat match goal with
           | |- context [if ?b then _ else _] => destruct b
           end; exact I.
  - destruct H as [Hn Hd].
    destruct (call fcns q datum); [|now split].
    destruct (as_real a) as [w0|]; [|now split].
    assert (Hd' : mass_ok (if fgtb w f0 then fill fcns d datum w
                           else (d, None)).1).
    { destruct (fgtb w f0); [now apply IHd|exact Hd]. }
    assert (Hn' : mass_ok (if fgtb (fmul w0 w) f0
                           then fill fcns n datum (fmul w0 w)
                           else (n, None)).1).
    { destruct (fgtb (fmul w0 w) f0); [now apply IHn|exact Hn]. }
    destruct (if fgtb w f0 then fill fcns d datum w else (d, None))
      as [den [err|]]; cbn [fst] in Hd'; [now split|].
    destruct (if fgtb (fmul w0 w) f0 then fill fcns n datum (fmul w0 w)
              else (n, None)) as [num' [err|]]; cbn [fst] in Hn'; now split.
  - cbn [mass_ok] in H.
    destruct (call fcns q datum); [|exact H].
    destruct (as_real a) as [w0|]; [|exact H].
    assert (Hc : mass_ok (if fgtb (fmul w0 w) f0
                          then fill fcns cut datum (fmul w0 w)
                          else (cut, None)).1).
    { destruct (fgtb (fmul w0 w) f0); [now apply IH|exact H]. }
    destruct (if fgtb (fmul w0 w) f0 then fill fcns cut datum (fmul w0 w)
              else (cut, None)) as [cut' [err|]]; exact Hc.
Qed.

Lemma mass_ok_add a : forall b c,
  mass_ok a -> mass_ok b -> add a b = Ok c -> mass_ok c.
Proof.
  induction a as [q e vs|q e m s|q e n IHn d IHd|q e cut IH];
    intros [] c Ha Hb; cbn [add]; try discriminate.
  - intros [= <-]. cbn in *. rewrite Bag_mass_add. now rewrite Ha, Hb.
  - intros [= <-]. exact I.
  - destruct Ha as [Ha1 Ha2], Hb as [Hb1 Hb2].
    destruct (add n numerator) eqn:E1; [|discriminate].
    destruct (add d denominator) eqn:E2; [|discriminate].
    intros [= <-]. cbn. eauto.
  - destruct (add cut cut0) eqn:E; [|discriminate].
    intros [= <-]. cbn in *. eauto.
Qed.

(** X1.  In exact arithmetic (no rounding), in every aggregator reached
    from a zero state by fills and combines, whatever the data and the
    weights, each Bag holds what its [entries] says: the sum of its values
    is its entries. *)
Theorem Bag_values_sum_to_entries fcns c :
  reached fcns c -> mass_ok c.
Proof.
  induction 1 as [c|c datum w c' _ IH Hfill|a b c _ IHa _ IHb Hadd].
  - apply mass_ok_zero.
  - pose proof (mass_ok_fill fcns c datum w IH) as H. now rewrite Hfill in H.
  - exact (mass_ok_add a b c IHa IHb Hadd).
Qed.

Lemma Bag_values_sum_to_entries_witness :
  mass_ok (Bag identity (fadd (fadd f0 f1) f2)
             (values_update (values_update ∅ (KStr "a") f1) (KStr "a") f2)).
Proof.
  apply (Bag_values_sum_to_entries sample_fcns).
  apply (reached_fill sample_fcns
           (Bag identity (fadd f0 f1) (values_update ∅ (KStr "a") f1))
           (VStr "a") f2); [|reflexivity].
  apply (reached_fill sample_fcns (zero (Bag_init (Some identity)))
           (VStr "a") f1); [|reflexivity].
  apply reached_zero.
Defined.

(** ** Rationals: signs *)

Lemma Qc_pos_neq a : 0 < a -> a <> 0.
Proof. intros H E. rewrite E in H. now apply Qclt_not_eq in H. Qed.

Lemma Qc_add_pos_nonneg a b : 0 < a -> 0 <= b -> 0 < a + b.
Proof.
  intros Ha Hb. apply (Qclt_le_trans _ (a + 0)).
  - now rewrite Qcplus_0_r.
  - apply Qcplus_le_compat; [apply Qcle_refl|exact Hb].
Qed.

Lemma Qc_add_nonneg_pos a b : 0 <= a -> 0 < b -> 0 < a + b.
Proof. intros Ha Hb. rewrite Qcplus_comm. now apply Qc_add_pos_nonneg. Qed.

Lemma Qc_add_pos a b : 0 < a -> 0 < b -> 0 < a + b.
Proof. intros Ha Hb. apply Qc_add_pos_nonneg; [exact Ha|now apply Qclt_le_weak]. Qed.

(** ** Bag: combine *)

Lemma values_update_lookup (values : gmap key float) k w j :
  values_update values k w !! j
  = if decide (k = j)
    then Some (match values !! k with Some n => fadd n w | None => w end)
    else values !! j.
Proof.
  unfold values_update.
  destruct (values !! k) eqn:Hk; rewrite lookup_insert; now destruct (decide (k = j)).
Qed.

Lemma Bag_add_values_lookup (a b : gmap key float) k :
  Bag_add_values a b !! k
  = match a !! k, b !! k with
    | Some x, Some y => Some (fadd x y)
    | Some x, None => Some x
    | None, Some y => Some y
    | None, None => None
    end.
Proof.
  unfold Bag_add_values. revert k.
  apply (map_fold_weak_ind
           (fun r (m : gmap key float) =>
              forall k, r !! k = match a !! k, m !! k with
                                 | Some x, Some y => Some (fadd x y)
                                 | Some x, None => Some x
                                 | None, Some y => Some y
                                 | None, None => None
                                 end)).
  - intros k. rewrite lookup_empty. now destruct (a !! k).
  - intros i x m r Hi IH k. rewrite values_update_lookup, lookup_insert.
    destruct (decide (i = k)) as [->|Hne].
    + rewrite IH, Hi. now destruct (a !! k).
    + apply IH.
Qed.

(** X2.  The value a sum of two Bags holds under a key (without NaN) is
    the sum of the values the summands hold under it: a key of both gets
    the sum of the two weights, a key of one keeps its weight, a key of
    neither is not there.  The entries are the sum of the entries, the
    quantity is the left summand's. *)
Theorem Bag_add_keywise q e (v : gmap key float) q' e' (v' : gmap key float) k :
  nan_free k = true ->
  exists values,
    add (Bag q e v) (Bag q' e' v') = Ok (Bag q (fadd e e') values)
    /\ values !! k
       = match v !! k, v' !! k with
         | Some x, Some y => Some (fadd x y)
         | Some x, None => Some x
         | None, Some y => Some y
         | None, None => None
         end.
Proof.
  intros _. eexists. split; [reflexivity|]. apply Bag_add_values_lookup.
Qed.

Lemma Bag_add_keywise_witness :
  exists values,
    add (Bag identity f1 {[ KStr "a" := f1 ]})
        (Bag identity (fadd f1 f2) (<[ KStr "a" := f2 ]> {[ KStr "b" := f1 ]}))
    = Ok (Bag identity (fadd f1 (fadd f1 f2)) values)
    /\ values !! KStr "a" = Some (fadd f1 f2).
Proof.
  exact (Bag_add_keywise identity f1 {[ KStr "a" := f1 ]}
           identity (fadd f1 f2) (<[ KStr "a" := f2 ]> {[ KStr "b" := f1 ]})
           (KStr "a") eq_refl).
Defined.

Lemma Bag_add_values_comm (a b : gmap key float) :
  Bag_add_values a b = Bag_add_values b a.
Proof.
  apply map_eq. intros k. rewrite !Bag_add_values_lookup.
  destruct (a !! k), (b !! k); try reflexivity. now rewrite fadd_comm.
Qed.

Lemma Bag_add_values_assoc (a b c : gmap key float) :
  Bag_add_values (Bag_add_values a b) c = Bag_add_values a (Bag_add_values b c).
Proof.
  apply map_eq. intros k. rewrite !Bag_add_values_lookup.
  destruct (a !! k), (b !! k), (c !! k); try reflexivity.
  now rewrite fadd_assoc.
Qed.

Lemma Bag_add_values_singleton (values : gmap key float) k w :
  Bag_add_values values {[ k := w ]} = values_update values k w.
Proof.
  apply map_eq. intros j.
  rewrite Bag_add_values_lookup, values_update_lookup, lookup_singleton.
  destruct (decide (k = j)) as [->|Hne]; now destruct (values !! j).
Qed.

(** X3.  Filling a Bag is adding the one-point Bag: where a fill does not
    raise, its result is the sum of the Bag and of its zero filled with the
    same datum and weight. *)
Theorem Bag_fill_is_add fcns q e values datum weight c' :
  fill fcns (Bag q e values) datum weight = (c', None) ->
  add (Bag q e values)
      (fill fcns (zero (Bag q e values)) datum weight).1 = Ok c'.
Proof.
  cbn [fill zero Bag_init serializable]. unfold Bag_fill.
  destruct (fgtb weight f0).
  - destruct (call fcns q datum) as [v|]; [|discriminate].
    destruct (Bag_key v) as [k|]; [|discriminate].
    intros [= <-]. cbn [fst add serializable]. do 2 f_equal.
    + now rewrite fadd_0_l.
    + unfold values_update at 1. rewrite lookup_empty, insert_empty.
      apply Bag_add_values_singleton.
  - intros [= <-]. cbn [fst add serializable].
    now rewrite fadd_0_r, Bag_add_values_empty_r.
Qed.

Lemma Bag_fill_is_add_witness :
  add (Bag identity f1 {[ KStr "a" := f1 ]})
      (fill sample_fcns (zero (Bag identity f1 {[ KStr "a" := f1 ]}))
            (VStr "a") f2).1
  = Ok (Bag identity (fadd f1 f2) (values_update {[ KStr "a" := f1 ]} (KStr "a") f2)).
Proof.
  apply (Bag_fill_is_add sample_fcns identity f1 {[ KStr "a" := f1 ]}
           (VStr "a") f2).
  reflexivity.
Defined.

(** ** Combine is commutative *)

Lemma Deviate_add_mean_comm ca ma cb mb :
  Deviate_add_mean ca ma cb mb = Deviate_add_mean cb mb ca ma.
Proof.
  unfold Deviate_add_mean.
  now rewrite (fadd_comm ca cb), (fadd_comm ma mb),
    (fadd_comm (fmul ca ma) (fmul cb mb)).
Qed.

Lemma Deviate_add_vte_comm ca ma sa cb mb sb :
  Deviate_add_vte ca ma sa cb mb sb = Deviate_add_vte cb mb sb ca ma sa.
Proof.
  unfold Deviate_add_vte. rewrite (Deviate_add_mean_comm cb mb ca ma).
  rewrite (fadd_comm sb sa), (fadd_comm cb ca),
    (fadd_comm (fmul cb mb) (fmul ca ma)).
  now rewrite (fadd_swap (fadd sa sb)).
Qed.

(** X4.  Combine is commutative: two aggregators of the same shape give
    the same sum in either order, for every primitive and for all values
    of their fields, NaN and the infinities included. *)
Theorem add_comm a : forall b, same_shape a b -> add a b = add b a.
Proof.
  induction a as [q e vs|q e m s|q e n IHn d IHd|q e cut IH];
    intros [q' e' vs'|q' e' m' s'|q' e' n' d'|q' e' cut'] Hs;
    cbn [same_shape] in Hs; try contradiction; cbn [add serializable].
  - subst q'. now rewrite (fadd_comm e e'), (Bag_add_values_comm vs vs').
  - subst q'. now rewrite (fadd_comm e e'), (Deviate_add_mean_comm e m e' m'),
      (Deviate_add_vte_comm e m s e' m' s').
  - destruct Hs as (<- & Hn & Hd). now rewrite (IHn n' Hn), (IHd d' Hd).
  - destruct Hs as (<- & Hc). now rewrite (IH cut' Hc), (fadd_comm e e').
Qed.

Lemma add_comm_witness :
  add (Select identity f1 (Deviate identity f1 f2 f0))
      (Select identity f2 (Deviate identity f2 NaN NaN))
  = add (Select identity f2 (Deviate identity f2 NaN NaN))
        (Select identity f1 (Deviate identity f1 f2 f0)).
Proof.
  apply add_comm. cbn. auto.
Defined.

(** ** When combine raises *)

Lemma same_kind_refl a : same_kind a a = true.
Proof. induction a; cbn; auto. now rewrite IHa1, IHa2. Qed.

Lemma same_kind_sym a : forall b, same_kind a b = same_kind b a.
Proof.
  induction a; intros []; cbn; auto. now rewrite IHa1, IHa2.
Qed.

Lemma same_kind_trans a : forall b c,
  same_kind a b = true -> same_kind a c = same_kind b c.
Proof.
  induction a; intros [] c; cbn; try discriminate; destruct c; cbn; auto.
  intros [H1 H2]%andb_true_iff. now rewrite (IHa1 _ _ H1), (IHa2 _ _ H2).
Qed.

Lemma same_shape_same_kind a : forall b, same_shape a b -> same_kind a b = true.
Proof.
  induction a; intros []; cbn; try tauto.
  - intros (_ & H1 & H2). now rewrite IHa1, IHa2.
  - intros (_ & H1). auto.
Qed.

Lemma add_kind a : forall b,
  match add a b with
  | Ok c => same_kind a b = true /\ same_kind a c = true
  | Raise e => same_kind a b = false /\ e = ContainerException
  end.
Proof.
  induction a as [q e vs|q e m s|q e n IHn d IHd|q e cut IH];
    intros [q' e' vs'|q' e' m' s'|q' e' n' d'|q' e' cut'];
    cbn [add same_kind mbind result_bind]; auto.
  - specialize (IHn n'). specialize (IHd d').
    destruct (add n n') as [x|err]; cbn [mbind result_bind].
    + destruct IHn as [-> Hx]. destruct (add d d') as [y|err]; cbn.
      * destruct IHd as [-> Hy]. now rewrite Hx, Hy.
      * destruct IHd as [-> ->]. auto.
    + destruct IHn as [-> ->]. auto.
  - specialize (IH cut'). destruct (add cut cut') as [x|err]; cbn; auto.
Qed.

(** X5.  [a + b] raises exactly when the two trees differ somewhere in the
    primitive they hold, and what it raises is ContainerException; the
    quantities and the contents play no part.  When it does not raise, the
    sum has the shape of [a]: its primitives and its quantities. *)
Theorem add_raises_iff_kinds_differ a b :
  match add a b with
  | Ok c => same_kind a b = true /\ same_shape c a
  | Raise e => same_kind a b = false /\ e = ContainerException
  end.
Proof.
  pose proof (add_kind a b) as H.
  destruct (add a b) as [c|e] eqn:E; [|exact H].
  split; [apply H|]. now apply same_shape_add with b.
Qed.

(** ** Combine is associative *)

Lemma Deviate_add_assoc_positive q ca ma sa cb mb sb cc mc sc :
  0 < ca -> 0 < cb -> 0 < cc ->
  Ok (Deviate q (Finite (ca + cb + cc))
        (Finite (meanQ (ca + cb) (meanQ ca ma cb mb) cc mc))
        (Finite (vteQ (ca + cb) (meanQ ca ma cb mb) (vteQ ca ma sa cb mb sb)
                      cc mc sc)))
  = Ok (Deviate q (Finite (ca + (cb + cc)))
          (Finite (meanQ ca ma (cb + cc) (meanQ cb mb cc mc)))
          (Finite (vteQ ca ma sa (cb + cc) (meanQ cb mb cc mc)
                        (vteQ cb mb sb cc mc sc)))).
Proof.
  intros Ha Hb Hc.
  pose proof (Qc_pos_neq _ (Qc_add_pos _ _ Ha Hb)) as N1.
  pose proof (Qc_pos_neq _ (Qc_add_pos _ _ Hb Hc)) as N2.
  pose proof (Qc_pos_neq _ (Qc_add_pos _ _ (Qc_add_pos _ _ Ha Hb) Hc)) as N3.
  assert (N4 : ca + (cb + cc) <> 0) by (rewrite Qcplus_assoc; exact N3).
  unfold vteQ, meanQ.
  rewrite (Qceqb_neq _ _ N1), (Qceqb_neq _ _ N2), (Qceqb_neq _ _ N3),
    (Qceqb_neq _ _ N4), Qc_two.
  apply Deviate_finite_ext; field; repeat split; auto; discriminate.
Qed.

Lemma add_assoc_Ok a : forall b c ab bc,
  Deviate_positive a -> Deviate_positive b -> Deviate_positive c ->
  add a b = Ok ab -> add b c = Ok bc -> add ab c = add a bc.
Proof.
  induction a as [q e vs|q e m s|q e n IHn d IHd|q e cut IH];
    intros [q1 e1 vs1|q1 e1 m1 s1|q1 e1 n1 d1|q1 e1 cut1]
           [q2 e2 vs2|q2 e2 m2 s2|q2 e2 n2 d2|q2 e2 cut2] ab bc Ha Hb Hc;
    cbn [add serializable]; try discriminate.
  - intros [= <-] [= <-]. cbn [add serializable].
    now rewrite Bag_add_values_assoc, fadd_assoc.
  - intros [= <-] [= <-]. cbn [add serializable].
    destruct Ha as (ca & ma & sa & -> & -> & -> & Pa).
    destruct Hb as (cb & mb & sb & -> & -> & -> & Pb).
    destruct Hc as (cc & mc & sc & -> & -> & -> & Pc).
    rewrite !Deviate_add_mean_finite, !Deviate_add_vte_finite. cbn [fadd].
    rewrite !Deviate_add_mean_finite, !Deviate_add_vte_finite.
    now apply Deviate_add_assoc_positive.
  - destruct Ha as [Han Had], Hb as [Hbn Hbd], Hc as [Hcn Hcd].
    destruct (add n n1) as [x|] eqn:E1; [|discriminate].
    destruct (add d d1) as [y|] eqn:E2; [|discriminate].
    destruct (add n1 n2) as [x'|] eqn:E3; [|discriminate].
    destruct (add d1 d2) as [y'|] eqn:E4; [|discriminate].
    cbn [mbind result_bind]. intros [= <-] [= <-]. cbn [add serializable].
    now rewrite (IHn n1 n2 x x' Han Hbn Hcn E1 E3),
      (IHd d1 d2 y y' Had Hbd Hcd E2 E4).
  - cbn [Deviate_positive] in Ha, Hb, Hc.
    destruct (add cut cut1) as [x|] eqn:E1; [|discriminate].
    destruct (add cut1 cut2) as [x'|] eqn:E3; [|discriminate].
    cbn [mbind result_bind]. intros [= <-] [= <-]. cbn [add serializable].
    now rewrite (IH cut1 cut2 x x' Ha Hb Hc E1 E3), fadd_assoc.
Qed.

(** X6.  Combine is associative on trees whose Deviates have finite
    moments and positive entries: [(a + b) + c] and [a + (b + c)] are the
    same aggregator, or both raise ContainerException.  For trees without
    a Deviate this holds whatever their fields are. *)
Theorem add_assoc a b c :
  Deviate_positive a -> Deviate_positive b -> Deviate_positive c ->
  (add a b ≫= fun ab => add ab c) = (add b c ≫= fun bc => add a bc).
Proof.
  intros Ha Hb Hc.
  pose proof (add_kind a b) as Hab. pose proof (add_kind b c) as Hbc.
  destruct (add a b) as [ab|e1] eqn:E1; destruct (add b c) as [bc|e2] eqn:E2;
    cbn [mbind result_bind].
  - now apply add_assoc_Ok with b.
  - destruct Hab as [K1 K2], Hbc as [K3 ->].
    pose proof (add_kind ab c) as H.
    destruct (add ab c) as [x|e]; [|now destruct H as [_ ->]].
    destruct H as [H _].
    rewrite <- (same_kind_trans a ab c K2), (same_kind_trans a b c K1) in H.
    congruence.
  - destruct Hab as [K1 ->], Hbc as [K3 K4].
    pose proof (add_kind a bc) as H.
    destruct (add a bc) as [x|e]; [|now destruct H as [_ ->]].
    destruct H as [H _].
    rewrite same_kind_sym, <- (same_kind_trans b bc a K4), same_kind_sym in H.
    congruence.
  - destruct Hab as [_ ->], Hbc as [_ ->]. reflexivity.
Qed.

Lemma add_assoc_witness :
  let A := Select identity f1 (Deviate identity f1 f2 f0) in
  let B := Select identity f2 (Deviate identity f2 f0 f1) in
  let C := Select identity f1 (Deviate identity f1 f1 f2) in
  (add A B ≫= fun AB => add AB C) = (add B C ≫= fun BC => add A BC).
Proof.
  apply add_assoc; cbn; eexists _, _, _; repeat split; reflexivity.
Defined.

(** ** Rationals: products and quotients *)

Lemma Qc_mul_nonneg a b : 0 <= a -> 0 <= b -> 0 <= a * b.
Proof.
  intros Ha Hb. rewrite <- (Qcmult_0_l b). now apply Qcmult_le_compat_r.
Qed.

Lemma Qc_sq_nonneg a : 0 <= a * a.
Proof.
  destruct (Qclt_le_dec a 0) as [H|H].
  - replace (a * a) with ((- a) * (- a)) by ring.
    assert (H0 : 0 <= - a) by (apply Qclt_le_weak, Qcopp_le_compat in H; exact H).
    now apply Qc_mul_nonneg.
  - now apply Qc_mul_nonneg.
Qed.

Lemma Qc_div_nonneg a b : 0 <= a -> 0 < b -> 0 <= a / b.
Proof.
  intros Ha Hb. apply (Qcmult_lt_0_le_reg_r _ _ b Hb).
  rewrite Qcmult_0_l. replace (a / b * b) with a; [exact Ha|].
  field. now apply Qc_pos_neq.
Qed.

Lemma Qc_add_nonneg a b : 0 <= a -> 0 <= b -> 0 <= a + b.
Proof.
  intros Ha Hb. rewrite <- (Qcplus_0_r 0). now apply Qcplus_le_compat.
Qed.

(** ** Deviate: fill on finite states *)

Lemma Deviate_fill_finite fcns q e m s datum w v x :
  0 <= e -> 0 < w ->
  call fcns q datum = Ok v -> as_real v = Some (Finite x) ->
  fill fcns (Deviate q (Finite e) (Finite m) (Finite s)) datum (Finite w)
  = (Deviate q (Finite (e + w)) (Finite (fill_meanQ e m x w))
       (Finite (fill_vteQ e m s x w)), None).
Proof.
  intros He Hw Hc Hr. cbn [fill]. unfold Deviate_fill.
  assert (Hgt : fgtb (Finite w) f0 = true) by now apply Qcltb_spec.
  rewrite Hgt, Hc, Hr. cbn [isnan isinf orb fadd feqb f0].
  rewrite (Qceqb_neq _ _ (Qc_pos_neq _ (Qc_add_nonneg_pos _ _ He Hw))).
  cbn [fsub fopp fadd fmul fdiv].
  rewrite (Qceqb_neq _ _ (Qc_pos_neq _ (Qc_add_nonneg_pos _ _ He Hw))).
  reflexivity.
Qed.

(** X7.  Filling a Deviate is adding the one-point Deviate: on a finite
    state with non-negative entries, a fill with a finite quantity and a
    finite positive weight does not raise, and leaves the sum of the state
    and of its zero filled with the same datum and weight (in exact
    arithmetic, as everywhere here). *)
Theorem Deviate_fill_is_add fcns q e m s datum w v x :
  0 <= e -> 0 < w ->
  call fcns q datum = Ok v -> as_real v = Some (Finite x) ->
  let D := Deviate q (Finite e) (Finite m) (Finite s) in
  exists D', fill fcns D datum (Finite w) = (D', None)
             /\ add D (fill fcns (zero D) datum (Finite w)).1 = Ok D'.
Proof.
  intros He Hw Hc Hr D. subst D. eexists. split.
  - exact (Deviate_fill_finite fcns q e m s datum w v x He Hw Hc Hr).
  - cbn [zero]. unfold Deviate_init, serializable, f0.
    rewrite (Deviate_fill_finite fcns q 0 0 0 datum w v x (Qcle_refl 0) Hw Hc Hr).
    cbn [fst add serializable].
    rewrite Deviate_add_mean_finite, Deviate_add_vte_finite. cbn [fadd].
    pose proof (Qc_pos_neq _ Hw) as Nw.
    pose proof (Qc_pos_neq _ (Qc_add_nonneg_pos _ _ He Hw)) as New.
    unfold vteQ, meanQ, fill_vteQ, fill_meanQ. rewrite !Qcplus_0_l.
    rewrite (Qceqb_neq _ _ New), Qc_two.
    apply Deviate_finite_ext; [reflexivity|field; auto..].
Qed.

Lemma Deviate_fill_is_add_witness :
  let D := Deviate identity (num 2) (num 3) (num 1) in
  exists D', fill sample_fcns D (VNum (num 5)) (Finite 1) = (D', None)
             /\ add D (fill sample_fcns (zero D) (VNum (num 5)) (Finite 1)).1
                = Ok D'.
Proof.
  apply (Deviate_fill_is_add sample_fcns identity (Q2Qc 2) (Q2Qc 3) (Q2Qc 1)
           (VNum (num 5)) 1 (VNum (num 5)) (Q2Qc 5)); try reflexivity.
  - vm_compute. discriminate.
Defined.
(** ** Deviate: the moments never go negative *)

Lemma fill_vteQ_nonneg e m s x w :
  0 <= e -> 0 < w -> 0 <= s -> 0 <= fill_vteQ e m s x w.
Proof.
  intros He Hw Hs.
  pose proof (Qc_add_nonneg_pos _ _ He Hw) as Hew.
  replace (fill_vteQ e m s x w)
    with (s + w * e / (e + w) * ((x - m) * (x - m))).
  - apply Qc_add_nonneg; [exact Hs|]. apply Qc_mul_nonneg.
    + apply Qc_div_nonneg; [|exact Hew].
      apply Qc_mul_nonneg; [now apply Qclt_le_weak|exact He].
    + apply Qc_sq_nonneg.
  - unfold fill_vteQ, fill_meanQ. field. now apply Qc_pos_neq.
Qed.

Lemma vteQ_nonneg ca ma sa cb mb sb :
  0 <= ca -> 0 <= cb -> 0 <= sa -> 0 <= sb -> 0 <= vteQ ca ma sa cb mb sb.
Proof.
  intros Ha Hb Hsa Hsb. unfold vteQ, meanQ. rewrite Qc_two.
  destruct (Qceqb (ca + cb) 0) eqn:E.
  - apply Qceqb_spec, Qc_sum_zero in E as [-> ->]; [|assumption..].
    replace (sa + sb + 0 * ma * ma + 0 * mb * mb
             - (1 + 1) * ((ma + mb) / (1 + 1)) * (0 * ma + 0 * mb)
             + (ma + mb) / (1 + 1) * ((ma + mb) / (1 + 1)) * (0 + 0))
      with (sa + sb) by (field; discriminate).
    now apply Qc_add_nonneg.
  - assert (N : ca + cb <> 0) by (intros H; apply Qceqb_spec in H; congruence).
    assert (P : 0 < ca + cb).
    { destruct (Qcle_lt_or_eq _ _ (Qc_add_nonneg _ _ Ha Hb)) as [H|H];
        [exact H|now symmetry in H]. }
    replace (sa + sb + ca * ma * ma + cb * mb * mb
             - (1 + 1) * ((ca * ma + cb * mb) / (ca + cb)) * (ca * ma + cb * mb)
             + (ca * ma + cb * mb) / (ca + cb)
               * ((ca * ma + cb * mb) / (ca + cb)) * (ca + cb))
      with (sa + sb + ca * cb / (ca + cb) * ((ma - mb) * (ma - mb)))
      by (field; exact N).
    apply Qc_add_nonneg; [now apply Qc_add_nonneg|].
    apply Qc_mul_nonneg; [|apply Qc_sq_nonneg].
    apply Qc_div_nonneg; [now apply Qc_mul_nonneg|exact P].
Qed.

Lemma Deviate_filled_inv fcns c :
  Deviate_filled fcns c ->
  exists q e m s,
    c = Deviate q (Finite e) (Finite m) (Finite s) /\ 0 <= e /\ 0 <= s.
Proof.
  induction 1 as [q e m s|c datum w c' _ IH Hq Hfill|a b c _ IHa _ IHb Hadd].
  - exists q, 0, 0, 0. repeat split; apply Qcle_refl.
  - destruct IH as (q & e & m & s & -> & He & Hs).
    destruct (Qclt_le_dec 0 w) as [Hw|Hw].
    + pose proof Hfill as Hfill'. cbn [fill] in Hfill'. unfold Deviate_fill in Hfill'.
      assert (Hgt : fgtb (Finite w) f0 = true) by now apply Qcltb_spec.
      rewrite Hgt in Hfill'.
      destruct (call fcns q datum) as [v|] eqn:Hc; [|discriminate].
      destruct (as_real v) as [x|] eqn:Hr; [|discriminate].
      pose proof (Hq v x Hc Hr) as Hx. destruct x as [x| | |]; try discriminate.
      rewrite (Deviate_fill_finite fcns q e m s datum w v x He Hw Hc Hr) in Hfill.
      injection Hfill as <-.
      exists q, (e + w), (fill_meanQ e m x w), (fill_vteQ e m s x w).
      repeat split.
      * apply Qc_add_nonneg; [exact He|now apply Qclt_le_weak].
      * now apply fill_vteQ_nonneg.
    + cbn [fill] in Hfill. unfold Deviate_fill in Hfill.
      assert (Hgt : fgtb (Finite w) f0 = false).
      { destruct (fgtb (Finite w) f0) eqn:E; [|reflexivity].
        apply Qcltb_spec in E. now apply Qcle_not_lt in Hw. }
      rewrite Hgt in Hfill. injection Hfill as <-.
      exists q, e, m, s. auto.
  - destruct IHa as (qa & ea & ma & sa & -> & Hea & Hsa).
    destruct IHb as (qb & eb & mb & sb & -> & Heb & Hsb).
    cbn [add serializable] in Hadd.
    rewrite Deviate_add_mean_finite, Deviate_add_vte_finite in Hadd.
    injection Hadd as <-.
    exists qa, (ea + eb), (meanQ ea ma eb mb), (vteQ ea ma sa eb mb sb).
    repeat split.
    + now apply Qc_add_nonneg.
    + now apply vteQ_nonneg.
Qed.

(** X8.  A Deviate reached from a zero state by fills with finite weights
    and finite quantities and by combines has finite entries, mean and
    varianceTimesEntries; its entries and its varianceTimesEntries are not
    negative, so neither is its variance (in exact arithmetic). *)
Theorem Deviate_variance_nonneg fcns c :
  Deviate_filled fcns c ->
  exists q e m s v,
    c = Deviate q (Finite e) (Finite m) (Finite s)
    /\ 0 <= e /\ 0 <= s
    /\ variance (Finite e) (Finite s) = Finite v /\ 0 <= v.
Proof.
  intros H. destruct (Deviate_filled_inv fcns c H) as (q & e & m & s & -> & He & Hs).
  destruct (Qceqb e 0) eqn:E.
  - exists q, e, m, s, s. unfold variance. cbn [feqb f0 fdiv]. rewrite E.
    repeat split; auto.
  - exists q, e, m, s, (s / e). unfold variance. cbn [feqb f0 fdiv]. rewrite E.
    repeat split; auto.
    apply Qc_div_nonneg; [exact Hs|].
    destruct (Qcle_lt_or_eq _ _ He) as [P|P]; [exact P|].
    subst e. now rewrite Qceqb_refl in E.
Qed.

Lemma Deviate_variance_nonneg_witness :
  exists q e m s v,
    (fill sample_fcns (Deviate identity (num 1) (num 3) (num 0)) (VNum (num 5)) f1).1
    = Deviate q (Finite e) (Finite m) (Finite s)
    /\ 0 <= e /\ 0 <= s
    /\ variance (Finite e) (Finite s) = Finite v /\ 0 <= v.
Proof.
  apply (Deviate_variance_nonneg sample_fcns).
  apply (Deviate_filled_fill sample_fcns
           (Deviate identity (num 1) (num 3) (num 0)) (VNum (num 5)) 1).
  - apply (Deviate_filled_fill sample_fcns
             (zero (Deviate identity f0 f0 f0)) (VNum (num 3)) 1).
    + apply Deviate_filled_zero.
    + intros v x [= <-] [= <-]. reflexivity.
    + cbn [zero]. unfold Deviate_init, serializable, f0.
      rewrite (Deviate_fill_finite sample_fcns identity 0 0 0 (VNum (num 3)) 1
                 (VNum (num 3)) (Q2Qc 3)); reflexivity.
  - intros v x [= <-] [= <-]. reflexivity.
  - reflexivity.
Defined.

(** ** Deviate: what a stream of fills computes *)

Lemma Deviate_fill_all_moments_from fcns q :
  (forall x, call fcns q (VNum (Finite x)) = Ok (VNum (Finite x))) ->
  forall data e m s,
    0 <= e -> Forall (fun p => 0 < p.2) data ->
    exists e' m' s',
      fill_all fcns (Deviate q (Finite e) (Finite m) (Finite s)) (numbers data)
      = (Deviate q (Finite e') (Finite m') (Finite s'), None)
      /\ e' = e + sum_w data
      /\ m' * e' = m * e + sum_wx data
      /\ s' + m' * (m' * e') = s + m * (m * e) + sum_wxx data.
Proof.
  intros Hid. induction data as [|[x w] data IH]; intros e m s He Hall.
  - exists e, m, s. cbn. repeat split; ring.
  - apply Forall_cons in Hall as [Hw Hall]. cbn [snd] in Hw.
    cbn [numbers fmap list_fmap fill_all fst snd].
    rewrite (Deviate_fill_finite fcns q e m s _ w _ x He Hw (Hid x) eq_refl).
    assert (He' : 0 <= e + w).
    { apply Qc_add_nonneg; [exact He|now apply Qclt_le_weak]. }
    destruct (IH (e + w) (fill_meanQ e m x w) (fill_vteQ e m s x w) He' Hall)
      as (e' & m' & s' & Hrun & E0 & E1 & E2).
    exists e', m', s'. split; [exact Hrun|].
    pose proof (Qc_pos_neq _ (Qc_add_nonneg_pos _ _ He Hw)) as N.
    cbn [sum_w sum_wx sum_wxx foldr fst snd].
    fold (sum_w data). fold (sum_wx data). fold (sum_wxx data).
    split; [|split].
    + rewrite E0. ring.
    + rewrite E1. unfold fill_meanQ. field. exact N.
    + rewrite E2. unfold fill_vteQ, fill_meanQ. field. exact N.
Qed.

Lemma sum_w_pos data : data <> [] -> Forall (fun p => 0 < p.2) data -> 0 < sum_w data.
Proof.
  destruct data as [|[x w] data]; [congruence|]. intros _ Hall.
  apply Forall_cons in Hall as [Hw Hall]. cbn [snd] in Hw.
  cbn [sum_w foldr snd]. apply Qc_add_pos_nonneg; [exact Hw|].
  induction Hall as [|[x' w'] l Hw' _ IH]; [apply Qcle_refl|].
  cbn [foldr snd]. apply Qc_add_nonneg; [now apply Qclt_le_weak|exact IH].
Qed.

(** X9.  What a Deviate computes.  Filled from its initial state with a
    non-empty stream of finite numbers [x] with finite positive weights
    [w], by an extractor that returns the number it is given, a Deviate
    ends with: entries, the sum of the [w]; mean, the weighted mean
    [sum(w*x) / sum(w)]; varianceTimesEntries, the weighted sum of squares
    about that mean, [sum(w*x*x) - sum(w*x)^2 / sum(w)] (in exact
    arithmetic).  No fill raises. *)
Theorem Deviate_fill_all_moments fcns q data :
  (forall x, call fcns q (VNum (Finite x)) = Ok (VNum (Finite x))) ->
  data <> [] -> Forall (fun p => 0 < p.2) data ->
  fill_all fcns (Deviate_init (Some q)) (numbers data)
  = (Deviate q (Finite (sum_w data))
       (Finite (sum_wx data / sum_w data))
       (Finite (sum_wxx data - sum_wx data * sum_wx data / sum_w data)),
     None).
Proof.
  intros Hid Hne Hall.
  destruct (Deviate_fill_all_moments_from fcns q Hid data 0 0 0 (Qcle_refl 0) Hall)
    as (e' & m' & s' & Hrun & E0 & E1 & E2).
  unfold Deviate_init, serializable, f0. rewrite Hrun.
  pose proof (Qc_pos_neq _ (sum_w_pos data Hne Hall)) as N.
  rewrite Qcplus_0_l in E0. subst e'.
  assert (Hm : m' = sum_wx data / sum_w data).
  { rewrite <- (Qcplus_0_l (sum_wx data)), <- (Qcmult_0_l 0), <- E1. now field. }
  assert (Hs : s' = sum_wxx data - sum_wx data * sum_wx data / sum_w data).
  { replace (sum_wxx data) with (s' + m' * (m' * sum_w data))
      by (rewrite E2; ring).
    rewrite Hm. now field. }
  now rewrite <- Hm, <- Hs.
Qed.

Lemma Deviate_fill_all_moments_witness :
  fill_all sample_fcns (Deviate_init (Some identity))
    (numbers [(Q2Qc 1, 1); (Q2Qc 3, 1)])
  = (Deviate identity (Finite (sum_w [(Q2Qc 1, 1); (Q2Qc 3, 1)]))
       (Finite (sum_wx [(Q2Qc 1, 1); (Q2Qc 3, 1)] / sum_w [(Q2Qc 1, 1); (Q2Qc 3, 1)]))
       (Finite (sum_wxx [(Q2Qc 1, 1); (Q2Qc 3, 1)]
                - sum_wx [(Q2Qc 1, 1); (Q2Qc 3, 1)] * sum_wx [(Q2Qc 1, 1); (Q2Qc 3, 1)]
                  / sum_w [(Q2Qc 1, 1); (Q2Qc 3, 1)])),
     None).
Proof.
  apply (Deviate_fill_all_moments sample_fcns identity [(Q2Qc 1, 1); (Q2Qc 3, 1)]).
  - reflexivity.
  - discriminate.
  - repeat constructor.
Defined.

(** ** What [fill] raises *)

Lemma fltb_false_nonneg a : fltb (Finite a) f0 = false -> 0 <= a.
Proof.
  cbn. intros H. apply Qcnot_lt_le. intros L. apply Qcltb_spec in L. congruence.
Qed.

Lemma nonneg_fltb_false a : 0 <= a -> fltb (Finite a) f0 = false.
Proof.
  intros H. cbn. destruct (Qcltb a 0) eqn:E; [|reflexivity].
  apply Qcltb_spec in E. now apply Qcle_not_lt in H.
Qed.

Lemma fadd_pos_neq_0 e w :
  fltb e f0 = false -> fgtb w f0 = true -> feqb (fadd e w) f0 = false.
Proof.
  destruct e as [a| | |], w as [b| | |]; cbn; try discriminate; try reflexivity.
  intros Ha Hb. apply Qcltb_spec in Hb. apply fltb_false_nonneg in Ha.
  apply Qceqb_neq, Qc_pos_neq. now apply Qc_add_nonneg_pos.
Qed.

Lemma fadd_pos_nonneg e w :
  fltb e f0 = false -> fgtb w f0 = true -> fltb (fadd e w) f0 = false.
Proof.
  destruct e as [a| | |], w as [b| | |]; cbn; try discriminate; try reflexivity.
  intros Ha Hb. apply Qcltb_spec in Hb. apply fltb_false_nonneg in Ha.
  apply (nonneg_fltb_false (a + b)), Qc_add_nonneg;
    [exact Ha|now apply Qclt_le_weak].
Qed.

Lemma fadd_nonneg e e' :
  fltb e f0 = false -> fltb e' f0 = false -> fltb (fadd e e') f0 = false.
Proof.
  destruct e as [a| | |], e' as [b| | |]; cbn; try discriminate; try reflexivity.
  intros Ha Hb. apply fltb_false_nonneg in Ha. apply fltb_false_nonneg in Hb.
  apply (nonneg_fltb_false (a + b)). now apply Qc_add_nonneg.
Qed.

Lemma nonneg_entries_zero c : nonneg_entries (zero c).
Proof.
  induction c; cbn; auto.
Qed.

Lemma nonneg_entries_fill fcns c : forall datum w,
  nonneg_entries c -> nonneg_entries (fill fcns c datum w).1.
Proof.
  induction c as [q e vs|q e m s|q e n IHn d IHd|q e cut IH];
    intros datum w H; cbn [fill].
  - unfold Bag_fill. destruct (fgtb w f0); [|exact I].
    destruct (call fcns q datum); [|exact I].
    destruct (Bag_key a); exact I.
  - unfold Deviate_fill. destruct (fgtb w f0) eqn:Hw; [|exact H].
    destruct (call fcns q datum); [|exact H].
    destruct (as_real a); [|exact H].
    cbn [nonneg_entries] in H.
    pose proof (fadd_pos_nonneg e w H Hw) as H'.
    repeat match goal with
           | |- context [if ?b then _ else _] => destruct b
           end; exact H'.
  - destruct H as [Hn Hd].
    destruct (call fcns q datum); [|now split].
    destruct (as_real a) as [w0|]; [|now split].
    assert (Hd' : nonneg_entries (if fgtb w f0 then fill fcns d datum w
                                  else (d, None)).1).
    { destruct (fgtb w f0); [now apply IHd|exact Hd]. }
    destruct (if fgtb w f0 then fill fcns d datum w else (d, None))
      as [den [err|]]; cbn [fst] in Hd'; [now split|].
    assert (Hn' : nonneg_entries (if fgtb (fmul w0 w) f0
                                  then fill fcns n datum (fmul w0 w)
                                  else (n, None)).1).
    { destruct (fgtb (fmul w0 w) f0); [now apply IHn|exact Hn]. }
    destruct (if fgtb (fmul w0 w) f0 then fill fcns n datum (fmul w0 w)
              else (n, None)) as [num' [err|]]; cbn [fst] in Hn'; now split.
  - cbn [nonneg_entries] in H.
    destruct (call fcns q datum); [|exact H].
    destruct (as_real a) as [w0|]; [|exact H].
    assert (H' : nonneg_entries (if fgtb (fmul w0 w) f0
                                 then fill fcns cut datum (fmul w0 w)
                                 else (cut, None)).1).
    { destruct (fgtb (fmul w0 w) f0); [now apply IH|exact H]. }
    destruct (if fgtb (fmul w0 w) f0 then fill fcns cut datum (fmul w0 w)
              else (cut, None)) as [cut' [err|]]; exact H'.
Qed.

Lemma nonneg_entries_add a : forall b c,
  nonneg_entries a -> nonneg_entries b -> add a b = Ok c -> nonneg_entries c.
Proof.
  induction a as [q e vs|q e m s|q e n IHn d IHd|q e cut IH];
    intros [q' e' vs'|q' e' m' s'|q' e' n' d'|q' e' cut'] c Ha Hb;
    cbn [add]; try discriminate.
  - intros [= <-]. exact I.
  - intros [= <-]. now apply fadd_nonneg.
  - destruct Ha as [Han Had], Hb as [Hbn Hbd].
    destruct (add n n') as [x|] eqn:E1; [|discriminate].
    destruct (add d d') as [y|] eqn:E2; [|discriminate].
    intros [= <-].
    split; [exact (IHn n' x Han Hbn E1)|exact (IHd d' y Had Hbd E2)].
  - destruct (add cut cut') as [x|] eqn:E1; [|discriminate].
    intros [= <-]. exact (IH cut' x Ha Hb E1).
Qed.

Lemma reached_nonneg_entries fcns c : reached fcns c -> nonneg_entries c.
Proof.
  induction 1 as [c|c datum w c' _ IH Hfill|a b c _ IHa _ IHb Hadd].
  - apply nonneg_entries_zero.
  - pose proof (nonneg_entries_fill fcns c datum w IH) as H.
    now rewrite Hfill in H.
  - exact (nonneg_entries_add a b c IHa IHb Hadd).
Qed.

Lemma fill_raises fcns c : forall datum w err,
  nonneg_entries c -> (fill fcns c datum w).2 = Some err ->
  err = TypeError \/ err = PastTenseError.
Proof.
  assert (Hcall : forall q datum err,
             call fcns q datum = Raise err -> err = PastTenseError).
  { intros q datum err. unfold call. destruct (expr q); congruence. }
  induction c as [q e vs|q e m s|q e n IHn d IHd|q e cut IH];
    intros datum w err H; cbn [fill].
  - unfold Bag_fill. destruct (fgtb w f0); [|discriminate].
    destruct (call fcns q datum) eqn:Hc.
    + destruct (Bag_key a); [discriminate|]. intros [= <-]. now left.
    + intros [= <-]. right. eapply Hcall, Hc.
  - unfold Deviate_fill. destruct (fgtb w f0) eqn:Hw; [|discriminate].
    destruct (call fcns q datum) eqn:Hc.
    + destruct (as_real a); [|intros [= <-]; now left].
      cbn [nonneg_entries] in H. rewrite (fadd_pos_neq_0 e w H Hw).
      repeat match goal with
             | |- context [if ?b then _ else _] => destruct b
             end; discriminate.
    + intros [= <-]. right. eapply Hcall, Hc.
  - destruct H as [Hn Hd].
    destruct (call fcns q datum) eqn:Hc;
      [|intros [= <-]; right; eapply Hcall, Hc].
    destruct (as_real a) as [w0|]; [|intros [= <-]; now left].
    destruct (fgtb w f0).
    + specialize (IHd datum w). 
      destruct (fill fcns d datum w) as [den [e1|]]; cbn [snd] in *.
      * intros [= <-]. now apply IHd.
      * destruct (fgtb (fmul w0 w) f0); [|discriminate].
        specialize (IHn datum (fmul w0 w)).
        destruct (fill fcns n datum (fmul w0 w)) as [num' [e2|]];
          cbn [snd] in *; [|discriminate].
        intros [= <-]. now apply IHn.
    + destruct (fgtb (fmul w0 w) f0); [|discriminate].
      specialize (IHn datum (fmul w0 w)).
      destruct (fill fcns n datum (fmul w0 w)) as [num' [e2|]];
        cbn [snd] in *; [|discriminate].
      intros [= <-]. now apply IHn.
  - cbn [nonneg_entries] in H.
    destruct (call fcns q datum) eqn:Hc;
      [|intros [= <-]; right; eapply Hcall, Hc].
    destruct (as_real a) as [w0|]; [|intros [= <-]; now left].
    destruct (fgtb (fmul w0 w) f0); [|discriminate].
    specialize (IH datum (fmul w0 w)).
    destruct (fill fcns cut datum (fmul w0 w)) as [cut' [e2|]];
      cbn [snd] in *; [|discriminate].
    intros [= <-]. now apply IH.
Qed.

(** X10.  In exact arithmetic, and for extractors that return values of
    the model (None, booleans, floats, ints that a float holds, strings,
    lists of these): on an aggregator reached from a zero state by fills
    and combines, whatever the data and the weights, [fill] raises nothing
    but the quantity-type error and the error of a past-tense aggregator;
    the division by [entries] in [Deviate.fill] never divides by zero.
    (An int too large for a float raises OverflowError in the source; it
    is not a value of the model.) *)
Theorem fill_never_divides_by_zero fcns c datum weight err :
  reached fcns c ->
  (fill fcns c datum weight).2 = Some err ->
  err = TypeError \/ err = PastTenseError.
Proof.
  intros H Hf.
  exact (fill_raises fcns c datum weight err (reached_nonneg_entries fcns c H) Hf).
Qed.

Lemma fill_never_divides_by_zero_witness :
  let c := zero (Select identity f0 (Deviate returns_None f0 f0 f0)) in
  (fill sample_fcns c (VNum f1) f1).2 = Some TypeError
  /\ (TypeError = TypeError \/ TypeError = PastTenseError).
Proof.
  cbn zeta. split; [reflexivity|].
  apply (fill_never_divides_by_zero sample_fcns
           (zero (Select identity f0 (Deviate returns_None f0 f0 f0)))
           (VNum f1) f1 TypeError).
  - apply reached_zero.
  - reflexivity.
Defined.

(** ** Every exception rolls back *)

Lemma fill_ok_same_shape fcns a : forall b datum w1 w2,
  same_shape a b -> nonneg_entries b ->
  fgtb w1 f0 = true -> fgtb w2 f0 = true ->
  (fill fcns a datum w1).2 = None ->
  (fill fcns b datum w2).2 = None.
Proof.
  induction a as [q e vs|q e m s|q e n IHn d IHd|q e cut IH];
    intros [q' e' vs'|q' e' m' s'|q' e' n' d'|q' e' cut'] datum w1 w2 Hs Hb H1 H2;
    cbn [same_shape] in Hs; try contradiction; cbn [fill].
  - subst q'. unfold Bag_fill. rewrite H1, H2.
    destruct (call fcns q datum); [|discriminate].
    destruct (Bag_key a); [reflexivity|discriminate].
  - subst q'. unfold Deviate_fill. rewrite H1, H2.
    destruct (call fcns q datum); [|discriminate].
    destruct (as_real a); [|discriminate]. intros _.
    cbn [nonneg_entries] in Hb. rewrite (fadd_pos_neq_0 e' w2 Hb H2).
    repeat match goal with
           | |- context [if ?b then _ else _] => destruct b
           end; reflexivity.
  - destruct Hs as (<- & Hn & Hd). destruct Hb as [Hbn Hbd]. rewrite H1, H2.
    destruct (call fcns q datum); [|discriminate].
    destruct (as_real a) as [w0|]; [|discriminate].
    rewrite !fmul_pos by assumption.
    destruct (fill fcns d datum w1) as [den [err|]] eqn:E1; [discriminate|].
    pose proof (IHd d' datum w1 w2 Hd Hbd H1 H2) as Hden. rewrite E1 in Hden.
    specialize (Hden eq_refl).
    destruct (fill fcns d' datum w2) as [den' [err|]]; cbn in Hden;
      [discriminate|].
    destruct (fgtb w0 f0) eqn:Hw0; [|reflexivity].
    assert (P1 : fgtb (fmul w0 w1) f0 = true) by now rewrite fmul_pos.
    assert (P2 : fgtb (fmul w0 w2) f0 = true) by now rewrite fmul_pos.
    destruct (fill fcns n datum (fmul w0 w1)) as [num1 [err|]] eqn:E2;
      [discriminate|].
    pose proof (IHn n' datum _ _ Hn Hbn P1 P2) as Hnum. rewrite E2 in Hnum.
    specialize (Hnum eq_refl). intros _.
    destruct (fill fcns n' datum (fmul w0 w2)) as [num2 [err|]]; cbn in Hnum;
      [discriminate|reflexivity].
  - destruct Hs as (<- & Hc). cbn [nonneg_entries] in Hb.
    destruct (call fcns q datum); [|discriminate].
    destruct (as_real a) as [w0|]; [|discriminate].
    rewrite !fmul_pos by assumption.
    destruct (fgtb w0 f0) eqn:Hw0; [|reflexivity].
    assert (P1 : fgtb (fmul w0 w1) f0 = true) by now rewrite fmul_pos.
    assert (P2 : fgtb (fmul w0 w2) f0 = true) by now rewrite fmul_pos.
    destruct (fill fcns cut datum (fmul w0 w1)) as [c1 [err|]] eqn:E;
      [discriminate|].
    pose proof (IH cut' datum _ _ Hc Hb P1 P2) as Hcut. rewrite E in Hcut.
    specialize (Hcut eq_refl). intros _.
    destruct (fill fcns cut' datum (fmul w0 w2)) as [c2 [err|]]; cbn in Hcut;
      [discriminate|reflexivity].
Qed.

Lemma fill_rollback fcns a : forall datum weight err,
  wf a -> nonneg_entries a ->
  (fill fcns a datum weight).2 = Some err ->
  (fill fcns a datum weight).1 = a.
Proof.
  induction a as [q e vs|q e m s|q e n IHn d IHd|q e cut IH];
    intros datum weight err Hwf Hnn; cbn [fill].
  - unfold Bag_fill. destruct (fgtb weight f0); [|discriminate].
    destruct (call fcns q datum); [|reflexivity].
    destruct (Bag_key a); [discriminate|reflexivity].
  - unfold Deviate_fill. destruct (fgtb weight f0) eqn:Hw; [|discriminate].
    destruct (call fcns q datum); [|reflexivity].
    destruct (as_real a); [|reflexivity].
    cbn [nonneg_entries] in Hnn. rewrite (fadd_pos_neq_0 e weight Hnn Hw).
    repeat match goal with
           | |- context [if ?b then _ else _] => destruct b
           end; discriminate.
  - destruct Hwf as (Hs & Hn & Hd). destruct Hnn as [Hnn Hnd].
    destruct (call fcns q datum) eqn:Hcall; [|reflexivity].
    destruct Hs as [Hq|Hs];
      [now rewrite (call_past_tense _ _ _ Hq) in Hcall|].
    destruct (as_real a) as [w0|]; [|reflexivity].
    destruct (fgtb weight f0) eqn:Hw.
    + destruct (fill fcns d datum weight) as [den [e1|]] eqn:E1.
      * cbn. intros _. specialize (IHd datum weight e1 Hd Hnd).
        rewrite E1 in IHd. cbn in IHd. now rewrite IHd.
      * destruct (fgtb (fmul w0 weight) f0) eqn:Hp; [|discriminate].
        pose proof (fill_ok_same_shape fcns d n datum weight (fmul w0 weight)
                      (same_shape_sym _ _ Hs) Hnn Hw Hp) as Hno.
        rewrite E1 in Hno. specialize (Hno eq_refl).
        destruct (fill fcns n datum (fmul w0 weight)) as [num' [e2|]];
          cbn in Hno; cbn; discriminate.
    + destruct (fgtb (fmul w0 weight) f0) eqn:Hp; [|discriminate].
      destruct (fill fcns n datum (fmul w0 weight)) as [num' [e2|]] eqn:E2;
        [|discriminate].
      cbn. intros _. specialize (IHn datum (fmul w0 weight) e2 Hn Hnn).
      rewrite E2 in IHn. cbn in IHn. now rewrite IHn.
  - cbn [wf] in Hwf. cbn [nonneg_entries] in Hnn.
    destruct (call fcns q datum); [|reflexivity].
    destruct (as_real a) as [w0|]; [|reflexivity].
    destruct (fgtb (fmul w0 weight) f0) eqn:Hp; [|discriminate].
    destruct (fill fcns cut datum (fmul w0 weight)) as [cut' [e2|]] eqn:E;
      [|discriminate].
    cbn. intros _. specialize (IH datum (fmul w0 weight) e2 Hwf Hnn).
    rewrite E in IH. cbn in IH. now rewrite IH.
Qed.

(** X11.  In exact arithmetic every exception rolls back.  With no
    rounding or underflow, and for extractors that return values of the
    model (no int too large for a float): on an aggregator tree (every
    Fraction in it either has two children of one shape or is past tense)
    none of whose Deviates has negative entries, whatever [fill] raises,
    from whichever node, the whole tree is as it was before the call.
    (With the products rounded it is not so:
    [Fraction_fill_TypeError_not_rolled_back].) *)
Theorem fill_exception_rollback fcns a datum weight a' err :
  wf a -> nonneg_entries a ->
  fill fcns a datum weight = (a', Some err) -> a' = a.
Proof.
  intros Hwf Hnn H.
  pose proof (fill_rollback fcns a datum weight err Hwf Hnn) as Hr.
  rewrite H in Hr. now apply Hr.
Qed.

Lemma fill_exception_rollback_witness :
  let past := mkUserFcn None None in
  let a := Fraction identity f1 (Select past f1 (Bag identity f0 ∅))
                    (Select past f2 (Bag identity f0 ∅)) in
  (fill sample_fcns a (VNum f1) f1).2 = Some PastTenseError
  /\ (fill sample_fcns a (VNum f1) f1).1 = a.
Proof.
  cbn zeta. split; [reflexivity|].
  apply (fill_exception_rollback sample_fcns
           (Fraction identity f1
              (Select (mkUserFcn None None) f1 (Bag identity f0 ∅))
              (Select (mkUserFcn None None) f2 (Bag identity f0 ∅)))
           (VNum f1) f1 _ PastTenseError).
  - cbn. auto.
  - cbn. auto.
  - reflexivity.
Defined.

(** ** Fraction: the numerator never holds more than the denominator *)

Lemma add_entries_same_kind n d : forall n' d' x y,
  same_kind n d = true -> add n n' = Ok x -> add d d' = Ok y ->
  (entries x = fadd (entries n) (entries n')
   /\ entries y = fadd (entries d) (entries d'))
  \/ (entries x = f0 /\ entries y = f0).
Proof.
  destruct n, d; cbn [same_kind]; try discriminate;
    intros [] [] x y _; cbn [add]; try discriminate.
  - intros [= <-] [= <-]. now left.
  - intros [= <-] [= <-]. now left.
  - destruct (add n1 numerator), (add n2 denominator); try discriminate.
    destruct (add d1 numerator0), (add d2 denominator0); try discriminate.
    intros [= <-] [= <-]. now right.
  - destruct (add n cut), (add d cut0); try discriminate.
    intros [= <-] [= <-]. now left.
Qed.

Lemma Fraction_inv_fill fcns c datum weight v w0 c' :
  Fraction_inv c -> 0 <= weight ->
  call fcns (quantity c) datum = Ok v -> as_real v = Some w0 ->
  fgtb w0 f1 = false ->
  fill fcns c datum (Finite weight) = (c', None) ->
  Fraction_inv c'.
Proof.
  intros (q & e & n & d & b & x & -> & Hs & Hn & Hd & Hb0 & Hle) Hw Hc Hr Hsel Hfill.
  cbn [quantity] in Hc. rewrite (fill_Fraction _ _ _ _ _ _ _ _ _ Hc Hr) in Hfill.
  destruct (fgtb (Finite weight) f0) eqn:Hpos.
  - pose proof (same_shape_fill fcns d datum (Finite weight)) as Sd.
    destruct (fill fcns d datum (Finite weight)) as [den [err|]] eqn:Hden;
      [discriminate|].
    cbn [fst] in Sd. apply fill_entries in Hden; [|exact Hpos].
    rewrite Hd in Hden. cbn [fadd] in Hden.
    assert (Hw' : 0 < weight) by now apply Qcltb_spec in Hpos.
    rewrite (fmul_pos w0 (Finite weight) Hpos) in Hfill.
    destruct (fgtb w0 f0) eqn:Hw0.
    + assert (P : fgtb (fmul w0 (Finite weight)) f0 = true) by now rewrite fmul_pos.
      pose proof (same_shape_fill fcns n datum (fmul w0 (Finite weight))) as Sn.
      destruct (fill fcns n datum (fmul w0 (Finite weight))) as [num' [err|]] eqn:Hnum;
        [discriminate|].
      cbn [fst] in Sn. apply fill_entries in Hnum; [|exact P]. rewrite Hn in Hnum.
      injection Hfill as <-.
      destruct w0 as [x0| | |]; cbn in Hw0, Hsel; try discriminate.
      cbn [fmul fadd] in Hnum. apply Qcltb_spec in Hw0.
      assert (Hx : x0 <= 1).
      { apply Qcnot_lt_le. intros Hlt. apply Qcltb_spec in Hlt. congruence. }
      exists q, (fadd e (Finite weight)), num', den, (b + x0 * weight), (x + weight).
      repeat split; [|exact Hnum|exact Hden| |].
      * apply same_shape_trans with n; [exact Sn|].
        apply same_shape_trans with d; [exact Hs|]. now apply same_shape_sym.
      * apply Qc_add_nonneg; [exact Hb0|].
        apply Qc_mul_nonneg; now apply Qclt_le_weak.
      * apply Qcplus_le_compat; [exact Hle|].
        rewrite <- (Qcmult_1_l weight) at 2.
        now apply Qcmult_le_compat_r.
    + injection Hfill as <-.
      exists q, (fadd e (Finite weight)), n, den, b, (x + weight).
      repeat split; [|exact Hn|exact Hden|exact Hb0|].
      * apply same_shape_trans with d; [exact Hs|]. now apply same_shape_sym.
      * apply Qcle_trans with x; [exact Hle|].
        rewrite <- (Qcplus_0_r x) at 1.
        apply Qcplus_le_compat; [apply Qcle_refl|exact Hw].
  - assert (Hw0 : weight = 0).
    { apply Qcle_antisym; [|exact Hw]. apply Qcnot_lt_le. intros L.
      apply Qcltb_spec in L. cbn in Hpos. congruence. }
    subst weight.
    assert (P : fgtb (fmul w0 (Finite 0)) f0 = false).
    { destruct w0 as [x0| | |]; cbn; try reflexivity.
      rewrite Qcmult_0_r. apply Qcltb_irrefl. }
    rewrite P in Hfill. injection Hfill as <-.
    exists q, (fadd e (Finite 0)), n, d, b, x. repeat split; assumption.
Qed.

Lemma Fraction_inv_add a b c :
  Fraction_inv a -> Fraction_inv b -> add a b = Ok c -> Fraction_inv c.
Proof.
  intros (q & e & n & d & y & x & -> & Hs & Hn & Hd & Hy0 & Hle)
         (q' & e' & n' & d' & y' & x' & -> & Hs' & Hn' & Hd' & Hy0' & Hle') Hadd.
  cbn [add] in Hadd.
  destruct (add n n') as [num'|] eqn:E1; [|discriminate].
  destruct (add d d') as [den|] eqn:E2; [|discriminate].
  cbn in Hadd. injection Hadd as <-.
  assert (Sh : same_shape num' den).
  { apply same_shape_trans with n; [now apply same_shape_add with n'|].
    apply same_shape_trans with d; [exact Hs|].
    apply same_shape_sym. now apply same_shape_add with d'. }
  destruct (add_entries_same_kind n d n' d' num' den
              (same_shape_same_kind _ _ Hs) E1 E2) as [[H1 H2]|[H1 H2]].
  - rewrite Hn, Hn' in H1. rewrite Hd, Hd' in H2. cbn [fadd] in H1, H2.
    exists q, f0, num', den, (y + y'), (x + x').
    repeat split; [exact Sh|exact H1|exact H2| |].
    + now apply Qc_add_nonneg.
    + now apply Qcplus_le_compat.
  - exists q, f0, num', den, 0, 0.
    repeat split; [exact Sh|exact H1|exact H2|apply Qcle_refl..].
Qed.

Lemma Fraction_reached_inv fcns c : Fraction_reached fcns c -> Fraction_inv c.
Proof.
  induction 1 as [q value|c datum weight v w0 c' _ IH Hw Hc Hr Hsel Hfill
                 |a b c _ IHa _ IHb Hadd].
  - exists (serializable q), f0, (zero value), (zero value), 0, 0.
    repeat split; try apply Qcle_refl.
    + apply same_shape_refl.
    + apply entries_zero.
    + apply entries_zero.
  - exact (Fraction_inv_fill fcns c datum weight v w0 c' IH Hw Hc Hr Hsel Hfill).
  - exact (Fraction_inv_add a b c IHa IHb Hadd).
Qed.

(** X12.  A Fraction reached from a constructed one by fills with finite
    weights [>= 0] at which the selector returns nothing greater than 1,
    and by combines, has [numerator.entries <= denominator.entries], both
    finite and not negative, and two children of one shape. *)
Theorem Fraction_numerator_le_denominator fcns c :
  Fraction_reached fcns c ->
  exists q e n d,
    c = Fraction q e n d /\ same_shape n d
    /\ fleb f0 (entries n) = true /\ fleb (entries n) (entries d) = true.
Proof.
  intros H.
  destruct (Fraction_reached_inv fcns c H)
    as (q & e & n & d & b & x & -> & Hs & Hn & Hd & Hb0 & Hle).
  exists q, e, n, d. rewrite Hn, Hd. unfold fleb. cbn [fltb feqb f0].
  repeat split; [exact Hs| |].
  - apply Qcle_lt_or_eq in Hb0 as [Hlt| <-].
    + apply Qcltb_spec in Hlt. now rewrite Hlt.
    + now rewrite Qceqb_refl, orb_true_r.
  - apply Qcle_lt_or_eq in Hle as [Hlt| ->].
    + apply Qcltb_spec in Hlt. now rewrite Hlt.
    + now rewrite Qceqb_refl, orb_true_r.
Qed.

Lemma Fraction_numerator_le_denominator_witness :
  exists q e n d,
    (fill sample_fcns (Fraction_init (Some is_positive) (Bag_init (Some identity)))
          (VNum f1) f2).1
    = Fraction q e n d /\ same_shape n d
    /\ fleb f0 (entries n) = true /\ fleb (entries n) (entries d) = true.
Proof.
  apply (Fraction_numerator_le_denominator sample_fcns).
  apply (Fraction_reached_fill sample_fcns
           (Fraction_init (Some is_positive) (Bag_init (Some identity)))
           (VNum f1) (Q2Qc 2) (VBool true) f1).
  - apply Fraction_reached_init.
  - discriminate.
  - reflexivity.
  - reflexivity.
  - reflexivity.
  - reflexivity.
Defined.

(** ** Fraction: entries and the denominator *)

Lemma fleb_0_not_pos w : fleb f0 w = true -> fgtb w f0 = false -> w = f0.
Proof.
  unfold fleb, fgtb. intros H Hn. rewrite Hn in H. cbn [orb] in H.
  destruct w as [a| | |]; cbn in H; try discriminate.
  apply Qceqb_spec in H. now subst a.
Qed.

Lemma Fraction_fill_denominator fcns q e n d datum w c' :
  entries d = e -> fleb f0 w = true ->
  fill fcns (Fraction q e n d) datum w = (c', None) ->
  exists n' d', c' = Fraction q (entries d') n' d'.
Proof.
  intros He Hw. cbn [fill].
  destruct (call fcns q datum); [|discriminate].
  destruct (as_real a) as [w0|]; [|discriminate].
  destruct (fgtb w f0) eqn:Hpos.
  - destruct (fill fcns d datum w) as [den [err|]] eqn:Hden; [discriminate|].
    apply fill_entries in Hden; [|exact Hpos].
    destruct (if fgtb (fmul w0 w) f0 then fill fcns n datum (fmul w0 w)
              else (n, None)) as [num' [err|]]; [discriminate|].
    intros [= <-]. exists num', den. now rewrite Hden, He.
  - rewrite (fleb_0_not_pos w Hw Hpos).
    destruct (if fgtb (fmul w0 f0) f0 then fill fcns n datum (fmul w0 f0)
              else (n, None)) as [num' [err|]]; [discriminate|].
    intros [= <-]. exists num', d. now rewrite fadd_0_r, He.
Qed.

(** X13.  Where a constructed Fraction is filled and never combined, with
    weights [>= 0] and no exception, its entries are the entries of its
    denominator. *)
Theorem Fraction_entries_are_denominator_entries fcns q value data c :
  Forall (fun dw => fleb f0 dw.2 = true) data ->
  fill_all fcns (Fraction_init q value) data = (c, None) ->
  exists q' n d, c = Fraction q' (entries d) n d.
Proof.
  intros Hall.
  assert (G : forall c0, (exists q0 n0 d0, c0 = Fraction q0 (entries d0) n0 d0) ->
                         fill_all fcns c0 data = (c, None) ->
                         exists q' n d, c = Fraction q' (entries d) n d).
  { induction Hall as [|[datum w] data Hw _ IH]; intros c0 H0; cbn [fill_all].
    - now intros [= <-].
    - destruct H0 as (q0 & n0 & d0 & ->). cbn [snd] in Hw.
      destruct (fill fcns (Fraction q0 (entries d0) n0 d0) datum w)
        as [c1 [err|]] eqn:E; [discriminate|].
      apply Fraction_fill_denominator in E as (n' & d' & ->);
        [|reflexivity|exact Hw].
      apply IH. now exists q0, n', d'. }
  apply G. exists (serializable q), (zero value), (zero value).
  unfold Fraction_init. now rewrite entries_zero.
Qed.

Lemma Fraction_entries_are_denominator_entries_witness :
  exists q' n d,
    (fill_all sample_fcns
       (Fraction_init (Some is_positive) (Deviate_init (Some identity)))
       [(VNum f1, f2); (VNum (num (-3)), f1)]).1
    = Fraction q' (entries d) n d.
Proof.
  apply (Fraction_entries_are_denominator_entries sample_fcns
           (Some is_positive) (Deviate_init (Some identity))
           [(VNum f1, f2); (VNum (num (-3)), f1)]).
  - repeat constructor.
  - reflexivity.
Defined.

(** ** Select: the fraction passing *)

Lemma reach_Select_inv fcns s :
  reach fcns (fun w0 => fgtb w0 f1 = false) s -> Select_inv s.
Proof.
  induction 1 as [q e cut|s datum weight v w0 s' _ IH Hw Hc Hr Hsel Hfill
                 |a b c _ IHa _ IHb Hadd].
  - exists q, 0, (zero cut), 0. repeat split.
    + apply entries_zero.
    + apply Qcle_refl.
    + apply Qcle_refl.
  - exact (Select_inv_fill fcns s datum weight v w0 s' IH Hw Hc Hr Hsel Hfill).
  - exact (Select_inv_add a b c IHa IHb Hadd).
Qed.

(** X14.  In exact arithmetic (no rounding, no overflow of the entries
    to an infinity), on a Select reached from a zero state by fills with
    finite weights [>= 0] at which the selector returns nothing greater
    than 1, and by combines, [fractionPassing] is a number between 0 and 1,
    or raises ZeroDivisionError; it raises exactly when [entries] is zero
    (as it is on a zero state). *)
Theorem fractionPassing_range fcns s :
  reach fcns (fun w0 => fgtb w0 f1 = false) s ->
  match fractionPassing s with
  | Ok r => exists x, r = Finite x /\ 0 <= x /\ x <= 1
            /\ feqb (entries s) f0 = false
  | Raise e => e = ZeroDivisionError /\ entries s = f0
  end.
Proof.
  intros H. destruct (reach_Select_inv fcns s H)
    as (q & a & cut & b & -> & Hb & Hb0 & Hle).
  cbn [fractionPassing entries]. unfold f0 at 1. cbn [feqb].
  destruct (Qceqb a 0) eqn:E.
  - apply Qceqb_spec in E. now subst a.
  - rewrite Hb. cbn [fdiv]. rewrite E.
    assert (Pa : 0 < a).
    { destruct (Qcle_lt_or_eq _ _ (Qcle_trans _ _ _ Hb0 Hle)) as [P|P];
        [exact P|]. subst a. now rewrite Qceqb_refl in E. }
    exists (b / a). split; [reflexivity|]. split; [|split].
    + now apply Qc_div_nonneg.
    + apply (Qcmult_lt_0_le_reg_r _ _ a Pa).
      replace (b / a * a) with b by (field; now apply Qc_pos_neq).
      now rewrite Qcmult_1_l.
    + exact E.
Qed.

Lemma fractionPassing_range_witness :
  match fractionPassing
          (Select identity f1 (Deviate identity (frac 1 2) (frac 1 2) f0)) with
  | Ok r => exists x, r = Finite x /\ 0 <= x /\ x <= 1
            /\ feqb (entries (Select identity f1
                                (Deviate identity (frac 1 2) (frac 1 2) f0))) f0
               = false
  | Raise e => e = ZeroDivisionError
               /\ entries (Select identity f1
                             (Deviate identity (frac 1 2) (frac 1 2) f0)) = f0
  end.
Proof.
  apply (fractionPassing_range sample_fcns).
  eapply (reach_fill _ _ (zero (Select identity f0 (Deviate_init (Some identity))))
            (VNum (frac 1 2)) 1 (VNum (frac 1 2)) (frac 1 2)).
  - apply reach_zero.
  - discriminate.
  - reflexivity.
  - reflexivity.
  - reflexivity.
  - cbn. unfold Deviate_fill. cbn.
    repeat f_equal; apply Qc_is_canon; reflexivity.
Defined.

(** ** The readers *)

Lemma value_ind' (P : value -> Prop) :
  P VNone -> (forall b, P (VBool b)) -> (forall x, P (VNum x)) ->
  (forall s, P (VStr s)) ->
  (forall l, Forall P l -> P (VList l)) ->
  (forall d, Forall (fun p => P p.2) d -> P (VDict d)) ->
  forall v, P v.
Proof.
  intros HN HB HX HS HL HD. fix IH 1. intros [|b|x|s|l|d].
  - exact HN.
  - apply HB.
  - apply HX.
  - apply HS.
  - apply HL. induction l as [|v l IHl]; constructor; [apply IH|exact IHl].
  - apply HD. induction d as [|[k v] d IHd]; constructor; [apply IH|exact IHd].
Qed.

Lemma fromJsonFragment_unfold json tag nfp :
  fromJsonFragment json tag nfp =
    if String.eqb tag "Bag" then Bag_fromJsonFragment json nfp
    else if String.eqb tag "Deviate" then Deviate_fromJsonFragment json nfp
    else
      match json with
      | VDict d =>
          let sub := map (fun p => match p with
                                   | (k, v) => (k, fromJsonFragment v)
                                   end) d in
          if String.eqb tag "Fraction" then
            Fraction_fromJsonFragment sub d nfp
          else if String.eqb tag "Select" then
            Select_fromJsonFragment sub d nfp
          else Raise KeyError
      | _ => if registered tag then Raise JsonFormatException
             else Raise KeyError
      end.
Proof. destruct json; reflexivity. Qed.

Lemma child_In (d : list (string * value)) k tag nfp c :
  child (map (fun p => match p with (k, v) => (k, fromJsonFragment v) end) d)
        k tag nfp = Ok c ->
  exists kv, kv ∈ d /\ fromJsonFragment kv.2 tag nfp = Ok c.
Proof.
  unfold child. induction d as [|[k' v'] d IH]; cbn; [discriminate|].
  destruct (String.eqb k' k).
  - cbn. intros H. exists (k', v'). split; [left|exact H].
  - intros H. destruct (IH H) as (kv & Hin & Hkv). exists kv. split; [now right|exact Hkv].
Qed.

Lemma every_with_name out n nfp :
  every as_read out -> every as_read (with_name out n nfp).
Proof.
  destruct out; cbn; unfold as_read; cbn; tauto.
Qed.

Lemma Bag_fromJsonFragment_as_read json nfp c :
  Bag_fromJsonFragment json nfp = Ok c -> every as_read c.
Proof.
  unfold Bag_fromJsonFragment. intros H. destruct json; try discriminate H.
  destruct (hasKeys _ _ _); [|discriminate H].
  repeat inv_bind H. injection H as <-. apply every_with_name.
  unfold Bag_ed in *.
  match goal with
  | E : (if fltb ?x f0 then _ else _) = Ok _ |- _ =>
      destruct (fltb x f0) eqn:Hneg; [discriminate E|injection E as <-]
  end.
  cbn. unfold as_read. cbn. auto.
Qed.

Lemma Deviate_fromJsonFragment_as_read json nfp c :
  Deviate_fromJsonFragment json nfp = Ok c -> every as_read c.
Proof.
  unfold Deviate_fromJsonFragment. intros H. destruct json; try discriminate H.
  destruct (hasKeys _ _ _); [|discriminate H].
  repeat inv_bind H. injection H as <-. apply every_with_name.
  unfold Deviate_ed in *.
  match goal with
  | E : (if fltb ?x f0 then _ else _) = Ok _ |- _ =>
      destruct (fltb x f0) eqn:Hneg; [discriminate E|injection E as <-]
  end.
  cbn. unfold as_read. cbn. auto.
Qed.

Lemma fromJsonFragment_as_read json : forall tag nfp c,
  fromJsonFragment json tag nfp = Ok c -> every as_read c.
Proof.
  induction json as [|b|x|s|l _|d IH] using value_ind';
    intros tag nfp c H; rewrite fromJsonFragment_unfold in H;
    (destruct (String.eqb tag "Bag") eqn:E1;
     [exact (Bag_fromJsonFragment_as_read _ nfp c H)|]);
    (destruct (String.eqb tag "Deviate") eqn:E2;
     [exact (Deviate_fromJsonFragment_as_read _ nfp c H)|]);
    try (destruct (registered tag); discriminate H).
  cbn zeta in H. rewrite Forall_forall in IH.
  destruct (String.eqb tag "Fraction") eqn:E3.
  - unfold Fraction_fromJsonFragment in H.
    destruct (hasKeys _ _ _); [|discriminate H].
    repeat inv_bind H. injection H as <-. apply every_with_name.
    unfold Fraction_ed in *.
    match goal with
    | E : (if fltb ?x f0 then _ else _) = Ok _ |- _ =>
        destruct (fltb x f0) eqn:Hneg; [discriminate E|injection E as <-]
    end.
    repeat match goal with
           | E : child _ _ _ _ = Ok _ |- _ =>
               apply child_In in E as (kv & Hin & E);
               apply (IH _ Hin) in E; clear kv Hin
           end.
    cbn. unfold as_read at 1. cbn. auto.
  - destruct (String.eqb tag "Select") eqn:E4; [|discriminate H].
    unfold Select_fromJsonFragment in H.
    destruct (hasKeys _ _ _); [|discriminate H].
    repeat inv_bind H. injection H as <-. apply every_with_name.
    unfold Select_ed in *.
    match goal with
    | E : (if fltb ?x f0 then _ else _) = Ok _ |- _ =>
        destruct (fltb x f0) eqn:Hneg; [discriminate E|injection E as <-]
    end.
    repeat match goal with
           | E : child _ _ _ _ = Ok _ |- _ =>
               apply child_In in E as (kv & Hin & E);
               apply (IH _ Hin) in E; clear kv Hin
           end.
    cbn. unfold as_read at 1. cbn. auto.
Qed.

(** X15.  What a reader returns.  Whenever [fromJsonFragment] returns an
    aggregator, for any document and any registered tag, it is of the
    primitive the tag names; at every node of it the quantity has no
    extractor and the entries are not negative; and it cannot be filled:
    every [fill] that calls its extractor raises and leaves it as it is. *)
Theorem fromJsonFragment_past_tense json tag nfp c :
  fromJsonFragment json tag nfp = Ok c ->
  factory_name c = tag
  /\ every as_read c
  /\ forall fcns datum weight,
       calls_extractor c weight ->
       fill fcns c datum weight = (c, Some PastTenseError).
Proof.
  intros H. pose proof (fromJsonFragment_as_read json tag nfp c H) as He.
  split; [exact (fromJsonFragment_factory_name json tag nfp c H)|].
  split; [exact He|].
  intros fcns datum weight Hw.
  destruct c as [q e vs|q e m s|q e n d|q e cut]; destruct He as [[Hq _] _];
    cbn [quantity] in Hq; cbn [calls_extractor] in Hw; cbn [fill].
  - unfold Bag_fill. now rewrite Hw, (call_past_tense _ _ _ Hq).
  - unfold Deviate_fill. now rewrite Hw, (call_past_tense _ _ _ Hq).
  - now rewrite (call_past_tense _ _ _ Hq).
  - now rewrite (call_past_tense _ _ _ Hq).
Qed.

Lemma fromJsonFragment_past_tense_witness :
  let c := Select (mkUserFcn None None) f2
             (Deviate (mkUserFcn None None) f1 f2 f0) in
  factory_name c = "Select"%string
  /\ every as_read c
  /\ forall fcns datum weight,
       calls_extractor c weight ->
       fill fcns c datum weight = (c, Some PastTenseError).
Proof.
  apply (fromJsonFragment_past_tense
           (VDict [("entries", VNum f2); ("type", VStr "Deviate");
                   ("data", VDict [("entries", VNum f1); ("mean", VNum f2);
                                   ("variance", VNum f0)])])
           "Select" None).
  vm_compute. repeat f_equal; apply Qc_is_canon; reflexivity.
Defined.
(** ** Deviate: what the reader raises *)

Lemma hasKeys_get d required optional k :
  hasKeys (keys d) required optional = true -> In k required ->
  exists v, get d k = Some v.
Proof.
  unfold hasKeys. intros H Hk. apply andb_true_iff in H as [H _].
  rewrite forallb_forall in H. specialize (H k Hk).
  unfold mem, keys in H. unfold get.
  induction d as [|[k' v'] d IH]; cbn in *; [discriminate|].
  rewrite (String.eqb_sym k' k).
  destruct (String.eqb k k'); cbn in *; eauto.
Qed.

Lemma python_float_number_or_sentinel v :
  number_or_sentinel v = true -> exists x, python_float v = Ok x.
Proof.
  unfold python_float. destruct v as [|b|x|s|l|d]; cbn; try discriminate.
  - destruct b; eauto.
  - eauto.
  - destruct (String.eqb s "nan"); [eauto|].
    destruct (String.eqb s "inf"); [eauto|].
    destruct (String.eqb s "-inf"); [eauto|discriminate].
Qed.

Lemma float_field_present d k v :
  get d k = Some v ->
  (exists x, float_field d k = Ok x)
  \/ float_field d k = Raise JsonFormatException.
Proof.
  unfold float_field, required. intros ->. cbn [mbind result_bind].
  destruct (number_or_sentinel v) eqn:E; [left|now right].
  now apply python_float_number_or_sentinel.
Qed.

Lemma optional_string_raises d k :
  (exists n, optional_string d k = Ok n)
  \/ optional_string d k = Raise JsonFormatException.
Proof.
  unfold optional_string. destruct (get d k) as [[| | |s| |]|]; eauto.
Qed.

(** X16.  What the reader of Deviate raises, on documents whose numbers
    are floats, booleans or ints that a float holds (an int too large for
    a float is not a value of the model).
    - It raises JsonFormatException or ValueError and nothing else, and no
      key is looked up that is not there; it raises ValueError only on a
      dict whose "entries" is a negative number.
    - On a well-formed document (a dict with "entries", "mean",
      "variance" and no key other than these and "name", a number or
      "nan", "inf", "-inf" under each of the three, a string or None under
      "name") it raises ValueError exactly when the entries are negative,
      and otherwise returns the Deviate with those entries and that mean,
      whose variance times the entries is its varianceTimesEntries. *)
Theorem Deviate_fromJsonFragment_raises json nfp :
  (forall e, Deviate_fromJsonFragment json nfp = Raise e ->
             e = JsonFormatException
             \/ (e = ValueError
                 /\ exists d x, json = VDict d
                                /\ float_field d "entries" = Ok x
                                /\ fltb x f0 = true))
  /\ (forall d x n m v,
        json = VDict d ->
        hasKeys (keys d) ["entries"; "mean"; "variance"] ["name"] = true ->
        float_field d "entries" = Ok x -> optional_string d "name" = Ok n ->
        float_field d "mean" = Ok m -> float_field d "variance" = Ok v ->
        Deviate_fromJsonFragment json nfp
        = if fltb x f0 then Raise ValueError
          else Ok (with_name (Deviate (serializable None) x m (fmul v x))
                             n nfp)).
Proof.
  split.
  - intros e. unfold Deviate_fromJsonFragment.
    destruct json as [|b|x|s|l|d]; try (intros [= <-]; now left).
    destruct (hasKeys _ _ _) eqn:Hk; [|intros [= <-]; now left].
    destruct (hasKeys_get d _ _ "entries" Hk) as [v1 G1]; [cbn; auto|].
    destruct (hasKeys_get d _ _ "mean" Hk) as [v2 G2]; [cbn; auto|].
    destruct (hasKeys_get d _ _ "variance" Hk) as [v3 G3]; [cbn; auto|].
    destruct (float_field_present d _ _ G1) as [[x1 F1]|F1]; rewrite F1;
      cbn [mbind result_bind]; [|intros [= <-]; now left].
    destruct (optional_string_raises d "name") as [[n ->]| ->];
      cbn [mbind result_bind]; [|intros [= <-]; now left].
    destruct (float_field_present d _ _ G2) as [[x2 ->]| ->];
      cbn [mbind result_bind]; [|intros [= <-]; now left].
    destruct (float_field_present d _ _ G3) as [[x3 ->]| ->];
      cbn [mbind result_bind]; [|intros [= <-]; now left].
    unfold Deviate_ed. destruct (fltb x1 f0) eqn:Hneg; cbn [mbind result_bind].
    + intros [= <-]. right. split; [reflexivity|]. exists d, x1. auto.
    + discriminate.
  - intros d x n m v -> Hk Hx Hn Hm Hv. unfold Deviate_fromJsonFragment.
    rewrite Hk, Hx. cbn [mbind result_bind]. rewrite Hn. cbn [mbind result_bind].
    rewrite Hm. cbn [mbind result_bind]. rewrite Hv. cbn [mbind result_bind].
    unfold Deviate_ed. now destruct (fltb x f0).
Qed.

Lemma Deviate_fromJsonFragment_raises_witness :
  Deviate_fromJsonFragment
    (VDict [("entries", VNum (num (-1))); ("mean", VNum f0);
            ("variance", VNum f0)]) None
  = Raise ValueError
  /\ Deviate_fromJsonFragment
       (VDict [("entries", VNum f2); ("mean", VNum f1);
               ("variance", VNum f1)]) None
     = Ok (Deviate (mkUserFcn None None) f2 f1 (fmul f1 f2)).
Proof.
  split.
  - exact (proj2 (Deviate_fromJsonFragment_raises
                    (VDict [("entries", VNum (num (-1))); ("mean", VNum f0);
                            ("variance", VNum f0)]) None)
                 _ (num (-1)) None f0 f0 eq_refl eq_refl eq_refl eq_refl
                 eq_refl eq_refl).
  - exact (proj2 (Deviate_fromJsonFragment_raises
                    (VDict [("entries", VNum f2); ("mean", VNum f1);
                            ("variance", VNum f1)]) None)
                 _ f2 None f1 f1 eq_refl eq_refl eq_refl eq_refl
                 eq_refl eq_refl).
Defined.

(** ** Bag: items of a document that share a key *)

Lemma Bag_json_values_other l : forall (acc values : gmap key float) k,
  Bag_json_values l acc = Ok values ->
  Forall (fun nv => forall k' n', Bag_json_item nv = Ok (k', n') -> k' <> k) l ->
  values !! k = acc !! k.
Proof.
  induction l as [|nv l IH]; intros acc values k H Hall; cbn [Bag_json_values] in H.
  - now injection H as <-.
  - apply Forall_cons in Hall as [Hnv Hall].
    destruct (Bag_json_item nv) as [[k' n']|] eqn:E; [|discriminate H].
    cbn [mbind result_bind fst snd] in H.
    rewrite (IH _ _ k H Hall). apply lookup_insert_ne. exact (Hnv k' n' eq_refl).
Qed.

(** X17.  In the document of a Bag the last item of a key wins: where two
    items of ["values"] carry one key (without NaN), the Bag read has the
    weight of the later one under it; the weights are not added up. *)
Theorem Bag_json_values_last_wins l1 nv l2 (values : gmap key float) k n :
  nan_free k = true ->
  Bag_json_values (l1 ++ nv :: l2) ∅ = Ok values ->
  Bag_json_item nv = Ok (k, n) ->
  Forall (fun nv' => forall k' n', Bag_json_item nv' = Ok (k', n') -> k' <> k) l2 ->
  values !! k = Some n.
Proof.
  intros _. generalize (∅ : gmap key float).
  induction l1 as [|nv1 l1 IH]; intros acc H Hnv Hall;
    cbn [app Bag_json_values] in H.
  - rewrite Hnv in H. cbn [mbind result_bind fst snd] in H.
    rewrite (Bag_json_values_other l2 _ _ k H Hall). apply lookup_insert_eq.
  - destruct (Bag_json_item nv1) as [kn|]; [|discriminate H].
    cbn [mbind result_bind] in H. exact (IH _ H Hnv Hall).
Qed.

Lemma Bag_json_values_last_wins_witness :
  (<[KStr "a" := f2]> (<[KStr "a" := f1]> (∅ : gmap key float)))
    !! KStr "a" = Some f2.
Proof.
  apply (Bag_json_values_last_wins
           [VDict [("w", VNum f1); ("v", VStr "a")]]
           (VDict [("w", VNum f2); ("v", VStr "a")]) []).
  - reflexivity.
  - reflexivity.
  - reflexivity.
  - constructor.
Defined.

(** ** Deviate: the variance and its setter *)

(** X18.  Setting the variance of a Deviate and reading it gives the value
    set, whatever the value (NaN and the infinities included), when the
    entries are finite and not zero (in exact arithmetic). *)
Theorem variance_setter_getter e value :
  isfinite e = true -> feqb e f0 = false ->
  variance e (variance_setter e value) = value.
Proof.
  destruct e as [a| | |]; try discriminate. intros _ Ha.
  unfold variance, variance_setter. rewrite Ha. cbn [feqb f0] in Ha.
  assert (Hne : a <> 0) by (intros ->; now rewrite Qceqb_refl in Ha).
  destruct value as [v| | |]; cbn [fmul fdiv]; try reflexivity.
  - rewrite Ha. f_equal. now field.
  - unfold inf_times. rewrite Ha. destruct (Qcltb 0 a) eqn:E;
      cbn [Bool.eqb fdiv]; rewrite Ha; unfold inf_times; rewrite Ha, E;
      reflexivity.
  - unfold inf_times. rewrite Ha. destruct (Qcltb 0 a) eqn:E;
      cbn [Bool.eqb fdiv]; rewrite Ha; unfold inf_times; rewrite Ha, E;
      reflexivity.
Qed.

Lemma variance_setter_getter_witness :
  variance f2 (variance_setter f2 PInf) = PInf.
Proof.
  apply variance_setter_getter; reflexivity.
Defined.

(** ** Zero *)

(** X19.  The zero of an aggregator is its own zero, and the sum of two
    zeros is the zero: for every tree, [zero] is idempotent and
    [c.zero() + c.zero()] is [c.zero()]. *)
Theorem zero_add_zero c :
  zero (zero c) = zero c /\ add (zero c) (zero c) = Ok (zero c).
Proof.
  induction c as [q e vs|q e m s|q e n [IHn1 IHn2] d [IHd1 IHd2]|q e cut [IH1 IH2]];
    cbn [zero Bag_init Deviate_init Select_init serializable add].
  - split; [reflexivity|]. now rewrite fadd_0_r, Bag_add_values_empty_r.
  - split; [reflexivity|]. unfold f0.
    rewrite Deviate_add_mean_finite, Deviate_add_vte_finite. cbn [fadd].
    apply Deviate_finite_ext; apply Qc_is_canon; reflexivity.
  - rewrite IHn1, IHd1, IHn2, IHd2. split; reflexivity.
  - rewrite IH1, IH2. cbn [mbind result_bind]. now rewrite fadd_0_r.
Qed.

(** ** A stream of fills keeps the shape *)

Lemma fill_all_same_shape fcns data : forall c,
  same_shape (fill_all fcns c data).1 c.
Proof.
  induction data as [|[datum w] data IH]; intros c; cbn [fill_all].
  - apply same_shape_refl.
  - pose proof (same_shape_fill fcns c datum w) as Hs.
    destruct (fill fcns c datum w) as [c' [err|]]; cbn [fst] in *; [exact Hs|].
    apply same_shape_trans with c'; [apply IH|exact Hs].
Qed.

Lemma fill_all_wf fcns data : forall c, wf c -> wf (fill_all fcns c data).1.
Proof.
  induction data as [|[datum w] data IH]; intros c Hc; cbn [fill_all].
  - exact Hc.
  - pose proof (wf_fill fcns c datum w Hc) as Hw.
    destruct (fill fcns c datum w) as [c' [err|]]; cbn [fst] in *; [exact Hw|].
    now apply IH.
Qed.

(** X20.  Filling never changes the shape of a tree.  After any stream of
    fills, whether it ends in an exception or not, the tree holds the same
    primitives with the same quantities at the same places, and every
    Fraction of it still has two children of one shape (or is past
    tense). *)
Theorem fill_all_keeps_shape fcns c data :
  wf c ->
  same_shape (fill_all fcns c data).1 c /\ wf (fill_all fcns c data).1.
Proof.
  intros H. split; [apply fill_all_same_shape|now apply fill_all_wf].
Qed.

Lemma fill_all_keeps_shape_witness :
  let c := Fraction_init (Some is_positive)
             (Select_init (Some identity) (Deviate_init (Some returns_None))) in
  let data := [(VNum (num (-1)), f1); (VNum f1, f1)] in
  same_shape (fill_all sample_fcns c data).1 c
  /\ wf (fill_all sample_fcns c data).1.
Proof.
  apply fill_all_keeps_shape. cbn. repeat split. right. repeat split.
Defined.

(** ** Bag: the items written *)

Lemma map_to_list_nan (values : gmap key float) :
  map_to_list values
  ≡ₚ filter (fun x : key * float => x.1 <> KStr "nan") (map_to_list values)
     ++ match values !! KStr "nan" with
        | Some n => [(KStr "nan", n)]
        | None => []
        end.
Proof.
  destruct (values !! KStr "nan") as [n|] eqn:E.
  - rewrite <- (insert_delete_id values (KStr "nan") n E) at 1 2.
    rewrite map_to_list_insert by apply lookup_delete_eq.
    rewrite filter_cons_False by (cbn; auto).
    rewrite filter_all; [apply Permutation_cons_append|].
    apply Forall_forall. intros [k x] Hin. cbn.
    apply elem_of_map_to_list in Hin. intros ->.
    now rewrite lookup_delete_eq in Hin.
  - rewrite app_nil_r, filter_all; [reflexivity|].
    apply Forall_forall. intros [k x] Hin. cbn.
    apply elem_of_map_to_list in Hin. intros ->. congruence.
Qed.

(** X21.  A Bag is written whole: the list of items [toJsonFragment]
    writes, sorted with the key "nan" moved to the end, holds every item
    of the Bag exactly once. *)
Theorem Bag_aslist_Permutation_all (values : gmap key float) :
  Bag_aslist values ≡ₚ map_to_list values.
Proof.
  unfold Bag_aslist, sorted_items, sorted.
  rewrite merge_sort_Permutation. symmetry. apply map_to_list_nan.
Qed.

(** ** Filling a stream is adding its aggregator *)

Lemma counting_regular c : counting c -> regular c = true.
Proof. induction c; cbn; auto; contradiction. Qed.

Lemma counting_Deviate_positive c : counting c -> Deviate_positive c.
Proof. induction c; cbn; auto; contradiction. Qed.

Lemma counting_same_shape a : forall b, same_shape a b -> counting a -> counting b.
Proof.
  induction a; intros []; cbn; try tauto. intros [_ H]. now apply IHa.
Qed.

Lemma zero_same_shape a : forall b, same_shape a b -> zero a = zero b.
Proof.
  induction a; intros []; cbn; try tauto.
  - now intros ->.
  - now intros ->.
  - intros (-> & H1 & H2). now rewrite (IHa1 _ H1), (IHa2 _ H2).
  - intros (-> & H1). now rewrite (IHa _ H1).
Qed.

Lemma fill_raises_same_shape fcns a : forall b datum w,
  counting a -> same_shape a b ->
  (fill fcns a datum w).2 = (fill fcns b datum w).2.
Proof.
  induction a as [q e vs|q e m s|q e n IHn d IHd|q e cut IH];
    intros [q' e' vs'|q' e' m' s'|q' e' n' d'|q' e' cut'] datum w Hc Hs;
    cbn [same_shape counting] in Hs, Hc; try contradiction; cbn [fill].
  - subst q'. unfold Bag_fill. destruct (fgtb w f0); [|reflexivity].
    destruct (call fcns q datum); [|reflexivity].
    destruct (Bag_key a); reflexivity.
  - destruct Hs as [<- Hs].
    destruct (call fcns q datum); [|reflexivity].
    destruct (as_real a) as [w0|]; [|reflexivity].
    destruct (fgtb (fmul w0 w) f0); [|reflexivity].
    specialize (IH cut' datum (fmul w0 w) Hc Hs).
    destruct (fill fcns cut datum (fmul w0 w)) as [c1 [e1|]],
             (fill fcns cut' datum (fmul w0 w)) as [c2 [e2|]];
      cbn [snd] in *; congruence.
Qed.

Lemma fill_all_raises_same_shape fcns data : forall a b,
  counting a -> same_shape a b ->
  (fill_all fcns a data).2 = (fill_all fcns b data).2.
Proof.
  induction data as [|[datum w] data IH]; intros a b Hc Hs; cbn [fill_all];
    [reflexivity|].
  pose proof (fill_raises_same_shape fcns a b datum w Hc Hs) as Hr.
  pose proof (same_shape_fill fcns a datum w) as Sa.
  pose proof (same_shape_fill fcns b datum w) as Sb.
  destruct (fill fcns a datum w) as [a' [e1|]], (fill fcns b datum w) as [b' [e2|]];
    cbn [fst snd] in *; try congruence.
  apply IH.
  - apply (counting_same_shape a); [now apply same_shape_sym|exact Hc].
  - apply same_shape_trans with a; [exact Sa|].
    apply same_shape_trans with b; [exact Hs|now apply same_shape_sym].
Qed.

Lemma fill_is_add_counting fcns c : forall datum w c',
  counting c ->
  fill fcns c datum w = (c', None) ->
  exists z, fill fcns (zero c) datum w = (z, None) /\ add c z = Ok c'.
Proof.
  induction c as [q e vs|q e m s|q e n IHn d IHd|q e cut IH];
    intros datum w c' Hc; cbn [counting] in Hc; try contradiction;
    cbn [fill zero Bag_init Select_init serializable].
  - unfold Bag_fill. destruct (fgtb w f0).
    + destruct (call fcns q datum) as [v|]; [|discriminate].
      destruct (Bag_key v) as [k|]; [|discriminate].
      intros [= <-]. eexists. split; [reflexivity|]. cbn [add serializable].
      do 2 f_equal.
      * now rewrite fadd_0_l.
      * unfold values_update at 1. rewrite lookup_empty, insert_empty.
        apply Bag_add_values_singleton.
    + intros [= <-]. eexists. split; [reflexivity|]. cbn [add serializable].
      now rewrite fadd_0_r, Bag_add_values_empty_r.
  - destruct (call fcns q datum) as [v|]; [|discriminate].
    destruct (as_real v) as [w0|]; [|discriminate].
    destruct (fgtb (fmul w0 w) f0).
    + destruct (fill fcns cut datum (fmul w0 w)) as [cut' [err|]] eqn:E;
        [discriminate|].
      intros [= <-]. destruct (IH datum (fmul w0 w) cut' Hc E) as (z & Hz & Hadd).
      rewrite Hz. eexists. split; [reflexivity|]. cbn [add serializable].
      rewrite Hadd. cbn [mbind result_bind]. now rewrite fadd_0_l.
    + intros [= <-]. eexists. split; [reflexivity|]. cbn [add serializable].
      rewrite (add_zero_r cut (counting_regular cut Hc)).
      cbn [mbind result_bind]. now rewrite fadd_0_l.
Qed.

(** X22.  Aggregations merge, in exact arithmetic (no rounding).  On a
    tree of Bags and Selects, filling a stream of data into an aggregator
    is adding to it the aggregator of the stream alone: where the fills of [data] into [S] do not raise, neither
    do the fills of [data] into [S.zero()], and [S] plus their result is
    what the fills into [S] leave.  Two parts of a stream can be
    aggregated apart and combined. *)
Theorem fill_all_is_add fcns S data r :
  counting S ->
  fill_all fcns S data = (r, None) ->
  exists b, fill_all fcns (zero S) data = (b, None) /\ add S b = Ok r.
Proof.
  revert S r.
  induction data as [|[datum w] data IH]; intros S r Hc; cbn [fill_all].
  - intros [= <-]. exists (zero S). split; [reflexivity|].
    apply add_zero_r, counting_regular, Hc.
  - destruct (fill fcns S datum w) as [S' [err|]] eqn:E; [discriminate|].
    intros Hrest.
    destruct (fill_is_add_counting fcns S datum w S' Hc E) as (Z & HZ & Hadd).
    rewrite HZ.
    assert (SS' : same_shape S' S).
    { pose proof (same_shape_fill fcns S datum w) as H. now rewrite E in H. }
    assert (SZ : same_shape Z S').
    { pose proof (same_shape_fill fcns (zero S) datum w) as H. rewrite HZ in H.
      apply same_shape_trans with (zero S); [exact H|].
      apply same_shape_trans with S; [apply same_shape_zero|].
      now apply same_shape_sym. }
    assert (Hc' : counting S').
    { apply (counting_same_shape S); [now apply same_shape_sym|exact Hc]. }
    assert (HcZ : counting Z).
    { apply (counting_same_shape S'); [now apply same_shape_sym|exact Hc']. }
    destruct (IH S' r Hc' Hrest) as (b' & Hb' & Hadd').
    pose proof (fill_all_raises_same_shape fcns data Z S' HcZ SZ) as Hr.
    rewrite Hrest in Hr. cbn [snd] in Hr.
    destruct (fill_all fcns Z data) as [b [err|]] eqn:EZ; [discriminate Hr|].
    destruct (IH Z b HcZ EZ) as (bz & Hbz & Haddz).
    rewrite (zero_same_shape Z S' SZ), Hb' in Hbz. injection Hbz as <-.
    exists b. split; [reflexivity|].
    rewrite <- Hadd'. symmetry.
    apply (add_assoc_Ok S Z b' S' b); auto using counting_Deviate_positive.
    apply counting_Deviate_positive.
    pose proof (fill_all_same_shape fcns data (zero S')) as H.
    rewrite Hb' in H. cbn [fst] in H.
    apply (counting_same_shape S'); [|exact Hc'].
    apply same_shape_sym. apply same_shape_trans with (zero S'); [exact H|].
    apply same_shape_zero.
Qed.

Lemma fill_all_is_add_witness :
  let S := Select is_positive f1 (Bag identity f1 {[ KNum f2 := f1 ]}) in
  let data := [(VNum f2, f1); (VNum (num (-1)), f2); (VNum f1, f1)] in
  exists b, fill_all sample_fcns (zero S) data = (b, None)
            /\ add S b = Ok (fill_all sample_fcns S data).1.
Proof.
  apply (fill_all_is_add sample_fcns
           (Select is_positive f1 (Bag identity f1 {[ KNum f2 := f1 ]}))
           [(VNum f2, f1); (VNum (num (-1)), f2); (VNum f1, f1)]).
  - exact I.
  - reflexivity.
Defined.

(** ** Deviate: aggregations merge *)

Lemma sum_w_nonneg data : Forall (fun p => 0 < p.2) data -> 0 <= sum_w data.
Proof.
  induction 1 as [|[x w] l Hw _ IH]; [apply Qcle_refl|].
  cbn [sum_w foldr snd]. apply Qc_add_nonneg; [now apply Qclt_le_weak|exact IH].
Qed.

(** X23.  Aggregations merge, for Deviate.  On a finite state with
    non-negative entries, filling a non-empty stream of finite numbers
    with finite positive weights is adding the Deviate of the stream
    alone: the mean and the variance of the whole are those of the two
    parts combined (in exact arithmetic). *)
Theorem Deviate_fill_all_is_add fcns q e m s data :
  (forall x, call fcns q (VNum (Finite x)) = Ok (VNum (Finite x))) ->
  0 <= e -> data <> [] -> Forall (fun p => 0 < p.2) data ->
  let S := Deviate q (Finite e) (Finite m) (Finite s) in
  exists r b,
    fill_all fcns S (numbers data) = (r, None)
    /\ fill_all fcns (zero S) (numbers data) = (b, None)
    /\ add S b = Ok r.
Proof.
  intros Hid He Hne Hall S. subst S.
  destruct (Deviate_fill_all_moments_from fcns q Hid data e m s He Hall)
    as (e1 & m1 & s1 & Hrun1 & A0 & A1 & A2).
  destruct (Deviate_fill_all_moments_from fcns q Hid data 0 0 0 (Qcle_refl 0) Hall)
    as (e2 & m2 & s2 & Hrun2 & B0 & B1 & B2).
  cbn [zero]. unfold Deviate_init, serializable, f0.
  rewrite Hrun1, Hrun2. eexists _, _. split; [reflexivity|]. split; [reflexivity|].
  cbn [add serializable].
  rewrite Deviate_add_mean_finite, Deviate_add_vte_finite. cbn [fadd].
  pose proof (sum_w_pos data Hne Hall) as PW.
  pose proof (Qc_pos_neq _ PW) as NW.
  pose proof (Qc_pos_neq _ (Qc_add_nonneg_pos _ _ He PW)) as NeW.
  rewrite Qcplus_0_l in B0. subst e1 e2.
  assert (Hm2 : m2 = sum_wx data / sum_w data).
  { rewrite <- (Qcplus_0_l (sum_wx data)), <- (Qcmult_0_l 0), <- B1. now field. }
  assert (Hm1 : m1 = (m * e + sum_wx data) / (e + sum_w data)).
  { rewrite <- A1. now field. }
  assert (Hs2 : s2 = sum_wxx data - m2 * (m2 * sum_w data)).
  { replace (sum_wxx data) with (s2 + m2 * (m2 * sum_w data)) by (rewrite B2; ring).
    ring. }
  assert (Hs1 : s1 = s + m * (m * e) + sum_wxx data - m1 * (m1 * (e + sum_w data))).
  { rewrite <- A2. ring. }
  unfold vteQ, meanQ. rewrite (Qceqb_neq _ _ NeW), Qc_two.
  apply Deviate_finite_ext; [reflexivity| |].
  - rewrite Hm1, Hm2. now field.
  - rewrite Hs1, Hs2, Hm1, Hm2. now field.
Qed.

Lemma Deviate_fill_all_is_add_witness :
  let S := Deviate identity (num 2) (num 3) (num 1) in
  exists r b,
    fill_all sample_fcns S (numbers [(Q2Qc 1, 1); (Q2Qc 3, 1)]) = (r, None)
    /\ fill_all sample_fcns (zero S) (numbers [(Q2Qc 1, 1); (Q2Qc 3, 1)])
       = (b, None)
    /\ add S b = Ok r.
Proof.
  apply (Deviate_fill_all_is_add sample_fcns identity (Q2Qc 2) (Q2Qc 3) (Q2Qc 1)
           [(Q2Qc 1, 1); (Q2Qc 3, 1)]).
  - reflexivity.
  - vm_compute. discriminate.
  - discriminate.
  - repeat constructor.
Defined.

(** ** Equality *)

(** X24.  Equality is reflexive: every aggregator is [==] to itself,
    whatever its fields are, NaN included, and the comparison does not
    raise. *)
Theorem Container_eq_reflexive rel abs c : Container_eq rel abs c c = Ok true.
Proof. apply Container_eq_refl. Qed.

(** ** The order of the data does not matter *)

Lemma values_update_swap (values : gmap key float) k1 w1 k2 w2 :
  values_update (values_update values k1 w1) k2 w2
  = values_update (values_update values k2 w2) k1 w1.
Proof.
  apply map_eq. intros j. rewrite !values_update_lookup.
  repeat case_decide; subst; try congruence; try reflexivity.
  destruct (values !! j); f_equal; [apply fadd_swap|apply fadd_comm].
Qed.

Lemma fill_swap fcns S : forall x w1 y w2 S1 S2,
  counting S ->
  fill fcns S x w1 = (S1, None) -> fill fcns S1 y w2 = (S2, None) ->
  exists S1', fill fcns S y w2 = (S1', None) /\ fill fcns S1' x w1 = (S2, None).
Proof.
  induction S as [q e vs|q e m s|q e n IHn d IHd|q e cut IH];
    intros x w1 y w2 S1 S2 Hc; cbn [counting] in Hc; try contradiction;
    cbn [fill].
  - unfold Bag_fill.
    destruct (fgtb w1 f0) eqn:P1.
    + destruct (call fcns q x) as [v1|] eqn:C1; [|discriminate].
      destruct (Bag_key v1) as [k1|] eqn:K1; [|discriminate].
      intros [= <-]. cbn [fill]. unfold Bag_fill.
      destruct (fgtb w2 f0) eqn:P2.
      * destruct (call fcns q y) as [v2|] eqn:C2; [|discriminate].
        destruct (Bag_key v2) as [k2|] eqn:K2; [|discriminate].
        intros [= <-]. eexists. split; [reflexivity|].
        cbn [fill]. unfold Bag_fill. rewrite P1, C1, K1.
        now rewrite (fadd_swap e w2 w1), (values_update_swap vs k2 w2 k1 w1).
      * intros [= <-]. eexists. split; [reflexivity|].
        cbn [fill]. unfold Bag_fill. now rewrite P1, C1, K1.
    + intros [= <-]. cbn [fill]. unfold Bag_fill. intros H2.
      exists S2. split; [exact H2|].
      destruct (fgtb w2 f0); [|injection H2 as <-; cbn [fill]; unfold Bag_fill;
                                now rewrite P1].
      destruct (call fcns q y) as [v2|]; [|discriminate].
      destruct (Bag_key v2) as [k2|]; [|discriminate].
      injection H2 as <-. cbn [fill]. unfold Bag_fill. now rewrite P1.
  - destruct (call fcns q x) as [v1|] eqn:C1; [|discriminate].
    destruct (as_real v1) as [a1|] eqn:R1; [|discriminate].
    destruct (call fcns q y) as [v2|] eqn:C2.
    2:{ destruct (fgtb (fmul a1 w1) f0);
          [destruct (fill fcns cut x (fmul a1 w1)) as [c1 [err|]]|];
          try discriminate; intros [= <-]; cbn [fill]; rewrite C2; discriminate. }
    destruct (as_real v2) as [a2|] eqn:R2.
    2:{ destruct (fgtb (fmul a1 w1) f0);
          [destruct (fill fcns cut x (fmul a1 w1)) as [c1 [err|]]|];
          try discriminate; intros [= <-]; cbn [fill]; rewrite C2, R2;
          discriminate. }
    destruct (fgtb (fmul a1 w1) f0) eqn:P1.
    + destruct (fill fcns cut x (fmul a1 w1)) as [c1 [err|]] eqn:F1; [discriminate|].
      intros [= <-]. cbn [fill]. rewrite C2, R2.
      destruct (fgtb (fmul a2 w2) f0) eqn:P2.
      * destruct (fill fcns c1 y (fmul a2 w2)) as [c2 [err|]] eqn:F2; [discriminate|].
        intros [= <-].
        destruct (IH x _ y _ c1 c2 Hc F1 F2) as (c1' & G1 & G2).
        rewrite G1. eexists. split; [reflexivity|].
        cbn [fill]. rewrite C1, R1, P1, G2. now rewrite (fadd_swap e w2 w1).
      * intros [= <-]. eexists. split; [reflexivity|].
        cbn [fill]. rewrite C1, R1, P1, F1. now rewrite (fadd_swap e w2 w1).
    + intros [= <-]. cbn [fill]. rewrite C2, R2.
      destruct (fgtb (fmul a2 w2) f0) eqn:P2.
      * destruct (fill fcns cut y (fmul a2 w2)) as [c2 [err|]] eqn:F2; [discriminate|].
        intros [= <-]. eexists. split; [reflexivity|].
        cbn [fill]. rewrite C1, R1, P1. now rewrite (fadd_swap e w2 w1).
      * intros [= <-]. eexists. split; [reflexivity|].
        cbn [fill]. rewrite C1, R1, P1. now rewrite (fadd_swap e w2 w1).
Qed.

Lemma counting_fill fcns S x w S' :
  counting S -> fill fcns S x w = (S', None) -> counting S'.
Proof.
  intros Hc H. pose proof (same_shape_fill fcns S x w) as Hs. rewrite H in Hs.
  apply (counting_same_shape S); [now apply same_shape_sym|exact Hc].
Qed.

(** X25.  In exact arithmetic (no rounding), on a tree of Bags and
    Selects the order of the data does not matter: where the fills of a
    stream do not raise, the fills of the same data in any other order do
    not raise either and leave the same aggregator. *)
Theorem fill_all_Permutation fcns S data data' r :
  counting S -> data ≡ₚ data' ->
  fill_all fcns S data = (r, None) -> fill_all fcns S data' = (r, None).
Proof.
  intros Hc Hp. revert S r Hc.
  induction Hp as [|[x w] l l' _ IH|[x w1] [y w2] l|l l' l'' _ IH1 _ IH2];
    intros S r Hc; cbn [fill_all].
  - auto.
  - destruct (fill fcns S x w) as [S' [err|]] eqn:E; [discriminate|].
    apply IH. exact (counting_fill fcns S x w S' Hc E).
  - destruct (fill fcns S y w2) as [S1 [err|]] eqn:E1; [discriminate|].
    destruct (fill fcns S1 x w1) as [S2 [err|]] eqn:E2; [discriminate|].
    destruct (fill_swap fcns S y w2 x w1 S1 S2 Hc E1 E2) as (S1' & G1 & G2).
    now rewrite G1, G2.
  - intros H. apply IH2; [exact Hc|]. now apply IH1.
Qed.

Lemma fill_all_Permutation_witness :
  let S := Select is_positive f0 (Bag identity f0 ∅) in
  fill_all sample_fcns S [(VNum f1, f2); (VNum f2, f1); (VNum (num (-1)), f1)]
  = ((fill_all sample_fcns S
        [(VNum (num (-1)), f1); (VNum f1, f2); (VNum f2, f1)]).1, None).
Proof.
  apply (fill_all_Permutation sample_fcns
           (Select is_positive f0 (Bag identity f0 ∅))
           [(VNum (num (-1)), f1); (VNum f1, f2); (VNum f2, f1)]).
  - exact I.
  - apply Permutation_cons_append.
  - reflexivity.
Defined.

(** ** Deviate: the order of the data does not matter *)

Lemma sums_Permutation data data' :
  data ≡ₚ data' ->
  sum_w data = sum_w data' /\ sum_wx data = sum_wx data'
  /\ sum_wxx data = sum_wxx data'.
Proof.
  unfold sum_w, sum_wx, sum_wxx.
  induction 1 as [|[x w] l l' _ (IH0 & IH1 & IH2)|[x w1] [y w2] l
                 |l l' l'' _ (A0 & A1 & A2) _ (B0 & B1 & B2)];
    cbn [foldr fst snd].
  - auto.
  - now rewrite IH0, IH1, IH2.
  - repeat split; ring.
  - repeat split; congruence.
Qed.

(** X26.  For a Deviate too the order of the data does not matter (in
    exact arithmetic): from a finite state with non-negative entries, two
    streams of finite numbers with finite positive weights that hold the
    same data in different orders leave the same entries, mean and
    varianceTimesEntries. *)
Theorem Deviate_fill_all_Permutation fcns q e m s data data' :
  (forall x, call fcns q (VNum (Finite x)) = Ok (VNum (Finite x))) ->
  0 <= e -> Forall (fun p => 0 < p.2) data -> data ≡ₚ data' ->
  fill_all fcns (Deviate q (Finite e) (Finite m) (Finite s)) (numbers data)
  = fill_all fcns (Deviate q (Finite e) (Finite m) (Finite s)) (numbers data').
Proof.
  intros Hid He Hall Hp.
  destruct data as [|p data].
  { apply Permutation_nil_l in Hp. now subst data'. }
  assert (Hall' : Forall (fun p => 0 < p.2) data') by now rewrite <- Hp.
  destruct (Deviate_fill_all_moments_from fcns q Hid (p :: data) e m s He Hall)
    as (e1 & m1 & s1 & -> & A0 & A1 & A2).
  destruct (Deviate_fill_all_moments_from fcns q Hid data' e m s He Hall')
    as (e2 & m2 & s2 & -> & B0 & B1 & B2).
  destruct (sums_Permutation (p :: data) data' Hp) as (P0 & P1 & P2).
  rewrite <- P0 in B0. rewrite <- P1 in B1. rewrite <- P2 in B2.
  subst e1 e2.
  pose proof (sum_w_pos (p :: data) (ltac:(discriminate)) Hall) as PW.
  pose proof (Qc_pos_neq _ (Qc_add_nonneg_pos _ _ He PW)) as N.
  assert (Em : m1 = m2).
  { transitivity ((m * e + sum_wx (p :: data)) / (e + sum_w (p :: data))).
    - rewrite <- A1. now field.
    - rewrite <- B1. now field. }
  subst m2.
  assert (Es : s1 = s2).
  { transitivity (s + m * (m * e) + sum_wxx (p :: data)
                  - m1 * (m1 * (e + sum_w (p :: data)))).
    - rewrite <- A2. ring.
    - rewrite <- B2. ring. }
  now subst s2.
Qed.

Lemma Deviate_fill_all_Permutation_witness :
  fill_all sample_fcns (Deviate identity (Finite 0) (Finite 0) (Finite 0))
           (numbers [(Q2Qc 1, 1); (Q2Qc 3, Q2Qc 2)])
  = fill_all sample_fcns (Deviate identity (Finite 0) (Finite 0) (Finite 0))
             (numbers [(Q2Qc 3, Q2Qc 2); (Q2Qc 1, 1)]).
Proof.
  apply (Deviate_fill_all_Permutation sample_fcns identity 0 0 0
           [(Q2Qc 1, 1); (Q2Qc 3, Q2Qc 2)] [(Q2Qc 3, Q2Qc 2); (Q2Qc 1, 1)]).
  - reflexivity.
  - apply Qcle_refl.
  - repeat constructor.
  - apply perm_swap.
Defined.

(** ** Bag: what a stream of fills counts *)

(** X27.  What a Bag counts.  After a stream of fills that does not raise,
    the value a Bag holds under a key (without NaN) is the value it held
    plus the weights of the data of the stream that have a positive weight
    and that key as their quantity; a key none of them has is as it was,
    there or not. *)
Theorem Bag_fill_all_values fcns q data e (values : gmap key float) c k :
  nan_free k = true ->
  fill_all fcns (Bag q e values) data = (c, None) ->
  exists e' (values' : gmap key float),
    c = Bag q e' values'
    /\ values' !! k
       = match Bag_weights fcns q k data with
         | [] => values !! k
         | w :: ws =>
             Some (foldl fadd (match values !! k with
                               | Some n => fadd n w
                               | None => w
                               end) ws)
         end.
Proof.
  intros Hk. revert e values c.
  induction data as [|[datum w] data IH]; intros e values c;
    cbn [fill_all Bag_weights omap list_omap fst snd].
  - intros [= <-]. now exists e, values.
  - cbn [fill]. unfold Bag_fill. destruct (fgtb w f0).
    + destruct (call fcns q datum) as [v|]; [|discriminate].
      destruct (Bag_key v) as [k0|] eqn:K; [|discriminate].
      intros H. destruct (IH _ _ c H) as (e' & values' & -> & Hl).
      exists e', values'. split; [reflexivity|]. rewrite Hl.
      fold (Bag_weights fcns q k data).
      rewrite values_update_lookup.
      destruct (decide (Some k0 = Some k)) as [[= ->]|Hne].
      * rewrite decide_True by reflexivity.
        now destruct (Bag_weights fcns q k data).
      * rewrite decide_False by congruence. reflexivity.
    + intros H. exact (IH _ _ c H).
Qed.

Lemma Bag_fill_all_values_witness :
  exists e' (values' : gmap key float),
    (fill_all sample_fcns (Bag identity f0 ∅)
       [(VStr "a", f1); (VStr "b", f1); (VStr "a", f2)]).1
    = Bag identity e' values'
    /\ values' !! KStr "a"
       = match Bag_weights sample_fcns identity (KStr "a")
                 [(VStr "a", f1); (VStr "b", f1); (VStr "a", f2)] with
         | [] => (∅ : gmap key float) !! KStr "a"
         | w :: ws =>
             Some (foldl fadd (match (∅ : gmap key float) !! KStr "a" with
                               | Some n => fadd n w
                               | None => w
                               end) ws)
         end.
Proof.
  apply (Bag_fill_all_values sample_fcns identity
           [(VStr "a", f1); (VStr "b", f1); (VStr "a", f2)]
           f0 ∅ _ (KStr "a")); reflexivity.
Defined.

(** * Rounding *)

(** With no rounding, [fill_r] is [fill]. *)
Lemma fill_r_exact fcns c : forall datum w,
  fill_r (fun x => x) fcns c datum w = fill fcns c datum w.
Proof.
  induction c as [q e vs|q e m s|q e n IHn d IHd|q e cut IH];
    intros datum w; cbn [fill_r fill].
  - reflexivity.
  - reflexivity.
  - destruct (call fcns q datum); [|reflexivity].
    destruct (as_real a) as [w0|]; [|reflexivity].
    unfold fmul_r, fadd_r. now rewrite IHd, IHn.
  - destruct (call fcns q datum); [|reflexivity].
    destruct (as_real a) as [w0|]; [|reflexivity].
    unfold fmul_r, fadd_r. now rewrite IH.
Qed.

Lemma add_r_exact a : forall b, add_r (fun x => x) a b = add a b.
Proof.
  induction a as [q e vs|q e m s|q e n IHn d IHd|q e cut IH];
    intros [q' e' vs'|q' e' m' s'|q' e' n' d'|q' e' cut']; cbn [add_r add];
    rewrite ?IHn, ?IHd, ?IH; reflexivity.
Qed.

(** [binary64] on some numbers: one tenth is not a double; [2^53 + 1]
    rounds to the even neighbour; [2^-600 * 2^-600] underflows to zero;
    [2^600 * 2^600] overflows; [2^600] and [2^-600] are doubles. *)
Lemma binary64_examples :
  binary64 (frac 1 10) = Finite (Q2Qc (3602879701896397 # 2 ^ 55))
  /\ binary64 (num (2 ^ 53 + 1)) = num (2 ^ 53)
  /\ binary64 (fmul two_m600 two_m600) = f0
  /\ binary64 (fmul two_600 two_600) = PInf
  /\ binary64 two_600 = two_600
  /\ binary64 two_m600 = two_m600
  /\ binary64 (fmul two_600 two_m600) = f1.
Proof. repeat split; vm_compute; float_eq. Qed.

(** [binary64] against the primitive floats, on the products and the sum
    of the example that follows and on a division that rounds. *)
Lemma binary64_primitive :
  of_prim (prim 1 600) = two_600
  /\ of_prim (prim 1 (-600)) = two_m600
  /\ of_prim (PrimFloat.mul (prim 1 (-600)) (prim 1 (-600)))
     = binary64 (fmul two_m600 two_m600)
  /\ of_prim (PrimFloat.mul (prim 1 600) (prim 1 (-600)))
     = binary64 (fmul two_600 two_m600)
  /\ of_prim (PrimFloat.mul (prim 1 (-600)) (prim 1 0))
     = binary64 (fmul two_m600 f1)
  /\ of_prim (PrimFloat.add (prim 0 0) (prim 1 (-600)))
     = binary64 (fadd f0 two_m600)
  /\ of_prim (PrimFloat.div (prim 1 0) (prim 10 0)) = binary64 (frac 1 10).
Proof. repeat split; vm_compute; float_eq. Qed.

(** ** Fraction: a quantity-type error after the denominator was filled *)

(** C7.  The claim fails on the code.  Take
    [Fraction(lambda x: 2.0**600, Select(lambda x: 2.0**-600,
    Deviate(lambda x: None)))] and fill it once with weight [2.0**-600].
    In the denominator the Select multiplies its selector by the weight:
    [2^-600 * 2^-600] underflows to [0.0], so its cut is not filled, no
    exception is raised and its entries become [2^-600].  The numerator
    is then filled with [2^600 * 2^-600 = 1.0]: its Select gets
    [2^-600 * 1.0 > 0], fills its cut, and the Deviate raises the
    quantity-type error.  [Fraction.fill] lets it through: the call
    raises, and the denominator stays filled.  With the arithmetic exact
    (no underflow) the same call raises and leaves the tree as it was. *)
Theorem Fraction_fill_TypeError_not_rolled_back :
  let cut := Deviate_init (Some returns_None) in
  let c := Fraction_init (Some returns_2_600)
             (Select_init (Some returns_2_m600) cut) in
  fill_r binary64 underflow_fcns c VNone two_m600
  = (Fraction returns_2_600 f0
       (Select returns_2_m600 f0 cut)
       (Select returns_2_m600 two_m600 cut),
     Some TypeError)
  /\ (fill_r binary64 underflow_fcns c VNone two_m600).1 <> c
  /\ fill underflow_fcns c VNone two_m600 = (c, Some TypeError).
Proof.
  cbn zeta.
  assert (H : fill_r binary64 underflow_fcns
                (Fraction_init (Some returns_2_600)
                   (Select_init (Some returns_2_m600)
                      (Deviate_init (Some returns_None)))) VNone two_m600
              = (Fraction returns_2_600 f0
                   (Select returns_2_m600 f0 (Deviate_init (Some returns_None)))
                   (Select returns_2_m600 two_m600
                      (Deviate_init (Some returns_None))),
                 Some TypeError)).
  { vm_compute. repeat first [float_eq | f_equal]. }
  split; [exact H|]. split.
  - rewrite H. cbn [fst]. intros E. injection E as E. revert E. vm_compute.
    discriminate.
  - vm_compute. reflexivity.
Qed.

(** ** Zero is an identity in exact arithmetic only *)

(** With the operations rounded to doubles the sum with a zero is not
    always the same state.  A Deviate filled with [1e9] and [1e9 + 2]
    (weight 1) has entries 2, mean [1e9 + 1] and varianceTimesEntries 2,
    with no rounding at all; it meets the conditions of C2 as amended.
    In its sum with its zero the terms of [varianceTimesEntries] are about
    [2e18], where the doubles are 256 apart: the 2 is lost, and the sum is
    not [==] to the state. *)
Lemma zero_is_identity_rounded :
  let P := Deviate identity (num 2) (num 1000000001) (num 2) in
  fill_r binary64 sample_fcns
    (fill_r binary64 sample_fcns (Deviate_init (Some identity))
            (VNum (num 1000000000)) f1).1
    (VNum (num 1000000002)) f1
  = (P, None)
  /\ regular P = true
  /\ add_r binary64 P (zero P)
     = Ok (Deviate identity (num 2) (num 1000000001) (num 0))
  /\ (add_r binary64 P (zero P)
      ≫= fun s => Container_eq tolerance tolerance s P) = Ok false.
Proof.
  cbn zeta.
  assert (H : add_r binary64 (Deviate identity (num 2) (num 1000000001) (num 2))
                    (zero (Deviate identity (num 2) (num 1000000001) (num 2)))
              = Ok (Deviate identity (num 2) (num 1000000001) (num 0))).
  { vm_compute. repeat first [float_eq | f_equal]. }
  split; [|split; [|split]].
  - vm_compute. repeat first [float_eq | f_equal].
  - reflexivity.
  - exact H.
  - rewrite H. vm_compute. reflexivity.
Qed.
